(** * Mini-Shell: the command-tree executor of [src/cmd.c]

    A shallow embedding of [cmd.c] and the properties its specification
    states about it.

    The C code talks to the operating system all the time, so the
    embedding has three layers:

    - the parsed command tree ([word_t], [simple_command_t], [command_t]),
      laid out as the C structures are, with [option] for nullable pointers;
    - a model of the part of POSIX the code calls: a state private to each
      process (environment, working directory, descriptor table), a state
      shared by all processes (file contents, terminated children, the next
      process id, the calls of [open] made so far, diagnostics), and the
      calls [open], [dup], [dup2], [close], [pipe], [chdir], [getenv],
      [setenv], [fork], [waitpid], [execvp] and [exit];
    - the functions of [cmd.c], written in a small state-and-exit monad in
      the order the C statements run.

    Modelling decisions, all on the operating-system side:

    - a C string is a [string].  The code fills three kinds of buffers with
      [strcat] and never checks their size.  The array [value[100]] on the
      stack of [parse_simple] has its capacity in the model: an assigned
      value that does not fit ends the process ([overrun]).  The blocks from
      [calloc] in [getFile] and [getParameters] (100 bytes for a resolved
      word, 10 slots for [argv]) are unbounded in the model, since what a
      process does after it wrote past the end of a heap block is not
      known; [fits], [argv_fits] and [targets_fit] say when a command stays
      within them;
    - the environment is a finite map, and [setenv] an insertion;
    - a forked child runs to completion at the point of [fork]; the parent
      later collects its status with [waitpid].  Of the interleavings of two
      concurrent children this is the one where the first finishes before
      the second starts.  What flows through a pipe is not represented;
    - what an external program does is given by an oracle ([os_exec]): it
      either cannot be executed or terminates with an exit status (programs
      that run for ever or die from a signal are left out, and so is what a
      program does to files).  Whether [fork] succeeds and where [chdir]
      leads are oracles too;
    - which file a path names, and whether it can be opened at all, is an
      oracle as well ([os_file]): [open] fails for the empty path, a
      directory or a path through a missing directory, and two paths may
      name one file.  The oracle is asked with the working directory, the
      path and the flags; its answers do not change while the shell runs;
    - the file contents of the model are what [open] makes of them (a file
      is created, emptied or left as it is).  What is written is not added
      to them: the text of [printf] and [perror] is collected in [diag], in
      the order of the calls, whatever file the descriptor is on at that
      moment, and the output of programs is not represented.  No property
      below states what a file holds after something was written;
    - a local variable read before it is written has the value the oracle
      [os_uninit] gives for its name;
    - the termination status that [waitpid] stores is encoded as on Linux
      and the BSDs (exit status in bits 8 to 15), and [exit] keeps the low 8
      bits of its argument. *)

From Stdlib Require Import ZArith.
From stdpp Require Import base gmap strings list.

#[local] Set Warnings "-register-all".
#[local] Open Scope Z_scope.

(** ** The command tree

    The structures are declared in the parser's header, which is not among
    the sources; they are laid out here from the fields [cmd.c] reads. *)

(** [word_t]: one fragment of a word.  [next_part] links the fragments of
    one word, [next_word] links the words of a parameter list. *)
Inductive word_t : Type := mk_word {
  word_string : string;
  expand : bool;
  next_part : option word_t;
  next_word : option word_t
}.

Record simple_command_t : Type := mk_simple {
  verb : option word_t;
  params : option word_t;
  red_in : option word_t;      (* [in] *)
  red_out : option word_t;     (* [out] *)
  red_err : option word_t;     (* [err] *)
  io_flags : Z
}.

(** [OP_DUMMY] is the value that no case of [parse_command]'s [switch]
    lists. *)
Inductive operator_t : Type :=
| OP_NONE
| OP_SEQUENTIAL
| OP_PARALLEL
| OP_CONDITIONAL_ZERO
| OP_CONDITIONAL_NZERO
| OP_PIPE
| OP_DUMMY.

Inductive command_t : Type := mk_command {
  cmd1 : option command_t;
  cmd2 : option command_t;
  op : operator_t;
  scmd : option simple_command_t
}.

(** Constants of the headers [cmd.h] and [parser.h], which are not among
    the sources; the values are those of the assignment's skeleton.  No
    theorem below depends on the values except through the concrete
    examples. *)
Definition IO_REGULAR : Z := 0.
Definition IO_OUT_APPEND : Z := 1.
Definition IO_ERR_APPEND : Z := 2.
Definition SHELL_EXIT : Z := -100.

Definition READ : nat := 0.
Definition WRITE : nat := 1.

(** ** The operating system *)

Definition STDIN_FILENO : Z := 0.
Definition STDOUT_FILENO : Z := 1.
Definition STDERR_FILENO : Z := 2.

(** [fcntl.h] open flags (Linux values). *)
Definition O_RDONLY : Z := 0.
Definition O_WRONLY : Z := 1.
Definition O_CREAT : Z := 64.
Definition O_TRUNC : Z := 512.
Definition O_APPEND : Z := 1024.

(** Number of descriptors a process may hold. *)
Definition OPEN_MAX : nat := 1024.

(** What a descriptor refers to: the file it was opened on (as [os_file]
    names it) and the flags. *)
Record ofile : Type := mk_ofile {
  of_path : string;
  of_flags : Z
}.

#[global] Instance ofile_eq_dec : EqDecision ofile.
Proof. solve_decision. Defined.

(** State private to a process; [fork] copies it. *)
Record proc : Type := mk_proc {
  env : gmap string string;
  cwd : string;
  fds : gmap Z ofile
}.

(** State shared by all processes. *)
Record world : Type := mk_world {
  fs : gmap string string;       (* regular files, by the names [os_file]
                                    gives them: what [open] leaves in them *)
  zombies : gmap Z Z;            (* terminated, not yet waited for: pid to status *)
  next_pid : positive;
  opened : list (string * Z);    (* every call of [open]: path and flags *)
  diag : list string             (* what [printf] and [perror] wrote *)
}.

Record os : Type := mk_os {
  os_chdir : string -> string -> option string;   (* cwd, path: the new cwd *)
  os_exec : string -> list string -> proc -> option Z;
  os_fork_ok : world -> bool;
  os_uninit : string -> Z;
  (* cwd, path, flags: the file that [path] names when it is looked up from
     [cwd], if there is or can be a regular file of that name which the
     process may open with [flags]; [None] for the empty path, a directory,
     a missing parent directory, a file the process has no right to.  Two
     paths that name one file give the same result. *)
  os_file : string -> string -> Z -> option string
}.

Definition set_env (e : gmap string string) (p : proc) : proc :=
  {| env := e; cwd := cwd p; fds := fds p |}.
Definition set_cwd (d : string) (p : proc) : proc :=
  {| env := env p; cwd := d; fds := fds p |}.
Definition set_fds (t : gmap Z ofile) (p : proc) : proc :=
  {| env := env p; cwd := cwd p; fds := t |}.

Definition set_fs (f : gmap string string) (w : world) : world :=
  {| fs := f; zombies := zombies w; next_pid := next_pid w;
     opened := opened w; diag := diag w |}.
Definition set_zombies (z : gmap Z Z) (w : world) : world :=
  {| fs := fs w; zombies := z; next_pid := next_pid w;
     opened := opened w; diag := diag w |}.
Definition set_next_pid (n : positive) (w : world) : world :=
  {| fs := fs w; zombies := zombies w; next_pid := n;
     opened := opened w; diag := diag w |}.
Definition add_opened (path : string) (flags : Z) (w : world) : world :=
  {| fs := fs w; zombies := zombies w; next_pid := next_pid w;
     opened := opened w ++ [(path, flags)]; diag := diag w |}.
Definition add_diag (s : string) (w : world) : world :=
  {| fs := fs w; zombies := zombies w; next_pid := next_pid w;
     opened := opened w; diag := diag w ++ [s] |}.

(** *** The monad: a computation of a process either returns a value in a
    new state, or terminates the process with an exit status. *)

Inductive result (A : Type) : Type :=
| Ret (a : A) (p : proc) (w : world)
| Exit (code : Z) (w : world).
Arguments Ret {A} a p w.
Arguments Exit {A} code w.

Definition M (A : Type) : Type := proc -> world -> result A.

Definition ret {A} (a : A) : M A := fun p w => Ret a p w.

Definition bind {A B} (m : M A) (k : A -> M B) : M B :=
  fun p w =>
    match m p w with
    | Ret a p' w' => k a p' w'
    | Exit code w' => Exit code w'
    end.

Declare Scope shell_scope.
Delimit Scope shell_scope with shell.
Notation "x <- m ;; k" := (bind m (fun x => k))
  (at level 100, m at next level, right associativity) : shell_scope.
Notation "m ;;; k" := (bind m (fun _ => k))
  (at level 100, right associativity) : shell_scope.
#[local] Open Scope shell_scope.

(** The status a computation returned, if it returned. *)
Definition status_of {A} (r : result A) : option A :=
  match r with Ret a _ _ => Some a | Exit _ _ => None end.

Definition proc_of {A} (r : result A) : option proc :=
  match r with Ret _ p _ => Some p | Exit _ _ => None end.

Definition world_of {A} (r : result A) : world :=
  match r with Ret _ _ w => w | Exit _ w => w end.

(** *** C conversions *)

Definition int_of_bool (b : bool) : Z := if b then 1 else 0.
Definition bool_of_int (z : Z) : bool := negb (z =? 0).

(** [strcmp(a, b) == 0] *)
Definition strcmp0 (a b : string) : bool := bool_decide (a = b).

(** *** Termination statuses ([sys/wait.h], [exit]) *)

Definition W_EXITCODE (ret : Z) : Z := Z.shiftl ret 8.
Definition WEXITSTATUS (status : Z) : Z := Z.land (Z.shiftr status 8) 255.
Definition exit_status (status : Z) : Z := Z.land status 255.

(** *** Environment and working directory *)

Definition getenv (name : string) : M (option string) :=
  fun p w => Ret (env p !! name) p w.

Definition setenv (name value : string) : M Z :=
  fun p w => Ret 0 (set_env (<[name := value]> (env p)) p) w.

(** [chdir(path)]; a NULL path fails. *)
Definition chdir (O : os) (path : option string) : M Z :=
  fun p w =>
    match path with
    | None => Ret (-1) p w
    | Some d =>
        match os_chdir O (cwd p) d with
        | Some d' => Ret 0 (set_cwd d' p) w
        | None => Ret (-1) p w
        end
    end.

(** *** Descriptors *)

Fixpoint first_free (t : gmap Z ofile) (fuel : nat) (fd : Z) : option Z :=
  match fuel with
  | O => None
  | S k => match t !! fd with
           | None => Some fd
           | Some _ => first_free t k (fd + 1)
           end
  end.

(** The lowest descriptor not in use, if the table is not full. *)
Definition lowest_fd (t : gmap Z ofile) : option Z := first_free t OPEN_MAX 0.

Definition dup (oldfd : Z) : M Z :=
  fun p w =>
    match fds p !! oldfd with
    | None => Ret (-1) p w
    | Some f =>
        match lowest_fd (fds p) with
        | None => Ret (-1) p w
        | Some fd => Ret fd (set_fds (<[fd := f]> (fds p)) p) w
        end
    end.

Definition dup2 (oldfd newfd : Z) : M Z :=
  fun p w =>
    match fds p !! oldfd with
    | None => Ret (-1) p w
    | Some f =>
        if bool_decide (0 <= newfd < Z.of_nat OPEN_MAX)
        then Ret newfd (set_fds (<[newfd := f]> (fds p)) p) w
        else Ret (-1) p w
    end.

Definition close (fd : Z) : M Z :=
  fun p w =>
    match fds p !! fd with
    | None => Ret (-1) p w
    | Some _ => Ret 0 (set_fds (delete fd (fds p)) p) w
    end.

(** [open(path, flags, mode)]: the call fails when [path] names nothing
    that can be opened ([os_file]), and, without [O_CREAT], when the file
    does not exist; with [O_TRUNC] the content of the file is dropped.
    [mode] only documents the call.  Every call is logged in [opened], with
    the path as it was passed. *)
Definition open (O : os) (path : string) (flags : Z) (mode : Z) : M Z :=
  fun p w =>
    let w := add_opened path flags w in
    let creat := Z.testbit flags 6 in
    let trunc := Z.testbit flags 9 in
    match os_file O (cwd p) path flags with
    | None => Ret (-1) p w
    | Some file =>
        match fs w !! file, creat with
        | None, false => Ret (-1) p w
        | old, _ =>
            match lowest_fd (fds p) with
            | None => Ret (-1) p w
            | Some fd =>
                Ret fd
                    (set_fds (<[fd := mk_ofile file flags]> (fds p)) p)
                    (set_fs (<[file := if trunc then "" else default "" old]>
                               (fs w)) w)
            end
        end
    end.

(** *** Processes *)

Definition printf (s : string) : M unit :=
  fun p w => Ret tt p (add_diag s w).

Definition perror (s : string) : M unit :=
  fun p w => Ret tt p (add_diag s w).

(** [exit(status)]: the process ends; nothing is returned to the caller. *)
Definition exit {A} (status : Z) : M A :=
  fun _ w => Exit (exit_status status) w.

(** Writing past the end of an array on the stack.  C leaves the behaviour
    undefined; the model takes what is seen on Linux when the frame is
    overwritten: the process is killed ([SIGSEGV]) and does nothing more.
    The computation ends there, as with [exit]; the code, 128 + 11, is the
    one under which a shell reports that death, and as for any other code
    but 0 a parent that waits for the process reads a status that is not
    0. *)
Definition SIGSEGV : Z := 11.

Definition overrun {A} : M A :=
  fun _ w => Exit (128 + SIGSEGV) w.

(** [execvp(file, argv)]: on success the program replaces the process and
    runs to its own exit; on failure the call returns -1. *)
Definition execvp (O : os) (file : string) (argv : list string) : M Z :=
  fun p w =>
    match os_exec O file argv p with
    | Some code => Exit (exit_status code) w
    | None => Ret (-1) p w
    end.

(** [pid = fork()] followed by the three-way test on [pid] that every use in
    [cmd.c] makes: [child] is the [pid == 0] branch (it runs in a copy of
    the process and always ends in [exit]), [parent] the [pid > 0] branch,
    [failed] what runs when no process could be created. *)
Definition fork {A} (O : os) (child : M Empty_set) (parent : Z -> M A)
    (failed : M A) : M A :=
  fun p w =>
    if os_fork_ok O w then
      let pid := Z.pos (next_pid w) in
      match child p (set_next_pid (Pos.succ (next_pid w)) w) with
      | Ret e _ _ => match e with end
      | Exit code w' =>
          parent pid p (set_zombies (<[pid := W_EXITCODE code]> (zombies w')) w')
      end
    else failed p w.

(** [waitpid(pid, &status, 0)]: [status] is written only when [pid] is a
    terminated child that has not been waited for. *)
Definition waitpid (pid : Z) (status : Z) : M Z :=
  fun p w =>
    match zombies w !! pid with
    | Some st => Ret st p (set_zombies (delete pid (zombies w)) w)
    | None => Ret status p w
    end.

(** [pipe(pipefd)]: two descriptors on a fresh channel; on failure the
    array keeps what it held. *)
Definition pipe (pipefd : list Z) : M (list Z) :=
  fun p w =>
    match lowest_fd (fds p) with
    | None => Ret pipefd p w
    | Some r =>
        let t := <[r := mk_ofile "pipe:[r]" O_RDONLY]> (fds p) in
        match lowest_fd t with
        | None => Ret pipefd p w
        | Some wr => Ret [r; wr] (set_fds (<[wr := mk_ofile "pipe:[w]" O_WRONLY]> t) p) w
        end
    end.

Definition strcat (dest src : string) : string := dest +:+ src.

(** [a[i]] for an [int] array held as a list. *)
Definition at_index (a : list Z) (i : nat) : Z := default 0 (a !! i).

(** ** The functions of [cmd.c] *)

Section Shell.

Variable O : os.

(** Internal change-directory command. *)
Definition shell_cd (dir : option word_t) : M bool :=
  match dir with
  | None =>
      home <- getenv "HOME";;
      r <- chdir O home;;
      if negb (r =? 0) then ret false else ret true
  | Some d =>
      r <- chdir O (Some (word_string d));;
      if negb (r =? 0) then ret false else ret true
  end.

(** Internal exit/quit command. *)
Definition shell_exit {A} (status : Z) : M A := exit status.

(** The loop that [getFile], [getParameters] and [parse_simple] each
    contain: walk the fragments of a word along [next_part], appending to
    the buffer the value of the variable a fragment names (nothing when it
    is not set) or the fragment itself. *)
Fixpoint strcat_parts (buf : string) (w : word_t) : M string :=
  buf' <- (if expand w then
             valoare <- getenv (word_string w);;
             match valoare with
             | Some v => ret (strcat buf v)
             | None => ret (strcat buf "")
             end
           else ret (strcat buf (word_string w)));;
  match next_part w with
  | None => ret buf'
  | Some w' => strcat_parts buf' w'
  end.

Definition getFile (w : option word_t) : M string :=
  match w with
  | None => ret ""
  | Some w => strcat_parts "" w
  end.

(** Resolved parameters, following [next_word] from [param]. *)
Fixpoint getParameters_loop (param : word_t) : M (list string) :=
  value <- strcat_parts "" param;;
  match next_word param with
  | None => ret [value]
  | Some param' => rest <- getParameters_loop param';; ret (value :: rest)
  end.

(** [argv] without its terminating NULL. *)
Definition getParameters (s : simple_command_t) : M (list string) :=
  match verb s with
  | None => ret []                      (* not reached: callers checked [verb] *)
  | Some v =>
      match params s with
      | None => ret [word_string v]
      | Some param => rest <- getParameters_loop param;; ret (word_string v :: rest)
      end
  end.

Definition saveAllAndSwitch (s : simple_command_t) : M (list Z) :=
  (* Save stdin if an input file is provided *)
  r_in <-
    match red_in s with
    | Some _ =>
        saved_stdin <- dup STDIN_FILENO;;
        file <- getFile (red_in s);;
        fd_in <- open O file O_RDONLY 0;;
        dup2 fd_in STDIN_FILENO;;;
        ret (saved_stdin, fd_in)
    | None => ret (os_uninit O "saved_stdin", os_uninit O "fd_in")
    end;;
  let '(saved_stdin, fd_in) := r_in in
  (* Save stdout if an output file is provided *)
  r_out <-
    match red_out s with
    | Some out =>
        saved_stdout <- dup STDOUT_FILENO;;
        if (io_flags s =? IO_OUT_APPEND)
           || match red_err s with
              | Some err => strcmp0 (word_string out) (word_string err)
              | None => false
              end
        then
          file <- getFile (red_out s);;
          fd_out <- open O file (Z.lor (Z.lor O_WRONLY O_CREAT) O_APPEND) 420;;
          dup2 fd_out STDOUT_FILENO;;;
          ret (saved_stdout, fd_out)
        else
          file <- getFile (red_out s);;
          fd_out <- open O file (Z.lor (Z.lor O_WRONLY O_CREAT) O_TRUNC) 420;;
          dup2 fd_out STDOUT_FILENO;;;
          ret (saved_stdout, fd_out)
    | None => ret (os_uninit O "saved_stdout", os_uninit O "fd_out")
    end;;
  let '(saved_stdout, fd_out) := r_out in
  (* Save stderr if an error file is provided *)
  r_err <-
    match red_err s with
    | Some _ =>
        saved_stderr <- dup STDERR_FILENO;;
        if io_flags s =? IO_ERR_APPEND
        then
          file <- getFile (red_err s);;
          fd_err <- open O file (Z.lor (Z.lor O_WRONLY O_CREAT) O_APPEND) 420;;
          dup2 fd_err STDERR_FILENO;;;
          ret (saved_stderr, fd_err)
        else
          file <- getFile (red_err s);;
          fd_err <- open O file (Z.lor (Z.lor O_WRONLY O_CREAT) O_TRUNC) 420;;
          dup2 fd_err STDERR_FILENO;;;
          ret (saved_stderr, fd_err)
    | None => ret (os_uninit O "saved_stderr", os_uninit O "fd_err")
    end;;
  let '(saved_stderr, fd_err) := r_err in
  ret [saved_stdin; saved_stdout; saved_stderr; fd_in; fd_out; fd_err].

Definition switchAndClose (saved : list Z) (s : simple_command_t) : M unit :=
  (if red_in s is Some _ then dup2 (at_index saved 0) STDIN_FILENO else ret 0);;;
  (if red_out s is Some _ then dup2 (at_index saved 1) STDOUT_FILENO else ret 0);;;
  (if red_err s is Some _ then dup2 (at_index saved 2) STDERR_FILENO else ret 0);;;
  close (at_index saved 3);;;
  close (at_index saved 4);;;
  close (at_index saved 5);;;
  ret tt.

Definition nl : string := String (Ascii.ascii_of_nat 10) EmptyString.

(** The test [verb->next_part != NULL && strcmp(verb->next_part->string, "=") == 0]. *)
Definition is_assignment (v : word_t) : bool :=
  match next_part v with
  | Some n => strcmp0 (word_string n) "="
  | None => false
  end.

(** [char value[100]] in [parse_simple]: the value of an assignment and
    its terminating zero byte have to fit. *)
Definition VALUE_SIZE : nat := 100.

(** Parse a simple command (internal, environment variable assignment,
    external command). *)
Definition parse_simple (s : option simple_command_t) (level : Z)
    (father : option command_t) : M Z :=
  match s with
  | None => ret 1
  | Some s =>
  match verb s with
  | None => ret 1
  | Some v =>
    if is_assignment v then
      value <- match next_part v ≫= next_part with
               | None => ret ""
               | Some var => strcat_parts "" var
               end;;
      if (VALUE_SIZE <=? String.length value)%nat then overrun
      else (setenv (word_string v) value;;; ret 0)
    else if strcmp0 (word_string v) "exit" || strcmp0 (word_string v) "quit" then
      shell_exit 0
    else if strcmp0 (word_string v) "true" then ret 0
    else if strcmp0 (word_string v) "false" then ret 1
    else
      fork O
        (* pid == 0 *)
        (match params s with
         | Some _ =>
             argv <- getParameters s;;
             saved <- saveAllAndSwitch s;;
             (if strcmp0 (word_string v) "cd" then
                shell_cd (params s);;; ret tt
              else
                r <- execvp O (word_string v) argv;;
                if r =? -1 then
                  printf ("Execution failed for '" +:+ word_string v +:+ "'" +:+ nl);;;
                  shell_exit 1
                else ret tt);;;
             switchAndClose saved s
         | None =>
             let noParameters := [word_string v] in
             saved <- saveAllAndSwitch s;;
             (if strcmp0 (word_string v) "cd" then
                shell_cd (params s);;; ret tt
              else
                r <- execvp O (word_string v) noParameters;;
                if r =? -1 then
                  printf ("Execution failed for '" +:+ word_string v +:+ "'" +:+ nl);;;
                  shell_exit 1
                else ret tt);;;
             switchAndClose saved s
         end;;;
         shell_exit 0)
        (* pid > 0 *)
        (fun pid =>
           status <- waitpid pid (os_uninit O "status");;
           cd_return <- (if strcmp0 (word_string v) "cd"
                         then shell_cd (params s) else ret true);;
           if negb cd_return then ret 1 else ret status)
        (* fork failed *)
        (perror "fork";;; ret (-1))
  end
  end.

(** The test the conditionals make five times over: [c->cmd1] is a simple
    command whose verb is "cd".  Gives the simple command when it holds. *)
Definition left_cd (c : command_t) : option simple_command_t :=
  match cmd1 c with
  | None => None
  | Some c1 =>
      match scmd c1 with
      | None => None
      | Some s =>
          match verb s with
          | None => None
          | Some v => if strcmp0 (word_string v) "cd" then Some s else None
          end
      end
  end.

(** The functions below call [parse_command] on the children of the node
    they are given; they take it as the parameter [parse], and
    [parse_command] passes itself. *)
Section Operators.

Variable parse : option command_t -> Z -> option command_t -> M Z.

(** Process two commands in parallel, by creating two children. *)
Definition run_in_parallel (cmd1 cmd2 : option command_t) (level : Z)
    (father : option command_t) : M bool :=
  fork O
    (status1 <- parse cmd1 level father;; shell_exit status1)
    (fun pid1 =>
       fork O
         (status2 <- parse cmd2 level father;; shell_exit status2)
         (fun pid2 =>
            status1 <- waitpid pid1 (os_uninit O "status1");;
            status2 <- waitpid pid2 (os_uninit O "status2");;
            ret true)
         (ret true))
    (ret true).

(** Run commands by creating an anonymous pipe (cmd1 | cmd2).  The C
    function is declared [bool] and ends in [return status2]. *)
Definition run_on_pipe (cmd1 cmd2 : option command_t) (level : Z)
    (father : option command_t) : M bool :=
  pipefd <- pipe [os_uninit O "pipefd[0]"; os_uninit O "pipefd[1]"];;
  fork O
    (close (at_index pipefd READ);;;
     dup2 (at_index pipefd WRITE) STDOUT_FILENO;;;
     close (at_index pipefd WRITE);;;
     status1 <- parse cmd1 level father;;
     shell_exit status1)
    (fun pid1 =>
       fork O
         (close (at_index pipefd WRITE);;;
          dup2 (at_index pipefd READ) STDIN_FILENO;;;
          close (at_index pipefd READ);;;
          status2 <- parse cmd2 level father;;
          shell_exit status2)
         (fun pid2 =>
            close (at_index pipefd READ);;;
            close (at_index pipefd WRITE);;;
            status1 <- waitpid pid1 (os_uninit O "status1");;
            status2 <- waitpid pid2 (os_uninit O "status2");;
            ret (bool_of_int status2))
         (ret (bool_of_int (os_uninit O "status2"))))
    (ret (bool_of_int (os_uninit O "status2"))).

(** [if (cmd1 is a cd) shell_cd(c->cmd1->scmd->params);] *)
Definition cd_again (c : command_t) : M unit :=
  match left_cd c with
  | Some s => shell_cd (params s);;; ret tt
  | None => ret tt
  end.

Definition Conditional_Zero (c : command_t) (level : Z)
    (father : option command_t) : M Z :=
  match scmd c with
  | None =>
      status <- parse (cmd1 c) level father;;
      cd_again c;;;
      if status =? 0 then parse (cmd2 c) level father else ret status
  | Some _ =>
      fork O
        (status <- parse (cmd1 c) level father;;
         cd_again c;;;
         status <- (if status =? 0 then parse (cmd2 c) level father else ret status);;
         shell_exit status)
        (fun pid =>
           status <- waitpid pid (os_uninit O "status");;
           cd_again c;;;
           ret status)
        (ret 0)
  end.

Definition Conditional_NZero (c : command_t) (level : Z)
    (father : option command_t) : M Z :=
  match scmd c with
  | None =>
      status <- parse (cmd1 c) level father;;
      cd_again c;;;
      if negb (status =? 0) then parse (cmd2 c) level father else ret status
  | Some _ =>
      fork O
        (status <- parse (cmd1 c) level father;;
         cd_again c;;;
         status <- (if negb (status =? 0) then parse (cmd2 c) level father
                    else ret status);;
         shell_exit status)
        (fun pid =>
           status <- waitpid pid (os_uninit O "status");;
           ret status)
        (ret 0)
  end.

End Operators.

(** Parse and execute a command: the body of [parse_command] for a node
    that is not NULL. *)
Fixpoint parse_node (c : command_t) (level : Z) (father : option command_t)
    {struct c} : M Z :=
  let parse_command (c' : option command_t) (level : Z)
        (father : option command_t) : M Z :=
    match c' with
    | None => ret 0
    | Some c' => parse_node c' level father
    end in
  match op c with
  | OP_NONE => parse_simple (scmd c) level father
  | OP_SEQUENTIAL =>
      parse_command (cmd1 c) level father;;;
      parse_command (cmd2 c) level father;;;
      ret 0
  | OP_PARALLEL =>
      run_in_parallel parse_command (cmd1 c) (cmd2 c) level father;;;
      ret 0
  | OP_CONDITIONAL_NZERO => Conditional_NZero parse_command c level father
  | OP_CONDITIONAL_ZERO => Conditional_Zero parse_command c level father
  | OP_PIPE =>
      b <- run_on_pipe parse_command (cmd1 c) (cmd2 c) level father;;
      ret (int_of_bool b)
  | OP_DUMMY => ret SHELL_EXIT
  end.

(** Parse and execute a command. *)
Definition parse_command (c : option command_t) (level : Z)
    (father : option command_t) : M Z :=
  match c with
  | None => ret 0
  | Some c => parse_node c level father
  end.

End Shell.

(** ** Definitions used to state the properties *)

(** The Word Resolver as the specification describes it: the fragments in
    order, a variable reference replaced by the variable's value (nothing
    when it is not set), a literal taken verbatim. *)
Fixpoint resolve (E : gmap string string) (w : word_t) : string :=
  (if expand w then default "" (E !! word_string w) else word_string w)
  +:+ match next_part w with
      | Some w' => resolve E w'
      | None => ""
      end.

Definition resolve_opt (E : gmap string string) (w : option word_t) : string :=
  match w with
  | Some w => resolve E w
  | None => ""
  end.

(** The words of a parameter list. *)
Fixpoint words (param : word_t) : list word_t :=
  param :: match next_word param with
           | Some param' => words param'
           | None => []
           end.



Definition append_flags : Z := Z.lor (Z.lor O_WRONLY O_CREAT) O_APPEND.
Definition trunc_flags : Z := Z.lor (Z.lor O_WRONLY O_CREAT) O_TRUNC.

(** The calls of [open] a computation made, in order. *)
Definition opens_of {A} (m : M A) (p : proc) (w : world) : list (string * Z) :=
  drop (length (opened w)) (opened (world_of (m p w))).

(** "If the output and the error target resolve to the same path, both are
    opened in append mode": the calls of [open] that the redirection makes
    are the one for the input, if there is one, and then one with
    [O_APPEND] for the output and one with [O_APPEND] for the error file. *)
Definition same_target_both_append (O : os) (s : simple_command_t) (p : proc)
    (w : world) : Prop :=
  ∀ out err,
    red_out s = Some out → red_err s = Some err →
    resolve (env p) out = resolve (env p) err →
    opens_of (saveAllAndSwitch O s) p w
    = match red_in s with
      | Some i => [(resolve (env p) i, O_RDONLY)]
      | None => []
      end
      ++ [(resolve (env p) out, append_flags); (resolve (env p) err, append_flags)].

(** What is left of the process state after the conditionals' repeated
    [cd]. *)
Definition after_cd_again (O : os) (c : command_t) (p : proc) (w : world)
    : proc * world :=
  match cd_again O c p w with
  | Ret _ p' w' => (p', w')
  | Exit _ w' => (p, w')
  end.

(** "The right child is evaluated if and only if the left child's status
    passes the node's test; the returned status is the right child's when it
    ran and the left child's otherwise."  When the right child runs, the
    node's result is the right child's result; when it does not, the node
    returns the left child's status in the state the left child left. *)
Definition conditional_spec (O : os) (c : command_t) (level : Z)
    (father : option command_t) (p : proc) (w : world) : Prop :=
  ∀ status p1 w1,
    parse_command O (cmd1 c) level father p w = Ret status p1 w1 →
    let runs_right :=
      match op c with
      | OP_CONDITIONAL_ZERO => status =? 0
      | _ => negb (status =? 0)
      end in
    let '(p1', w1') := after_cd_again O c p1 w1 in
    parse_command O (Some c) level father p w
    = if runs_right then parse_command O (cmd2 c) level father p1' w1'
      else Ret status p1' w1'.

(** [wp m p w Q X]: started in [p] and [w], [m] either returns and [Q]
    holds of the value and the new state, or ends the process and [X] holds
    of the exit status and the world.  [runs] is the case where ending the
    process is excluded. *)
Definition wp {A} (m : M A) (p : proc) (w : world)
    (Q : A → proc → world → Prop) (X : Z → world → Prop) : Prop :=
  match m p w with
  | Ret a p' w' => Q a p' w'
  | Exit code w' => X code w'
  end.

Definition runs {A} (m : M A) (p : proc) (w : world)
    (Q : A → proc → world → Prop) : Prop :=
  wp m p w Q (fun _ _ => False).

(** Only the descriptor table of the process changed. *)
Definition same_env (p p' : proc) : Prop :=
  env p' = env p ∧ cwd p' = cwd p.

(** The world changed by the calls [l] of [open] and nothing else that
    concerns processes. *)
Definition logged (l : list (string * Z)) (w w' : world) : Prop :=
  opened w' = opened w ++ l
  ∧ zombies w' = zombies w ∧ next_pid w' = next_pid w ∧ diag w' = diag w.

(** The calls of [open] that [saveAllAndSwitch] makes for a command, in
    an environment. *)
Definition redirection_opens (s : simple_command_t) (E : gmap string string)
    : list (string * Z) :=
  match red_in s with
  | Some _ => [(resolve_opt E (red_in s), O_RDONLY)]
  | None => []
  end
  ++ match red_out s with
     | Some out =>
         [(resolve E out,
           if (io_flags s =? IO_OUT_APPEND)
              || match red_err s with
                 | Some err => strcmp0 (word_string out) (word_string err)
                 | None => false
                 end
           then append_flags else trunc_flags)]
     | None => []
     end
  ++ match red_err s with
     | Some err =>
         [(resolve E err,
           if io_flags s =? IO_ERR_APPEND then append_flags else trunc_flags)]
     | None => []
     end.

(** [waitpid(pid)] leaves no terminated child [pid] behind. *)
Definition reap (pid : Z) (w : world) : world :=
  set_zombies (delete pid (zombies w)) w.

(** The state a process is in when it ends after evaluating [body] and
    passing the result to [exit]: its exit status and the world. *)
Definition child_end (body : M Z) (p : proc) (w : world) : Z * world :=
  match body p w with
  | Ret status _ w' => (exit_status status, w')
  | Exit code w' => (code, w')
  end.

(** A child is created from [p], evaluates [body] and exits with the
    result: its process id and the world when it has terminated. *)
Definition spawn (body : M Z) (p : proc) (w : world) : Z * world :=
  let pid := Z.pos (next_pid w) in
  let '(code, w') := child_end body p (set_next_pid (Pos.succ (next_pid w)) w) in
  (pid, set_zombies (<[pid := W_EXITCODE code]> (zombies w')) w').

(** The words a parameter list resolves to. *)
Definition resolved_params (s : simple_command_t) (E : gmap string string)
    : list string :=
  match params s with
  | Some param => resolve E <$> words param
  | None => []
  end.

(** The capacities of the blocks that [getFile] and [getParameters]
    allocate.  A resolved word is built in 100 bytes, which have to hold the
    string and its terminating zero; [argv] has 10 slots, which have to hold
    the verb, the parameters and the terminating NULL.  The code writes to
    these blocks without a check; the conditions below say when it stays
    within them. *)
Definition WORD_SIZE : nat := 100.
Definition ARGV_SLOTS : nat := 10.

Definition fits (s : string) : bool := (String.length s <? WORD_SIZE)%nat.

(** The argument vector of a command fits [argv], and each parameter its
    block. *)
Definition argv_fits (s : simple_command_t) (E : gmap string string) : bool :=
  (length (resolved_params s E) + 2 <=? ARGV_SLOTS)%nat
  && forallb fits (resolved_params s E).

(** The redirection targets of a command fit the blocks of [getFile]. *)
Definition targets_fit (s : simple_command_t) (E : gmap string string) : bool :=
  forallb fits ((redirection_opens s E).*1).

(** No process id handed out in [w] is handed out again in [w']. *)
Definition pid_le (w w' : world) : Prop := (next_pid w ≤ next_pid w')%positive.

(** A computation that leaves [next_pid] where it was or higher, whether it
    returns or ends the process. *)
Definition grows {A} (m : M A) : Prop :=
  ∀ p w, wp m p w (fun _ _ w' => pid_le w w') (fun _ w' => pid_le w w').



(** ** A small machine to run the examples on *)

Module Demo.

Definition absolute (path : string) : bool :=
  match path with
  | String c _ => Ascii.eqb c (Ascii.ascii_of_nat 47)
  | EmptyString => false
  end.

Definition dirs : list string := ["/"; "/tmp"; "/tmp/a"; "/home/user"].

Definition chdir_to (cwd path : string) : option string :=
  let d := if absolute path then path
           else if bool_decide (cwd = "/") then "/" +:+ path
           else cwd +:+ "/" +:+ path in
  if bool_decide (d ∈ dirs) then Some d else None.

(** Three programs: [ok] exits with 0, [fail] with 1, [two] with 2; no
    other name can be executed. *)
Definition programs (file : string) (argv : list string) (p : proc) : option Z :=
  if bool_decide (file = "ok") then Some 0
  else if bool_decide (file = "fail") then Some 1
  else if bool_decide (file = "two") then Some 2
  else None.

(** [./name] is [name]. *)
Definition strip_dot (path : string) : string :=
  match path with
  | String a (String b rest) =>
      if Ascii.eqb a (Ascii.ascii_of_nat 46)
         && Ascii.eqb b (Ascii.ascii_of_nat 47)
      then rest else path
  | _ => path
  end.

(** Every name but the empty one can be opened; a file is named by its
    absolute path, so that [in.txt], [./in.txt] and [/in.txt] are one file
    in the root directory. *)
Definition file_of (cwd path : string) (flags : Z) : option string :=
  let name := strip_dot path in
  if bool_decide (name = "") then None
  else Some (if absolute name then name
             else if bool_decide (cwd = "/") then "/" +:+ name
             else cwd +:+ "/" +:+ name).

Definition machine : os :=
  {| os_chdir := chdir_to;
     os_exec := programs;
     os_fork_ok := fun _ => true;
     os_uninit := fun _ => 32767;
     os_file := file_of |}.

(** The same machine with room for two more processes only. *)
Definition crowded : os :=
  {| os_chdir := chdir_to;
     os_exec := programs;
     os_fork_ok := fun w => (next_pid w <? 102)%positive;
     os_uninit := fun _ => 32767;
     os_file := file_of |}.

Definition tty : ofile := mk_ofile "/dev/tty" 2.

Definition p0 : proc :=
  {| env := {[ "HOME" := "/home/user" ]};
     cwd := "/";
     fds := {[ 0 := tty; 1 := tty; 2 := tty ]} |}.

Definition w0 : world :=
  {| fs := {[ "/in.txt" := "some input" ]};
     zombies := ∅;
     next_pid := 100;
     opened := [];
     diag := [] |}.

Definition lit (s : string) : word_t := mk_word s false None None.
Definition var (s : string) : word_t := mk_word s true None None.

(** [l] followed by the fragments of [w]. *)
Definition lit_then (s : string) (w : word_t) : word_t :=
  mk_word s false (Some w) None.

Definition command (v : string) (param : option word_t) : simple_command_t :=
  {| verb := Some (lit v); params := param;
     red_in := None; red_out := None; red_err := None;
     io_flags := IO_REGULAR |}.

Definition leaf (s : simple_command_t) : command_t :=
  {| cmd1 := None; cmd2 := None; op := OP_NONE; scmd := Some s |}.

Definition run (v : string) : command_t := leaf (command v None).
Definition run1 (v a : string) : command_t := leaf (command v (Some (lit a))).

(** An operator node as the parser builds it. *)
Definition node (o : operator_t) (l r : command_t) : command_t :=
  {| cmd1 := Some l; cmd2 := Some r; op := o; scmd := None |}.

(** An operator node that also carries a simple command. *)
Definition node_with_scmd (o : operator_t) (l r : command_t) : command_t :=
  {| cmd1 := Some l; cmd2 := Some r; op := o; scmd := Some (command "x" None) |}.

(** [cd /tmp < in.txt > out.txt 2> err.txt] *)
Definition cd_redirected : simple_command_t :=
  {| verb := Some (lit "cd"); params := Some (lit "/tmp");
     red_in := Some (lit "in.txt"); red_out := Some (lit "out.txt");
     red_err := Some (lit "err.txt"); io_flags := IO_REGULAR |}.

(** [cmd > log 2> log], as for [cmd &> log] *)
Definition both_to_log : simple_command_t :=
  {| verb := Some (lit "ok"); params := None;
     red_in := None; red_out := Some (lit "log");
     red_err := Some (lit "log"); io_flags := IO_REGULAR |}.

(** [cmd > lo""g 2> log]: the same path, written in two fragments for the
    output. *)
Definition both_to_log_split : simple_command_t :=
  {| verb := Some (lit "ok"); params := None;
     red_in := None; red_out := Some (lit_then "lo" (lit "g"));
     red_err := Some (lit "log"); io_flags := IO_REGULAR |}.

(** [name=value] *)
Definition assign (name value : string) : simple_command_t :=
  {| verb := Some (mk_word name false
                     (Some (mk_word "=" false (Some (lit value)) None)) None);
     params := None; red_in := None; red_out := None; red_err := None;
     io_flags := IO_REGULAR |}.

(** A string of [n] letters. *)
Fixpoint letters (n : nat) : string :=
  match n with
  | O => EmptyString
  | S k => String (Ascii.ascii_of_nat 97) (letters k)
  end.

(** [FOO=bar$HOME] *)
Definition assign_foo : simple_command_t :=
  {| verb := Some (mk_word "FOO" false
                     (Some (mk_word "=" false
                              (Some (lit_then "bar" (var "HOME"))) None)) None);
     params := None; red_in := None; red_out := None; red_err := None;
     io_flags := IO_REGULAR |}.

End Demo.

(** ** Definitions for the further properties *)

(** The variables that the fragments of a word refer to. *)
Fixpoint word_vars (w : word_t) : list string :=
  (if expand w then [word_string w] else [])
  ++ match next_part w with
     | Some w' => word_vars w'
     | None => []
     end.

(** The diagnostic of the child of [parse_simple] when [execvp] fails. *)
Definition execution_failed (v : word_t) : string :=
  "Execution failed for '" +:+ word_string v +:+ "'" +:+ nl.

(** How the child of [parse_simple] ends once the redirection is in place
    (the child is then in [p1] and the world is [w1]): its exit status and
    the world it leaves. *)
Definition simple_child_end (O : os) (s : simple_command_t) (v : word_t)
    (p1 : proc) (w1 : world) : Z * world :=
  if strcmp0 (word_string v) "cd" then (0, w1)
  else
    match os_exec O (word_string v)
            (word_string v :: resolved_params s (env p1)) p1 with
    | Some c => (exit_status c, w1)
    | None => (1, add_diag (execution_failed v) w1)
    end.


(** Every open descriptor of the process is a number from 0 up to, and not
    including, [n]. *)
Definition fds_within (n : Z) (p : proc) : Prop :=
  ∀ fd, is_Some (fds p !! fd) → 0 ≤ fd < n.

(** The file that [open(path, flags)] opens, in a process whose working
    directory is [dir] and which has a free descriptor, when the files are
    [f]: [path] has to name a file that can be opened, and without [O_CREAT]
    the file has to exist. *)
Definition opened_file (O : os) (dir path : string) (flags : Z)
    (f : gmap string string) : option string :=
  match os_file O dir path flags with
  | Some file =>
      if bool_decide (is_Some (f !! file)) || Z.testbit flags 6
      then Some file else None
  | None => None
  end.

(** The regular files after such a call: a file that is opened with
    [O_TRUNC] is empty, one that is created is empty, and a failed call
    changes nothing. *)
Definition fs_after_open (O : os) (dir : string) (o : string * Z)
    (f : gmap string string) : gmap string string :=
  match opened_file O dir o.1 o.2 f with
  | Some file => <[file := if Z.testbit o.2 9 then "" else default "" (f !! file)]> f
  | None => f
  end.

Definition fs_after_opens (O : os) (dir : string) (l : list (string * Z))
    (f : gmap string string) : gmap string string :=
  foldl (fun f o => fs_after_open O dir o f) f l.

(** What a stream that was on [orig] is on after the three calls that
    redirect it to [path]: the file, if [open] succeeded, and [orig] if it
    failed, since [dup2] then fails as well. *)
Definition stream_on (O : os) (dir path : string) (flags : Z)
    (f : gmap string string) (orig : ofile) : ofile :=
  match opened_file O dir path flags f with
  | Some file => mk_ofile file flags
  | None => orig
  end.

(** The flags with which [saveAllAndSwitch] opens the output file. *)
Definition output_flags (s : simple_command_t) : Z :=
  if (io_flags s =? IO_OUT_APPEND)
     || match red_out s, red_err s with
        | Some out, Some err => strcmp0 (word_string out) (word_string err)
        | _, _ => false
        end
  then append_flags else trunc_flags.

(** The flags with which [saveAllAndSwitch] opens the error file. *)
Definition error_flags (s : simple_command_t) : Z :=
  if io_flags s =? IO_ERR_APPEND then append_flags else trunc_flags.

(** One standard stream after [saveAllAndSwitch], which took the process
    from [p] to [p']: when the stream is redirected, [saved] is a descriptor
    that was free and now holds what the stream was on, [fd] is -1 or a
    descriptor that was free, and the stream is on [now]; when it is not,
    the stream is where it was and [saved] and [fd] are what the
    uninitialised variables held. *)
Definition stream_state (target : option word_t) (std : Z) (orig now : ofile)
    (saved fd g_saved g_fd : Z) (p p' : proc) : Prop :=
  match target with
  | Some _ =>
      fds p !! saved = None ∧ fds p' !! saved = Some orig
      ∧ (fd = -1 ∨ fds p !! fd = None)
      ∧ fds p' !! std = Some now
  | None => saved = g_saved ∧ fd = g_fd ∧ fds p' !! std = Some orig
  end.

(** The descriptor table after [saveAllAndSwitch], which took the process
    from [p], with the standard streams on [f0], [f1] and [f2], to [p'] and
    returned [saved]. *)
Definition switched (O : os) (s : simple_command_t) (f0 f1 f2 : ofile)
    (p : proc) (w : world) (saved : list Z) (p' : proc) : Prop :=
  stream_state (red_in s) STDIN_FILENO f0
    (stream_on O (cwd p) (resolve_opt (env p) (red_in s)) O_RDONLY (fs w) f0)
    (at_index saved 0) (at_index saved 3)
    (os_uninit O "saved_stdin") (os_uninit O "fd_in") p p'
  ∧ stream_state (red_out s) STDOUT_FILENO f1
      (stream_on O (cwd p) (resolve_opt (env p) (red_out s)) (output_flags s)
         (fs w) f1)
      (at_index saved 1) (at_index saved 4)
      (os_uninit O "saved_stdout") (os_uninit O "fd_out") p p'
  ∧ stream_state (red_err s) STDERR_FILENO f2
      (stream_on O (cwd p) (resolve_opt (env p) (red_err s)) (error_flags s)
         (fs w) f2)
      (at_index saved 2) (at_index saved 5)
      (os_uninit O "saved_stderr") (os_uninit O "fd_err") p p'
  ∧ ∀ k, k ≠ STDIN_FILENO → k ≠ STDOUT_FILENO → k ≠ STDERR_FILENO →
         is_Some (fds p !! k) → fds p' !! k = fds p !! k.

(** From [w] to [w'] no terminated process was left behind: the processes
    that are terminated and not waited for in [w'] were so in [w], with the
    same status, and none of [D] is among them. *)
Definition waited (D : list Z) (w w' : world) : Prop :=
  ∀ pid st,
    zombies w' !! pid = Some st → zombies w !! pid = Some st ∧ (pid ∉ D).

(** A computation that leaves no terminated process behind, and none of
    [D], whether it returns or ends the process. *)
Definition settles {A} (D : list Z) (m : M A) : Prop :=
  ∀ p w, wp m p w (fun _ _ w' => waited D w w') (fun _ w' => waited D w w').

(** A computation that, in a process whose open descriptors are all below
    [n], returns with the descriptor table as it found it. *)
Definition keeps_fds {A} (n : Z) (m : M A) : Prop :=
  ∀ p w,
    fds_within n p → wp m p w (fun _ p' _ => fds p' = fds p) (fun _ _ => True).


(** The simple commands of a command tree: the one of the node, if it
    carries one, and those of its children. *)
Fixpoint scmds (c : command_t) : list simple_command_t :=
  match scmd c with Some s => [s] | None => [] end
  ++ match cmd1 c with Some c1 => scmds c1 | None => [] end
  ++ match cmd2 c with Some c2 => scmds c2 | None => [] end.

(** A computation that returns with the component [f] of the process as it
    found it. *)
Definition keeps {A X} (f : proc → X) (m : M A) : Prop :=
  ∀ p w, wp m p w (fun _ p' _ => f p' = f p) (fun _ _ => True).

Definition not_assignment (s : simple_command_t) : Prop :=
  ∀ v, verb s = Some v → is_assignment v = false.

Definition not_cd (s : simple_command_t) : Prop :=
  ∀ v, verb s = Some v → word_string v ≠ "cd".

(** ** Properties *)

(** *** Strings and words *)

Lemma append_assoc (a b c : string) : (a +:+ b) +:+ c = a +:+ (b +:+ c).
Proof.
  induction a as [|x a IH]; [done|].
  change (String x ((a +:+ b) +:+ c) = String x (a +:+ (b +:+ c))).
  by rewrite IH.
Qed.

Lemma append_empty_r (a : string) : a +:+ "" = a.
Proof.
  induction a as [|x a IH]; [done|].
  change (String x (a +:+ "") = String x a).
  by rewrite IH.
Qed.

(** Induction along [next_part]. *)
Lemma word_parts_ind (P : word_t → Prop) :
  (∀ s e nw, P (mk_word s e None nw)) →
  (∀ s e w' nw, P w' → P (mk_word s e (Some w') nw)) →
  ∀ w, P w.
Proof.
  intros Hlast Hmore. fix IH 1. intros [s e [w'|] nw].
  - apply Hmore, IH.
  - apply Hlast.
Qed.

(** Induction along [next_word]. *)
Lemma word_list_ind (P : word_t → Prop) :
  (∀ s e np, P (mk_word s e np None)) →
  (∀ s e np w', P w' → P (mk_word s e np (Some w'))) →
  ∀ w, P w.
Proof.
  intros Hlast Hmore. fix IH 1. intros [s e np [w'|]].
  - apply Hmore, IH.
  - apply Hlast.
Qed.

Lemma strcmp0_true (a b : string) : strcmp0 a b = true ↔ a = b.
Proof. unfold strcmp0. apply bool_decide_eq_true. Qed.

Lemma strcmp0_refl (a : string) : strcmp0 a a = true.
Proof. by apply strcmp0_true. Qed.

Lemma strcmp0_false (a b : string) : a ≠ b → strcmp0 a b = false.
Proof. intros H. unfold strcmp0. by apply bool_decide_eq_false. Qed.

(** The loop of [getFile] computes the Word Resolver's string and leaves
    the process and the world as they were. *)
Lemma strcat_parts_resolve (w : word_t) :
  ∀ buf p wd, strcat_parts buf w p wd = Ret (buf +:+ resolve (env p) w) p wd.
Proof.
  induction w as [s e nw | s e w' nw IH] using word_parts_ind; intros buf p wd.
  - simpl. unfold bind, getenv, ret, strcat. simpl.
    destruct e; [destruct (env p !! s)|]; simpl; by rewrite !append_empty_r.
  - simpl. unfold bind, getenv, ret, strcat. simpl.
    destruct e; [destruct (env p !! s)|]; simpl;
      rewrite IH; by rewrite ?append_assoc, ?append_empty_r.
Qed.

Lemma getFile_resolve (w : option word_t) p wd :
  getFile w p wd = Ret (resolve_opt (env p) w) p wd.
Proof.
  destruct w as [w|]; simpl; [|done].
  by rewrite strcat_parts_resolve.
Qed.

Lemma getParameters_loop_unfold (param : word_t) :
  getParameters_loop param
  = (value <- strcat_parts "" param;;
     match next_word param with
     | None => ret [value]
     | Some param' => rest <- getParameters_loop param';; ret (value :: rest)
     end).
Proof. by destruct param. Qed.

Lemma getParameters_loop_resolve (param : word_t) :
  ∀ p wd,
    getParameters_loop param p wd = Ret (resolve (env p) <$> words param) p wd.
Proof.
  induction param as [s e np | s e np w' IH] using word_list_ind; intros p wd;
    rewrite getParameters_loop_unfold; unfold bind;
    rewrite strcat_parts_resolve; cbn [next_word].
  - done.
  - by rewrite IH.
Qed.

Lemma getParameters_resolve (s : simple_command_t) (v : word_t) p wd :
  verb s = Some v →
  getParameters s p wd
  = Ret (word_string v
         :: match params s with
            | Some param => resolve (env p) <$> words param
            | None => []
            end) p wd.
Proof.
  intros Hv. unfold getParameters. rewrite Hv.
  destruct (params s) as [param|]; [|done].
  unfold bind. by rewrite getParameters_loop_resolve.
Qed.

(** *** Computations *)

Lemma bind_Ret {A B} (m : M A) (k : A → M B) p w a p' w' :
  m p w = Ret a p' w' → bind m k p w = k a p' w'.
Proof. unfold bind. by intros ->. Qed.

Lemma bind_Exit {A B} (m : M A) (k : A → M B) p w code w' :
  m p w = Exit code w' → bind m k p w = Exit code w'.
Proof. unfold bind. by intros ->. Qed.

Lemma bind_assoc {A B C} (m : M A) (k : A → M B) (h : B → M C) p w :
  bind (bind m k) h p w = bind m (fun a => bind (k a) h) p w.
Proof. unfold bind. by destruct (m p w). Qed.

Lemma wp_ret {A} (a : A) p w Q X : Q a p w → wp (ret a) p w Q X.
Proof. done. Qed.

Lemma wp_bind {A B} (m : M A) (k : A → M B) p w Q X :
  wp m p w (fun a p' w' => wp (k a) p' w' Q X) X → wp (bind m k) p w Q X.
Proof. unfold wp, bind. by destruct (m p w). Qed.

Lemma wp_mono {A} (m : M A) p w (Q Q' : A → proc → world → Prop)
    (X X' : Z → world → Prop) :
  wp m p w Q X →
  (∀ a p' w', Q a p' w' → Q' a p' w') →
  (∀ code w', X code w' → X' code w') →
  wp m p w Q' X'.
Proof. unfold wp. destruct (m p w); auto. Qed.

Lemma runs_wp {A} (m : M A) p w (Q Q' : A → proc → world → Prop) X :
  runs m p w Q → (∀ a p' w', Q a p' w' → Q' a p' w') → wp m p w Q' X.
Proof. intros H HQ. eapply wp_mono; [exact H | exact HQ | done]. Qed.

Lemma runs_ret {A} (a : A) p w Q : Q a p w → runs (ret a) p w Q.
Proof. done. Qed.

Lemma runs_bind {A B} (m : M A) (k : A → M B) p w Q :
  runs m p w (fun a p' w' => runs (k a) p' w' Q) → runs (bind m k) p w Q.
Proof. apply wp_bind. Qed.

Lemma runs_mono {A} (m : M A) p w (Q Q' : A → proc → world → Prop) :
  runs m p w Q → (∀ a p' w', Q a p' w' → Q' a p' w') → runs m p w Q'.
Proof. intros H HQ. by eapply runs_wp. Qed.

Lemma runs_Ret {A} (m : M A) p w Q :
  runs m p w Q ↔ ∃ a p' w', m p w = Ret a p' w' ∧ Q a p' w'.
Proof.
  unfold runs, wp. destruct (m p w) as [a p' w'|code w'].
  - split; [eauto 6 | by intros (? & ? & ? & [= -> -> ->] & ?)].
  - split; [done | by intros (? & ? & ? & ? & ?)].
Qed.

(** *** What the system calls do *)

Lemma same_env_refl p : same_env p p.
Proof. done. Qed.

Lemma same_env_trans p1 p2 p3 : same_env p1 p2 → same_env p2 p3 → same_env p1 p3.
Proof. unfold same_env. intros [] []. split; congruence. Qed.

Lemma logged_nil w : logged [] w w.
Proof. unfold logged. by rewrite app_nil_r. Qed.

Lemma logged_trans l1 l2 w1 w2 w3 :
  logged l1 w1 w2 → logged l2 w2 w3 → logged (l1 ++ l2) w1 w3.
Proof.
  unfold logged. intros (Ho1 & ? & ? & ?) (Ho2 & ? & ? & ?).
  rewrite Ho2, Ho1, app_assoc. repeat split; congruence.
Qed.

Lemma runs_dup fd p w :
  runs (dup fd) p w (fun _ p' w' => same_env p p' ∧ w' = w).
Proof.
  unfold runs, wp, dup.
  destruct (fds p !! fd); [destruct (lowest_fd (fds p))|]; done.
Qed.

Lemma runs_dup2 oldfd newfd p w :
  runs (dup2 oldfd newfd) p w (fun _ p' w' => same_env p p' ∧ w' = w).
Proof.
  unfold runs, wp, dup2.
  destruct (fds p !! oldfd); [case_bool_decide|]; done.
Qed.

Lemma runs_close fd p w :
  runs (close fd) p w (fun _ p' w' => same_env p p' ∧ w' = w).
Proof. unfold runs, wp, close. by destruct (fds p !! fd). Qed.


Lemma runs_open (O : os) path flags mode p w :
  runs (open O path flags mode) p w
    (fun _ p' w' => same_env p p' ∧ logged [(path, flags)] w w').
Proof.
  unfold runs, wp, open. cbv zeta.
  destruct (os_file O (cwd p) path flags) as [file|]; [|done].
  destruct (fs (add_opened path flags w) !! file);
    destruct (Z.testbit flags 6); destruct (lowest_fd (fds p)); done.
Qed.

Lemma runs_getFile target p w :
  runs (getFile target) p w
    (fun file p' w' => file = resolve_opt (env p) target ∧ p' = p ∧ w' = w).
Proof. unfold runs, wp. by rewrite getFile_resolve. Qed.

Lemma runs_shell_cd (O : os) (dir : option word_t) p w :
  runs (shell_cd O dir) p w
    (fun _ p' w' => env p' = env p ∧ fds p' = fds p ∧ w' = w).
Proof.
  unfold runs, wp, shell_cd, bind, getenv, chdir.
  destruct dir as [d|].
  - by destruct (os_chdir O (cwd p) (word_string d)).
  - destruct (env p !! "HOME") as [home|]; [|done].
    by destruct (os_chdir O (cwd p) home).
Qed.

Lemma first_free_free (t : gmap Z ofile) (fuel : nat) :
  ∀ fd x, first_free t fuel fd = Some x → t !! x = None.
Proof.
  induction fuel as [|fuel IH]; intros fd x; simpl; [done|].
  destruct (t !! fd) eqn:Hfd; [apply IH|]. by intros [= <-].
Qed.

Lemma lowest_fd_free (t : gmap Z ofile) (fd : Z) :
  lowest_fd t = Some fd → t !! fd = None.
Proof. apply first_free_free. Qed.

(** A pipe made and both its ends closed again: the descriptor table is what
    it was. *)
Lemma pipe_ends_closed (pipefd : list Z) p w :
  is_Some (lowest_fd (fds p)) →
  (∀ r f, lowest_fd (fds p) = Some r → is_Some (lowest_fd (<[r := f]> (fds p)))) →
  ∃ fd pp,
    pipe pipefd p w = Ret fd pp w
    ∧ proc_of ((close (at_index fd READ);;; close (at_index fd WRITE)) pp w)
      = Some p.
Proof.
  intros [r Hr] Hsecond.
  destruct (Hsecond r (mk_ofile "pipe:[r]" O_RDONLY) Hr) as [wr Hwr].
  pose proof (lowest_fd_free _ _ Hr) as Hr_free.
  pose proof (lowest_fd_free _ _ Hwr) as Hwr_free.
  assert (r ≠ wr) as Hne by (intros ->; by rewrite lookup_insert_eq in Hwr_free).
  rewrite lookup_insert_ne in Hwr_free by done.
  unfold pipe. rewrite Hr, Hwr. eexists _, _. split; [done|].
  unfold bind, close, at_index. simpl.
  rewrite lookup_insert_ne, lookup_insert_eq by done. simpl.
  rewrite lookup_delete_ne, lookup_insert_eq by done. simpl.
  f_equal. destruct p as [e d t]. unfold set_fds. simpl in *. f_equal.
  rewrite delete_insert_ne by done.
  rewrite (delete_insert_id t r) by done.
  by apply delete_insert_id.
Qed.

Lemma fork_spawn {A} (O : os) (body : M Z) (parent : Z → M A) (failed : M A)
    p w :
  os_fork_ok O w = true →
  fork O (status <- body;; shell_exit status) parent failed p w
  = parent (spawn body p w).1 p (spawn body p w).2.
Proof.
  intros Hok. unfold fork, spawn, child_end, bind, shell_exit, exit.
  rewrite Hok.
  by destruct (body p (set_next_pid (Pos.succ (next_pid w)) w)).
Qed.


Lemma waitpid_reap (pid status : Z) p w :
  ∃ status', waitpid pid status p w = Ret status' p (reap pid w).
Proof.
  unfold waitpid, reap. destruct (zombies w !! pid) as [st|] eqn:Hz.
  - by exists st.
  - exists status. rewrite delete_id by done. by destruct w.
Qed.

Lemma reap_lookup (pid : Z) w : zombies (reap pid w) !! pid = None.
Proof. apply lookup_delete_eq. Qed.

Lemma reap_lookup_reap (pid pid' : Z) w :
  zombies (reap pid' (reap pid w)) !! pid = None.
Proof.
  simpl. destruct (decide (pid' = pid)) as [->|Hne].
  - apply lookup_delete_eq.
  - rewrite lookup_delete_ne by done. apply lookup_delete_eq.
Qed.

Lemma spawn_pid (body : M Z) p w : (spawn body p w).1 = Z.pos (next_pid w).
Proof. unfold spawn. by destruct (child_end _ _ _). Qed.

(** The terminated child is there to be waited for, with its exit status
    in bits 8 to 15 of the termination status. *)
Lemma spawn_zombie (body : M Z) p w :
  zombies (spawn body p w).2 !! (spawn body p w).1
  = Some (W_EXITCODE
            (child_end body p (set_next_pid (Pos.succ (next_pid w)) w)).1).
Proof.
  unfold spawn. destruct (child_end _ _ _) as [code w']. simpl.
  apply lookup_insert_eq.
Qed.


(** *** Redirection *)

(** The three steps that follow each [dup] in [saveAllAndSwitch]. *)
Lemma runs_redirect (O : os) (saved std : Z) target flags mode p w :
  runs (file <- getFile target;;
        fd <- open O file flags mode;;
        dup2 fd std;;;
        ret (saved, fd)) p w
    (fun _ p' w' =>
       same_env p p' ∧ logged [(resolve_opt (env p) target, flags)] w w').
Proof.
  apply runs_bind. eapply runs_mono; [apply runs_getFile|].
  intros file ? ? (-> & -> & ->).
  apply runs_bind. eapply runs_mono; [apply runs_open|].
  intros fd p1 w1 [Hp1 Hw1].
  apply runs_bind. eapply runs_mono; [apply runs_dup2|].
  intros ? p2 ? [Hp2 ->].
  apply runs_ret. split; [by eapply same_env_trans | done].
Qed.

(** [saveAllAndSwitch] always returns; it changes the descriptor table, and
    the world through its calls of [open]. *)
Lemma runs_saveAllAndSwitch (O : os) (s : simple_command_t) p w :
  runs (saveAllAndSwitch O s) p w
    (fun _ p' w' =>
       same_env p p' ∧ logged (redirection_opens s (env p)) w w').
Proof.
  unfold saveAllAndSwitch, redirection_opens.
  apply runs_bind.
  eapply runs_mono with
    (Q := fun _ p1 w1 =>
            same_env p p1
            ∧ logged (match red_in s with
                      | Some _ => [(resolve_opt (env p) (red_in s), O_RDONLY)]
                      | None => []
                      end) w w1).
  { destruct (red_in s) as [i|].
    - apply runs_bind. eapply runs_mono; [apply runs_dup|].
      intros saved p1 ? [Hp1 ->].
      eapply runs_mono; [apply runs_redirect|].
      intros ? p2 w2 [Hp2 Hw2]. pose proof Hp1 as [He1 _].
      rewrite He1 in Hw2. split; [by eapply same_env_trans | done].
    - apply runs_ret. split; [done | apply logged_nil]. }
  intros [saved_stdin fd_in] p1 w1 [Hp1 Hw1].
  apply runs_bind.
  eapply runs_mono with
    (Q := fun _ p2 w2 =>
            same_env p1 p2
            ∧ logged (match red_out s with
                      | Some out =>
                          [(resolve (env p) out,
                            if (io_flags s =? IO_OUT_APPEND)
                               || match red_err s with
                                  | Some err =>
                                      strcmp0 (word_string out) (word_string err)
                                  | None => false
                                  end
                            then append_flags else trunc_flags)]
                      | None => []
                      end) w1 w2).
  { destruct (red_out s) as [out|].
    - apply runs_bind. eapply runs_mono; [apply runs_dup|].
      intros saved pa ? [Hpa ->].
      assert (env pa = env p) as He
        by (destruct Hpa as [-> _]; by destruct Hp1).
      destruct ((io_flags s =? IO_OUT_APPEND) || _);
        (eapply runs_mono; [apply runs_redirect|]);
        intros ? pb wb [Hpb Hwb]; simpl in Hwb; rewrite He in Hwb;
        (split; [by eapply same_env_trans | done]).
    - apply runs_ret. split; [done | apply logged_nil]. }
  intros [saved_stdout fd_out] p2 w2 [Hp2 Hw2].
  apply runs_bind.
  eapply runs_mono with
    (Q := fun _ p3 w3 =>
            same_env p2 p3
            ∧ logged (match red_err s with
                      | Some err =>
                          [(resolve (env p) err,
                            if io_flags s =? IO_ERR_APPEND
                            then append_flags else trunc_flags)]
                      | None => []
                      end) w2 w3).
  { destruct (red_err s) as [err|].
    - apply runs_bind. eapply runs_mono; [apply runs_dup|].
      intros saved pa ? [Hpa ->].
      assert (env pa = env p) as He.
      { destruct Hpa as [-> _]. destruct Hp2 as [-> _]. by destruct Hp1. }
      destruct (io_flags s =? IO_ERR_APPEND);
        (eapply runs_mono; [apply runs_redirect|]);
        intros ? pb wb [Hpb Hwb]; simpl in Hwb; rewrite He in Hwb;
        (split; [by eapply same_env_trans | done]).
    - apply runs_ret. split; [done | apply logged_nil]. }
  intros [saved_stderr fd_err] p3 w3 [Hp3 Hw3].
  apply runs_ret. split.
  - eauto using same_env_trans.
  - eauto using logged_trans.
Qed.

Lemma opens_of_saveAllAndSwitch (O : os) (s : simple_command_t) p w :
  opens_of (saveAllAndSwitch O s) p w = redirection_opens s (env p).
Proof.
  destruct (proj1 (runs_Ret _ _ _ _) (runs_saveAllAndSwitch O s p w))
    as (saved & p' & w' & Heq & _ & Hlog & _).
  unfold opens_of. rewrite Heq. simpl. rewrite Hlog.
  apply drop_app_length.
Qed.

Lemma runs_switchAndClose (saved : list Z) (s : simple_command_t) p w :
  runs (switchAndClose saved s) p w (fun _ p' w' => same_env p p' ∧ w' = w).
Proof.
  unfold switchAndClose.
  apply runs_bind.
  eapply runs_mono with (Q := fun _ p' w' => same_env p p' ∧ w' = w);
    [destruct (red_in s); [apply runs_dup2 | by apply runs_ret]|].
  intros ? p1 ? [Hp1 ->].
  apply runs_bind.
  eapply runs_mono with (Q := fun _ p' w' => same_env p1 p' ∧ w' = w);
    [destruct (red_out s); [apply runs_dup2 | by apply runs_ret]|].
  intros ? p2 ? [Hp2 ->].
  apply runs_bind.
  eapply runs_mono with (Q := fun _ p' w' => same_env p2 p' ∧ w' = w);
    [destruct (red_err s); [apply runs_dup2 | by apply runs_ret]|].
  intros ? p3 ? [Hp3 ->].
  apply runs_bind. eapply runs_mono; [apply runs_close|]. intros ? p4 ? [Hp4 ->].
  apply runs_bind. eapply runs_mono; [apply runs_close|]. intros ? p5 ? [Hp5 ->].
  apply runs_bind. eapply runs_mono; [apply runs_close|]. intros ? p6 ? [Hp6 ->].
  apply runs_ret. split; [|done].
  unfold same_env in *. destruct_and!. split; congruence.
Qed.

(** A descriptor that is not a standard stream and is not among [saved[3]],
    [saved[4]], [saved[5]] is as it was after [switchAndClose]: in
    particular the duplicates [saved[0]], [saved[1]], [saved[2]] made by
    [saveAllAndSwitch] are never closed. *)
Lemma switchAndClose_leaves_open (saved : list Z) (s : simple_command_t)
    (fd : Z) p w :
  fd ∉ [STDIN_FILENO; STDOUT_FILENO; STDERR_FILENO] →
  fd ∉ [at_index saved 3; at_index saved 4; at_index saved 5] →
  runs (switchAndClose saved s) p w (fun _ p' _ => fds p' !! fd = fds p !! fd).
Proof.
  rewrite !not_elem_of_cons. intros (H0 & H1 & H2 & _) (H3 & H4 & H5 & _).
  assert (∀ oldfd newfd q wq, fd ≠ newfd →
            runs (dup2 oldfd newfd) q wq
              (fun _ q' _ => fds q' !! fd = fds q !! fd)) as Hdup2.
  { intros oldfd newfd q wq Hne. unfold runs, wp, dup2.
    destruct (fds q !! oldfd); [case_bool_decide|]; simpl; [|done..].
    by rewrite lookup_insert_ne. }
  assert (∀ cfd q wq, fd ≠ cfd →
            runs (close cfd) q wq
              (fun _ q' _ => fds q' !! fd = fds q !! fd)) as Hclose.
  { intros cfd q wq Hne. unfold runs, wp, close.
    destruct (fds q !! cfd); simpl; [|done].
    by rewrite lookup_delete_ne. }
  unfold switchAndClose.
  apply runs_bind.
  eapply runs_mono with (Q := fun _ q _ => fds q !! fd = fds p !! fd);
    [destruct (red_in s); [by apply Hdup2 | by apply runs_ret]|].
  intros ? p1 w1 E1. apply runs_bind.
  eapply runs_mono with (Q := fun _ q _ => fds q !! fd = fds p1 !! fd);
    [destruct (red_out s); [by apply Hdup2 | by apply runs_ret]|].
  intros ? p2 w2 E2. apply runs_bind.
  eapply runs_mono with (Q := fun _ q _ => fds q !! fd = fds p2 !! fd);
    [destruct (red_err s); [by apply Hdup2 | by apply runs_ret]|].
  intros ? p3 w3 E3.
  apply runs_bind. eapply runs_mono; [by apply Hclose|]. intros ? p4 w4 E4.
  apply runs_bind. eapply runs_mono; [by apply Hclose|]. intros ? p5 w5 E5.
  apply runs_bind. eapply runs_mono; [by apply Hclose|]. intros ? p6 w6 E6.
  apply runs_ret. simpl in *. congruence.
Qed.

(** *** Simple commands *)

(** The statements of the child of [parse_simple] from the redirection on,
    for a verb other than "cd": the process ends with the program's exit
    status, or with 1 when the program cannot be executed. *)
Lemma external_child_exits (O : os) (s : simple_command_t) (v : word_t)
    (argv : list string) p w :
  strcmp0 (word_string v) "cd" = false →
  ∃ p1 w1,
    same_env p p1
    ∧ next_pid w1 = next_pid w ∧ zombies w1 = zombies w
    ∧ (saved <- saveAllAndSwitch O s;;
       (if strcmp0 (word_string v) "cd" then shell_cd O (params s);;; ret tt
        else
          r <- execvp O (word_string v) argv;;
          if r =? -1 then
            printf ("Execution failed for '" +:+ word_string v +:+ "'" +:+ nl);;;
            shell_exit 1
          else ret tt);;;
       switchAndClose saved s) p w
      = Exit match os_exec O (word_string v) argv p1 with
             | Some code => exit_status code
             | None => 1
             end w1.
Proof.
  intros Hcd. rewrite Hcd.
  destruct (proj1 (runs_Ret _ _ _ _) (runs_saveAllAndSwitch O s p w))
    as (saved & p1 & w1 & Hsave & Hp1 & _ & Hz & Hn & _).
  rewrite (bind_Ret _ _ _ _ _ _ _ Hsave).
  destruct (os_exec O (word_string v) argv p1) as [code|] eqn:Hexec.
  - exists p1, w1. split_and!; [done..|].
    unfold bind, execvp. by rewrite Hexec.
  - exists p1, (add_diag ("Execution failed for '" +:+ word_string v +:+ "'" +:+ nl) w1).
    split_and!; [done..|].
    unfold bind, execvp. by rewrite Hexec.
Qed.

(** The same statements for the verb "cd": they return. *)
Lemma cd_child_returns (O : os) (s : simple_command_t) (v : word_t)
    (argv : list string) p w :
  strcmp0 (word_string v) "cd" = true →
  ∃ p1 w1,
    next_pid w1 = next_pid w ∧ zombies w1 = zombies w
    ∧ (saved <- saveAllAndSwitch O s;;
       (if strcmp0 (word_string v) "cd" then shell_cd O (params s);;; ret tt
        else
          r <- execvp O (word_string v) argv;;
          if r =? -1 then
            printf ("Execution failed for '" +:+ word_string v +:+ "'" +:+ nl);;;
            shell_exit 1
          else ret tt);;;
       switchAndClose saved s) p w
      = Ret tt p1 w1.
Proof.
  intros Hcd. rewrite Hcd.
  destruct (proj1 (runs_Ret _ _ _ _) (runs_saveAllAndSwitch O s p w))
    as (saved & p1 & w1 & Hsave & Hp1 & _ & Hz & Hn & _).
  rewrite (bind_Ret _ _ _ _ _ _ _ Hsave).
  destruct (proj1 (runs_Ret _ _ _ _) (runs_shell_cd O (params s) p1 w1))
    as (b & p2 & w2 & Hcd' & _ & _ & ->).
  destruct (proj1 (runs_Ret _ _ _ _) (runs_switchAndClose saved s p2 w1))
    as ([] & p3 & w3 & Hsw & _ & ->).
  exists p3, w1. split; [done|]. split; [done|].
  unfold bind at 1. unfold bind at 1. rewrite Hcd'. simpl. exact Hsw.
Qed.

(** The child of [parse_simple], whole. *)
Lemma parse_simple_child (O : os) (s : simple_command_t) (v : word_t) p w :
  verb s = Some v →
  ∃ code w1,
    next_pid w1 = next_pid w ∧ zombies w1 = zombies w
    ∧ (strcmp0 (word_string v) "cd" = true → code = 0)
    ∧ (strcmp0 (word_string v) "cd" = false →
       ∃ p1, same_env p p1
             ∧ code = match os_exec O (word_string v)
                              (word_string v :: resolved_params s (env p)) p1 with
                      | Some c => exit_status c
                      | None => 1
                      end)
    ∧ (match params s with
       | Some _ =>
           argv <- getParameters s;;
           saved <- saveAllAndSwitch O s;;
           (if strcmp0 (word_string v) "cd" then shell_cd O (params s);;; ret tt
            else
              r <- execvp O (word_string v) argv;;
              if r =? -1 then
                printf ("Execution failed for '" +:+ word_string v +:+ "'" +:+ nl);;;
                shell_exit 1
              else ret tt);;;
           switchAndClose saved s
       | None =>
           saved <- saveAllAndSwitch O s;;
           (if strcmp0 (word_string v) "cd" then shell_cd O (params s);;; ret tt
            else
              r <- execvp O (word_string v) [word_string v];;
              if r =? -1 then
                printf ("Execution failed for '" +:+ word_string v +:+ "'" +:+ nl);;;
                shell_exit 1
              else ret tt);;;
           switchAndClose saved s
       end;;;
       shell_exit 0) p w
      = (Exit code w1 : result Empty_set).
Proof.
  intros Hv.
  set (argv := word_string v :: resolved_params s (env p)).
  assert (∃ code w1,
    next_pid w1 = next_pid w ∧ zombies w1 = zombies w
    ∧ (strcmp0 (word_string v) "cd" = true → code = 0)
    ∧ (strcmp0 (word_string v) "cd" = false →
       ∃ p1, same_env p p1
             ∧ code = match os_exec O (word_string v) argv p1 with
                      | Some c => exit_status c
                      | None => 1
                      end)
    ∧ ((saved <- saveAllAndSwitch O s;;
        (if strcmp0 (word_string v) "cd" then shell_cd O (params s);;; ret tt
         else
           r <- execvp O (word_string v) argv;;
           if r =? -1 then
             printf ("Execution failed for '" +:+ word_string v +:+ "'" +:+ nl);;;
             shell_exit 1
           else ret tt);;;
        switchAndClose saved s);;;
       shell_exit 0) p w
      = (Exit code w1 : result Empty_set)) as (code & w1 & Hn & Hz & Hc1 & Hc2 & Heq).
  { destruct (strcmp0 (word_string v) "cd") eqn:Hcd.
    - destruct (cd_child_returns O s v argv p w Hcd) as (p1 & w1 & Hn & Hz & Heq).
      rewrite Hcd in Heq.
      exists 0, w1. split_and!; [done..|].
      by rewrite (bind_Ret _ _ _ _ _ _ _ Heq).
    - destruct (external_child_exits O s v argv p w Hcd)
        as (p1 & w1 & Hp1 & Hn & Hz & Heq).
      rewrite Hcd in Heq.
      exists (match os_exec O (word_string v) argv p1 with
              | Some c => exit_status c
              | None => 1
              end), w1.
      split_and!; [done..| |].
      + intros _. by exists p1.
      + by rewrite (bind_Exit _ _ _ _ _ _ Heq). }
  exists code, w1. split_and!; [done..|].
  rewrite <- Heq. unfold argv, resolved_params.
  destruct (params s) as [param|] eqn:Hparams.
  - unfold bind at 1. unfold bind at 1.
    rewrite (getParameters_resolve s v p w Hv), Hparams. done.
  - done.
Qed.


(** [cd] (not an assignment) when a process can be created: the child ends
    with status 0 whatever happens in it, and the result is decided by the
    [shell_cd] that the parent runs after [waitpid]: 0 in the new directory,
    or 1 in the old one. *)
Lemma parse_simple_cd (O : os) (s : simple_command_t) (v : word_t)
    (level : Z) (father : option command_t) p w :
  verb s = Some v →
  is_assignment v = false →
  word_string v = "cd" →
  os_fork_ok O w = true →
  ∃ w',
    parse_simple O (Some s) level father p w
    = (b <- shell_cd O (params s);; if negb b then ret 1 else ret 0) p w'.
Proof.
  intros Hv Hassign Hname Hfork.
  assert (strcmp0 (word_string v) "exit" = false) as Hexit by by rewrite Hname.
  assert (strcmp0 (word_string v) "quit" = false) as Hquit by by rewrite Hname.
  assert (strcmp0 (word_string v) "true" = false) as Htrue by by rewrite Hname.
  assert (strcmp0 (word_string v) "false" = false) as Hfalse by by rewrite Hname.
  assert (strcmp0 (word_string v) "cd" = true) as Hcd by by rewrite Hname.
  unfold parse_simple. rewrite Hv, Hassign, Hexit, Hquit, Htrue, Hfalse.
  cbv beta iota delta [orb].
  unfold fork. rewrite Hfork.
  destruct (parse_simple_child O s v p
              (set_next_pid (Pos.succ (next_pid w)) w) Hv)
    as (code & w1 & Hn & Hz & Hcode & _ & Heq).
  rewrite Heq, (Hcode Hcd), Hcd.
  set (pid := Z.pos (next_pid w)).
  exists (reap pid (set_zombies (<[pid := W_EXITCODE 0]> (zombies w1)) w1)).
  unfold bind at 1, waitpid. simpl. rewrite lookup_insert_eq.
  unfold bind, reap. simpl.
  by destruct (shell_cd O (params s) p _) as [[] ? ?|].
Qed.

(** [parse_simple] leaves the descriptor table of the process that called
    it alone: redirections are applied in the child only. *)
Lemma parse_simple_keeps_fds (O : os) s level father p w :
  wp (parse_simple O s level father) p w
    (fun _ p' _ => fds p' = fds p) (fun _ _ => True).
Proof.
  unfold parse_simple.
  destruct s as [s|]; [|done].
  destruct (verb s) as [v|] eqn:Hv; [|done].
  destruct (is_assignment v).
  { apply wp_bind.
    eapply wp_mono with (Q := fun _ p' w' => p' = p) (X := fun _ _ => False);
      [| |done].
    - destruct (next_part v ≫= next_part); [|done].
      unfold wp. by rewrite strcat_parts_resolve.
    - intros value ? ? ->. by destruct (VALUE_SIZE <=? String.length value)%nat. }
  destruct (_ || _); [done|].
  destruct (strcmp0 (word_string v) "true"); [done|].
  destruct (strcmp0 (word_string v) "false"); [done|].
  unfold wp, fork. destruct (os_fork_ok O w); [|done].
  destruct (parse_simple_child O s v p
              (set_next_pid (Pos.succ (next_pid w)) w) Hv)
    as (code & w1 & _ & _ & _ & _ & ->).
  unfold bind at 1, waitpid. simpl. rewrite lookup_insert_eq.
  unfold bind.
  destruct (strcmp0 (word_string v) "cd"); [|done].
  pose proof (runs_shell_cd O (params s) p
                (set_zombies
                   (delete (Z.pos (next_pid w))
                      (<[Z.pos (next_pid w) := W_EXITCODE code]> (zombies w1)))
                   (set_zombies
                      (<[Z.pos (next_pid w) := W_EXITCODE code]> (zombies w1)) w1)))
    as Hcd.
  unfold runs, wp in Hcd.
  destruct (shell_cd O (params s) p _) as [[] ? ?|]; simpl;
    [by destruct Hcd as (_ & ? & _)..|done].
Qed.


(** *** The dispatcher *)

Lemma parse_command_unfold (O : os) (c : command_t) (level : Z)
    (father : option command_t) :
  parse_command O (Some c) level father
  = match op c with
    | OP_NONE => parse_simple O (scmd c) level father
    | OP_SEQUENTIAL =>
        parse_command O (cmd1 c) level father;;;
        parse_command O (cmd2 c) level father;;;
        ret 0
    | OP_PARALLEL =>
        run_in_parallel O (parse_command O) (cmd1 c) (cmd2 c) level father;;;
        ret 0
    | OP_CONDITIONAL_NZERO => Conditional_NZero O (parse_command O) c level father
    | OP_CONDITIONAL_ZERO => Conditional_Zero O (parse_command O) c level father
    | OP_PIPE =>
        b <- run_on_pipe O (parse_command O) (cmd1 c) (cmd2 c) level father;;
        ret (int_of_bool b)
    | OP_DUMMY => ret SHELL_EXIT
    end.
Proof. by destruct c. Qed.

(** Induction on the command tree. *)
Lemma command_tree_ind (P : command_t → Prop) :
  (∀ c1 c2 o s,
     (∀ c, c1 = Some c → P c) → (∀ c, c2 = Some c → P c) →
     P (mk_command c1 c2 o s)) →
  ∀ c, P c.
Proof.
  intros Hnode. fix IH 1. intros [c1 c2 o s]. apply Hnode.
  - destruct c1 as [c|]; intros c' [= <-]. apply IH.
  - destruct c2 as [c|]; intros c' [= <-]. apply IH.
Qed.

Lemma runs_cd_again (O : os) (c : command_t) p w :
  runs (cd_again O c) p w
    (fun _ p' w' => env p' = env p ∧ fds p' = fds p ∧ w' = w).
Proof.
  unfold cd_again. destruct (left_cd c) as [s|]; [|done].
  apply runs_bind. eapply runs_mono; [apply runs_shell_cd|].
  intros ? p' w' H. by apply runs_ret.
Qed.

(** *** Process ids only grow

    Every computation of the shell leaves [next_pid] where it was or
    higher.  The proof follows the structure of the code and, for
    [parse_command], the command tree.  It is what makes the process ids of
    the two children of a node differ. *)

Lemma pid_le_refl w : pid_le w w.
Proof. unfold pid_le. lia. Qed.

Lemma pid_le_trans w1 w2 w3 : pid_le w1 w2 → pid_le w2 w3 → pid_le w1 w3.
Proof. unfold pid_le. lia. Qed.

Lemma grows_ret {A} (a : A) : grows (ret a).
Proof. intros p w. apply pid_le_refl. Qed.

Lemma grows_bind {A B} (m : M A) (k : A → M B) :
  grows m → (∀ a, grows (k a)) → grows (bind m k).
Proof.
  intros Hm Hk p w. specialize (Hm p w). unfold wp, bind in *.
  destruct (m p w) as [a p' w'|]; [|done].
  specialize (Hk a p' w'). unfold wp in Hk.
  destruct (k a p' w'); eauto using pid_le_trans.
Qed.

Lemma grows_runs {A} (m : M A) :
  (∀ p w, runs m p w (fun _ _ w' => next_pid w' = next_pid w)) → grows m.
Proof.
  intros H p w. eapply runs_wp; [apply H|].
  intros ? ? w' Heq. unfold pid_le. simpl in Heq. lia.
Qed.

Lemma grows_exit {A} (status : Z) : grows (@shell_exit A status).
Proof. intros p w. apply pid_le_refl. Qed.

Lemma grows_overrun {A} : grows (@overrun A).
Proof. intros p w. apply pid_le_refl. Qed.

Lemma grows_printf (s : string) : grows (printf s).
Proof. intros p w. unfold wp, pid_le. simpl. lia. Qed.

Lemma grows_perror (s : string) : grows (perror s).
Proof. intros p w. unfold wp, pid_le. simpl. lia. Qed.

Lemma grows_setenv (name value : string) : grows (setenv name value).
Proof. intros p w. apply pid_le_refl. Qed.

Lemma grows_execvp (O : os) file argv : grows (execvp O file argv).
Proof.
  intros p w. unfold wp, execvp.
  destruct (os_exec O file argv p); apply pid_le_refl.
Qed.

Lemma grows_waitpid pid status : grows (waitpid pid status).
Proof.
  intros p w. unfold wp, waitpid, pid_le.
  destruct (zombies w !! pid); simpl; lia.
Qed.

Lemma grows_pipe pipefd : grows (pipe pipefd).
Proof.
  intros p w. unfold wp, pipe.
  destruct (lowest_fd (fds p)); [destruct (lowest_fd _)|]; apply pid_le_refl.
Qed.

Lemma grows_dup fd : grows (dup fd).
Proof.
  apply grows_runs. intros p w. eapply runs_mono; [apply runs_dup|].
  by intros ? ? ? [_ ->].
Qed.

Lemma grows_dup2 oldfd newfd : grows (dup2 oldfd newfd).
Proof.
  apply grows_runs. intros p w. eapply runs_mono; [apply runs_dup2|].
  by intros ? ? ? [_ ->].
Qed.

Lemma grows_close fd : grows (close fd).
Proof.
  apply grows_runs. intros p w. eapply runs_mono; [apply runs_close|].
  by intros ? ? ? [_ ->].
Qed.

Lemma grows_shell_cd (O : os) dir : grows (shell_cd O dir).
Proof.
  apply grows_runs. intros p w. eapply runs_mono; [apply runs_shell_cd|].
  by intros ? ? ? (_ & _ & ->).
Qed.

Lemma grows_cd_again (O : os) c : grows (cd_again O c).
Proof.
  apply grows_runs. intros p w. eapply runs_mono; [apply runs_cd_again|].
  by intros ? ? ? (_ & _ & ->).
Qed.

Lemma grows_getParameters s : grows (getParameters s).
Proof.
  apply grows_runs. intros p w. unfold runs, wp, getParameters.
  destruct (verb s); [|done].
  destruct (params s); [|done].
  unfold bind. by rewrite getParameters_loop_resolve.
Qed.

Lemma grows_saveAllAndSwitch (O : os) s : grows (saveAllAndSwitch O s).
Proof.
  apply grows_runs. intros p w.
  eapply runs_mono; [apply runs_saveAllAndSwitch|].
  by intros ? ? ? (_ & _ & _ & ? & _).
Qed.

Lemma grows_switchAndClose saved s : grows (switchAndClose saved s).
Proof.
  apply grows_runs. intros p w. eapply runs_mono; [apply runs_switchAndClose|].
  by intros ? ? ? [_ ->].
Qed.

Lemma grows_strcat_parts buf w : grows (strcat_parts buf w).
Proof.
  apply grows_runs. intros p wd. unfold runs, wp.
  by rewrite strcat_parts_resolve.
Qed.

Lemma grows_fork {A} (O : os) (child : M Empty_set) (parent : Z → M A)
    (failed : M A) :
  grows child → (∀ pid, grows (parent pid)) → grows failed →
  grows (fork O child parent failed).
Proof.
  intros Hchild Hparent Hfailed p w. unfold wp, fork.
  destruct (os_fork_ok O w); [|apply Hfailed].
  specialize (Hchild p (set_next_pid (Pos.succ (next_pid w)) w)).
  unfold wp in Hchild.
  destruct (child p (set_next_pid (Pos.succ (next_pid w)) w))
    as [[]|code w1].
  assert (pid_le w (set_zombies
                      (<[Z.pos (next_pid w) := W_EXITCODE code]> (zombies w1)) w1))
    as Hle by (unfold pid_le in *; simpl in *; lia).
  eapply wp_mono; [apply Hparent | |]; simpl; eauto using pid_le_trans.
Qed.

Create HintDb shell_grows.
#[local] Hint Resolve grows_ret grows_exit grows_overrun grows_printf grows_perror
  grows_setenv grows_execvp grows_waitpid grows_pipe grows_dup grows_dup2
  grows_close grows_shell_cd grows_cd_again grows_getParameters
  grows_saveAllAndSwitch grows_switchAndClose grows_strcat_parts
  : shell_grows.

(** Takes a computation apart along its binds, tests and forks. *)
Ltac grows_steps :=
  repeat match goal with
    | |- ∀ _, _ => intros ?
    | |- grows (bind _ _) => apply grows_bind
    | |- grows (fork _ _ _ _) => apply grows_fork
    | |- grows (if ?b then _ else _) => destruct b
    | |- grows (match ?x with _ => _ end) => destruct x
    | |- grows _ => solve [auto with shell_grows]
    end.

Lemma grows_parse_simple (O : os) s level father :
  grows (parse_simple O s level father).
Proof. unfold parse_simple. grows_steps. Qed.

Section GrowsOperators.

Variable O : os.
Variable parse : option command_t → Z → option command_t → M Z.
Variables c1 c2 : option command_t.
Hypothesis grows_left : ∀ level father, grows (parse c1 level father).
Hypothesis grows_right : ∀ level father, grows (parse c2 level father).

Lemma grows_run_in_parallel level father :
  grows (run_in_parallel O parse c1 c2 level father).
Proof using grows_left grows_right. unfold run_in_parallel. grows_steps. Qed.

Lemma grows_run_on_pipe level father :
  grows (run_on_pipe O parse c1 c2 level father).
Proof using grows_left grows_right. unfold run_on_pipe. grows_steps. Qed.

Lemma grows_Conditional_Zero o s level father :
  grows (Conditional_Zero O parse (mk_command c1 c2 o s) level father).
Proof using grows_left grows_right.
  unfold Conditional_Zero. simpl. grows_steps.
Qed.

Lemma grows_Conditional_NZero o s level father :
  grows (Conditional_NZero O parse (mk_command c1 c2 o s) level father).
Proof using grows_left grows_right.
  unfold Conditional_NZero. simpl. grows_steps.
Qed.

End GrowsOperators.

Lemma grows_parse_node (O : os) (c : command_t) :
  ∀ level father, grows (parse_command O (Some c) level father).
Proof.
  induction c as [c1 c2 o s IH1 IH2] using command_tree_ind.
  assert (∀ level father, grows (parse_command O c1 level father)) as H1.
  { destruct c1 as [c|]; intros; [by apply IH1 | apply grows_ret]. }
  assert (∀ level father, grows (parse_command O c2 level father)) as H2.
  { destruct c2 as [c|]; intros; [by apply IH2 | apply grows_ret]. }
  intros level father. rewrite parse_command_unfold. simpl.
  destruct o.
  - apply grows_parse_simple.
  - grows_steps.
  - apply grows_bind; [by apply grows_run_in_parallel | intros; apply grows_ret].
  - by apply grows_Conditional_Zero.
  - by apply grows_Conditional_NZero.
  - apply grows_bind; [by apply grows_run_on_pipe | intros; apply grows_ret].
  - apply grows_ret.
Qed.

Lemma grows_parse_command (O : os) c level father :
  grows (parse_command O c level father).
Proof. destruct c; [apply grows_parse_node | apply grows_ret]. Qed.


Lemma spawn_pid_lt (body : M Z) p w :
  grows body → (next_pid w < next_pid (spawn body p w).2)%positive.
Proof.
  intros Hbody. unfold spawn, child_end.
  specialize (Hbody p (set_next_pid (Pos.succ (next_pid w)) w)).
  unfold wp, pid_le in Hbody.
  destruct (body p (set_next_pid (Pos.succ (next_pid w)) w));
    simpl in *; lia.
Qed.

(** Two children spawned one after the other have different process ids. *)
Lemma spawn_twice_distinct (body1 body2 : M Z) p1 p2 w :
  grows body1 →
  (spawn body1 p1 w).1 < (spawn body2 p2 (spawn body1 p1 w).2).1.
Proof.
  intros H1. rewrite !spawn_pid.
  pose proof (spawn_pid_lt body1 p1 w H1). lia.
Qed.

(** *** Sequence *)

(** Whatever its children return, a SEQUENCE node that returns, returns 0. *)
Lemma sequence_status (O : os) (c : command_t) (level : Z)
    (father : option command_t) (p : proc) (w : world) (status : Z) :
  op c = OP_SEQUENTIAL →
  status_of (parse_command O (Some c) level father p w) = Some status →
  status = 0.
Proof.
  intros Hop. rewrite parse_command_unfold, Hop. unfold bind, ret.
  destruct (parse_command O (cmd1 c) level father p w) as [a1 p1 w1|]; [|done].
  destruct (parse_command O (cmd2 c) level father p1 w1); [|done].
  simpl. congruence.
Qed.

(** C1.  On [true ; false] the right child, evaluated on its own, returns
    1, and the SEQUENCE node returns 0: [parse_command] runs both children,
    drops both results and leaves the [switch] for its final [return 0]. *)
Theorem sequence_drops_right_status :
  let right := Demo.run "false" in
  let c := Demo.node OP_SEQUENTIAL (Demo.run "true") right in
  status_of (parse_command Demo.machine (Some right) 0 None Demo.p0 Demo.w0) = Some 1
  ∧ status_of (parse_command Demo.machine (Some c) 0 None Demo.p0 Demo.w0) = Some 0.
Proof. split; reflexivity. Qed.

(** *** Pipe *)


(** C2.  With the failing program [fail] on the right, the right child
    process computes 256, calls [exit(256)], which the system cuts to 0, and
    the pipe returns 0.  With a right child process that computes -1 (its
    own [fork] fails) and so exits with 255, the pipe returns 1: the
    function is declared [bool], which maps every status but 0 to 1. *)
Theorem pipe_loses_right_status :
  let fail := Demo.run "fail" in
  let two := Demo.run "two" in
  status_of (parse_command Demo.machine (Some fail) 0 None Demo.p0 Demo.w0)
  = Some 256
  ∧ exit_status 256 = 0
  ∧ status_of (parse_command Demo.machine
                 (Some (Demo.node OP_PIPE (Demo.run "ok") fail)) 0 None
                 Demo.p0 Demo.w0) = Some 0
  ∧ status_of (parse_command Demo.crowded (Some two) 0 None
                 Demo.p0 (set_next_pid 102 Demo.w0)) = Some (-1)
  ∧ exit_status (-1) = 255
  ∧ status_of (parse_command Demo.crowded
                 (Some (Demo.node OP_PIPE (Demo.run "true") two)) 0 None
                 Demo.p0 Demo.w0) = Some 1.
Proof. repeat split; vm_compute; reflexivity. Qed.

(** *** Redirection round trip *)




(** *** Output and error to one file *)

(** The output and the error target written as one and the same word, with
    no append flag: the output file is opened with [O_APPEND], the error
    file with [O_TRUNC].  The same path written in two fragments for the
    output and in one for the error: both are opened with [O_TRUNC]. *)
Lemma same_target_not_both_append :
  ¬ same_target_both_append Demo.machine Demo.both_to_log Demo.p0 Demo.w0
  ∧ ¬ same_target_both_append Demo.machine Demo.both_to_log_split Demo.p0 Demo.w0.
Proof.
  split; intros H; specialize (H _ _ eq_refl eq_refl eq_refl);
    vm_compute in H; discriminate.
Qed.

(** C4 (as amended).  When the output and the error target both exist,
    resolve to the same path and begin with the same fragment string, the
    output file is opened with [O_APPEND] whatever the flags say.  The
    error file is opened with [O_APPEND] when [io_flags] is [IO_ERR_APPEND],
    and with [O_TRUNC] when the flag for appending to the error file is not
    set in [io_flags].  (The comparison the code makes is the one of the
    first fragments' strings; the hypothesis on the resolved paths is the
    specification's.  The targets are taken to fit the block of 100 bytes
    in which [getFile] builds them.) *)
Theorem same_target_output_appends (O : os) (s : simple_command_t)
    (out err : word_t) (p : proc) (w : world) :
  red_out s = Some out →
  red_err s = Some err →
  resolve (env p) out = resolve (env p) err →
  word_string out = word_string err →
  targets_fit s (env p) = true →
  ∃ err_flags,
    opens_of (saveAllAndSwitch O s) p w
    = match red_in s with
      | Some i => [(resolve (env p) i, O_RDONLY)]
      | None => []
      end
      ++ [(resolve (env p) out, append_flags);
          (resolve (env p) err, err_flags)]
    ∧ (io_flags s = IO_ERR_APPEND → err_flags = append_flags)
    ∧ (Z.land (io_flags s) IO_ERR_APPEND = 0 → err_flags = trunc_flags).
Proof.
  intros Hout Herr _ Hfirst _.
  exists (if io_flags s =? IO_ERR_APPEND then append_flags else trunc_flags).
  split_and!.
  - rewrite opens_of_saveAllAndSwitch. unfold redirection_opens.
    rewrite Hout, Herr, Hfirst, strcmp0_refl, orb_true_r.
    by destruct (red_in s).
  - intros ->. by rewrite Z.eqb_refl.
  - intros Hflag.
    destruct (io_flags s =? IO_ERR_APPEND) eqn:Heq; [|done].
    apply Z.eqb_eq in Heq. rewrite Heq in Hflag. discriminate Hflag.
Qed.

Lemma same_target_output_appends_witness :
  ∃ err_flags,
    opens_of (saveAllAndSwitch Demo.machine Demo.both_to_log) Demo.p0 Demo.w0
    = [("log", append_flags); ("log", err_flags)]
    ∧ (io_flags Demo.both_to_log = IO_ERR_APPEND → err_flags = append_flags)
    ∧ (Z.land (io_flags Demo.both_to_log) IO_ERR_APPEND = 0
       → err_flags = trunc_flags).
Proof.
  exact (same_target_output_appends Demo.machine Demo.both_to_log _ _
           Demo.p0 Demo.w0 eq_refl eq_refl eq_refl eq_refl eq_refl).
Defined.

(** *** External commands *)

(** C5.  The program [fail] exits with status 1; [parse_simple] returns 256
    for it, the termination status as [waitpid] stored it, from which the
    exit status is still to be extracted ([WEXITSTATUS]). *)
Theorem external_status_is_wait_status :
  let s := Demo.command "fail" None in
  os_exec Demo.machine "fail" ["fail"] Demo.p0 = Some 1
  ∧ status_of (parse_simple Demo.machine (Some s) 0 None Demo.p0 Demo.w0) = Some 256
  ∧ WEXITSTATUS 256 = 1.
Proof. repeat split; vm_compute; reflexivity. Qed.

(** *** Conditionals *)

(** C6.  [true && false].  The right child returns 1.  As an IF_ZERO node
    without a simple command of its own the node returns 1 as well.  As a
    node that carries one, it is evaluated in a child process, which exits
    with 1, and the node returns 256: the termination status as [waitpid]
    stored it, from which the exit status is still to be extracted
    ([WEXITSTATUS]).  Which side is evaluated is the same on both paths:
    with a program that cannot be executed on the right, its diagnostic
    appears after [true] and does not appear after [false]. *)
Theorem conditional_in_child_returns_wait_status :
  let direct l r := Demo.node OP_CONDITIONAL_ZERO (Demo.run l) (Demo.run r) in
  let forked l r :=
    Demo.node_with_scmd OP_CONDITIONAL_ZERO (Demo.run l) (Demo.run r) in
  let eval c := parse_command Demo.machine (Some c) 0 None Demo.p0 Demo.w0 in
  status_of (eval (Demo.run "false")) = Some 1
  ∧ status_of (eval (direct "true" "false")) = Some 1
  ∧ status_of (eval (forked "true" "false")) = Some 256
  ∧ WEXITSTATUS 256 = 1
  ∧ diag (world_of (eval (forked "true" "nosuch")))
    = diag (world_of (eval (direct "true" "nosuch")))
  ∧ diag (world_of (eval (direct "true" "nosuch"))) ≠ []
  ∧ diag (world_of (eval (forked "false" "nosuch"))) = []
  ∧ diag (world_of (eval (direct "false" "nosuch"))) = [].
Proof. repeat split; vm_compute; (reflexivity || discriminate). Qed.

(** The same as a statement about [conditional_spec]: the node that
    carries a simple command does not return what its right child
    returns. *)
Lemma conditional_in_child_not_right_status :
  ¬ conditional_spec Demo.machine
      (Demo.node_with_scmd OP_CONDITIONAL_ZERO (Demo.run "true") (Demo.run "false"))
      0 None Demo.p0 Demo.w0.
Proof.
  intros H. specialize (H 0 Demo.p0 Demo.w0 eq_refl).
  apply (f_equal status_of) in H. vm_compute in H. discriminate.
Qed.

(** For an IF_ZERO or IF_NONZERO node that carries no
    simple command of its own (as the parser builds operator nodes), once
    the left child has returned: the right child is evaluated exactly when
    the left status is 0 (IF_ZERO), respectively not 0 (IF_NONZERO); the
    node's result is then the right child's result, and otherwise the left
    child's status, with nothing evaluated after it. *)
Lemma conditional_direct (O : os) (c : command_t) (level : Z)
    (father : option command_t) (p : proc) (w : world) :
  op c = OP_CONDITIONAL_ZERO ∨ op c = OP_CONDITIONAL_NZERO →
  scmd c = None →
  conditional_spec O c level father p w.
Proof.
  intros Hop Hscmd status p1 w1 Hleft. unfold after_cd_again.
  pose proof (runs_cd_again O c p1 w1) as Hcd.
  apply runs_Ret in Hcd as ([] & p1' & w1' & Hcd & _).
  rewrite Hcd, parse_command_unfold.
  destruct Hop as [-> | ->];
    unfold Conditional_Zero, Conditional_NZero; rewrite Hscmd;
    rewrite (bind_Ret _ _ _ _ _ _ _ Hleft);
    rewrite (bind_Ret _ _ _ _ _ _ _ Hcd);
    by destruct (status =? 0).
Qed.

Example conditional_direct_example :
  conditional_spec Demo.machine
    (Demo.node OP_CONDITIONAL_ZERO (Demo.run "true") (Demo.run "false"))
    0 None Demo.p0 Demo.w0.
Proof.
  exact (conditional_direct Demo.machine
           (Demo.node OP_CONDITIONAL_ZERO (Demo.run "true") (Demo.run "false"))
           0 None Demo.p0 Demo.w0 (or_introl eq_refl) eq_refl).
Qed.

(** [true && false] returns 1 and [false || true] returns 0. *)
Example conditional_scenarios :
  status_of (parse_command Demo.machine
               (Some (Demo.node OP_CONDITIONAL_ZERO (Demo.run "true") (Demo.run "false")))
               0 None Demo.p0 Demo.w0) = Some 1
  ∧ status_of (parse_command Demo.machine
                 (Some (Demo.node OP_CONDITIONAL_NZERO
                          (Demo.run "false") (Demo.run "true")))
                 0 None Demo.p0 Demo.w0) = Some 0.
Proof. split; reflexivity. Qed.

(** A conditional that carries a simple command is evaluated in a child.
    For IF_NONZERO the evaluating process comes back exactly as it was,
    working directory included, whatever the left branch is. *)
Lemma nonzero_conditional_in_child (O : os) (c : command_t)
    (s : simple_command_t) (level : Z) (father : option command_t) p w :
  op c = OP_CONDITIONAL_NZERO →
  scmd c = Some s →
  ∃ status w', parse_command O (Some c) level father p w = Ret status p w'.
Proof.
  intros Hop Hscmd. rewrite parse_command_unfold, Hop.
  unfold Conditional_NZero. rewrite Hscmd. unfold fork.
  destruct (os_fork_ok O w); [|by eexists _, _].
  match goal with
  | |- context [match ?child p ?w0 with Ret _ _ _ => _ | Exit _ _ => _ end] =>
      destruct (child p w0) as [[]|code w1]
  end.
  match goal with
  | |- context [waitpid ?pid ?st] =>
      destruct (waitpid_reap pid st p
                  (set_zombies (<[pid := W_EXITCODE code]> (zombies w1)) w1))
        as [status Hwait]
  end.
  rewrite (bind_Ret _ _ _ _ _ _ _ Hwait). by eexists _, _.
Qed.

(** For IF_ZERO the evaluating process repeats the [cd] of the left branch
    after [waitpid], when a child could be created. *)
Lemma zero_conditional_in_child (O : os) (c : command_t)
    (s : simple_command_t) (level : Z) (father : option command_t) p w :
  op c = OP_CONDITIONAL_ZERO →
  scmd c = Some s →
  os_fork_ok O w = true →
  ∃ status w',
    parse_command O (Some c) level father p w
    = (cd_again O c;;; ret status) p w'.
Proof.
  intros Hop Hscmd Hfork. rewrite parse_command_unfold, Hop.
  unfold Conditional_Zero. rewrite Hscmd. unfold fork. rewrite Hfork.
  match goal with
  | |- context [match ?child p ?w0 with Ret _ _ _ => _ | Exit _ _ => _ end] =>
      destruct (child p w0) as [[]|code w1]
  end.
  match goal with
  | |- context [waitpid ?pid ?st] =>
      destruct (waitpid_reap pid st p
                  (set_zombies (<[pid := W_EXITCODE code]> (zombies w1)) w1))
        as [status Hwait]
  end.
  rewrite (bind_Ret _ _ _ _ _ _ _ Hwait). by eexists _, _.
Qed.

(** C7.  A conditional node that carries a simple command of its own is
    evaluated in a child process.  With [cd /tmp] on the left,
    [Conditional_Zero] repeats the [cd] in the parent after [waitpid] and
    the parent ends in "/tmp"; [Conditional_NZero] returns right after
    [waitpid] and the parent stays in "/". *)
Theorem nonzero_conditional_loses_cd :
  let cd := Demo.run1 "cd" "/tmp" in
  let c_zero := Demo.node_with_scmd OP_CONDITIONAL_ZERO cd (Demo.run "true") in
  let c_nzero := Demo.node_with_scmd OP_CONDITIONAL_NZERO cd (Demo.run "true") in
  cwd Demo.p0 = "/"
  ∧ cwd <$> proc_of (parse_command Demo.machine (Some c_zero) 0 None Demo.p0 Demo.w0)
    = Some "/tmp"
  ∧ cwd <$> proc_of (parse_command Demo.machine (Some c_nzero) 0 None Demo.p0 Demo.w0)
    = Some "/".
Proof. repeat split; vm_compute; reflexivity. Qed.

(** *** Parallel *)

(** C8.  A PARALLEL node returns 0 and leaves the evaluating process as it
    was, whatever its branches do and whether or not processes could be
    created.  When process creation does not fail, a child is created for
    each branch, both from the state of the evaluating process; the two are
    different processes, and both have been waited for when the node
    returns. *)
Theorem parallel_returns_zero (O : os) (c : command_t) (level : Z)
    (father : option command_t) (p : proc) (w : world) :
  op c = OP_PARALLEL →
  (∃ w', parse_command O (Some c) level father p w = Ret 0 p w')
  ∧ ((∀ w0, os_fork_ok O w0 = true) →
     let '(pid1, w1) := spawn (parse_command O (cmd1 c) level father) p w in
     let '(pid2, w2) := spawn (parse_command O (cmd2 c) level father) p w1 in
     pid1 < pid2
     ∧ parse_command O (Some c) level father p w
       = Ret 0 p (reap pid2 (reap pid1 w2))).
Proof.
  intros Hop. rewrite parse_command_unfold, Hop. unfold run_in_parallel.
  split.
  - unfold bind at 1.
    destruct (os_fork_ok O w) eqn:Hok1;
      [|unfold fork; rewrite Hok1; by eexists].
    rewrite fork_spawn by done.
    destruct (spawn _ p w) as [pid1 w1]. simpl.
    destruct (os_fork_ok O w1) eqn:Hok2;
      [|unfold fork; rewrite Hok2; by eexists].
    rewrite fork_spawn by done.
    destruct (spawn _ p w1) as [pid2 w2]. simpl.
    destruct (waitpid_reap pid1 (os_uninit O "status1") p w2) as [st1 H1].
    rewrite (bind_Ret _ _ _ _ _ _ _ H1).
    destruct (waitpid_reap pid2 (os_uninit O "status2") p (reap pid1 w2))
      as [st2 H2].
    rewrite (bind_Ret _ _ _ _ _ _ _ H2).
    by eexists.
  - intros Hok. unfold bind at 1.
    pose proof (spawn_twice_distinct
                  (parse_command O (cmd1 c) level father)
                  (parse_command O (cmd2 c) level father) p p w
                  (grows_parse_command O (cmd1 c) level father)) as Hpids.
    rewrite fork_spawn by done.
    destruct (spawn _ p w) as [pid1 w1]. simpl in *.
    rewrite fork_spawn by done.
    destruct (spawn _ p w1) as [pid2 w2]. simpl in *.
    split; [done|].
    destruct (waitpid_reap pid1 (os_uninit O "status1") p w2) as [st1 H1].
    rewrite (bind_Ret _ _ _ _ _ _ _ H1).
    destruct (waitpid_reap pid2 (os_uninit O "status2") p (reap pid1 w2))
      as [st2 H2].
    by rewrite (bind_Ret _ _ _ _ _ _ _ H2).
Qed.

Lemma parallel_returns_zero_witness :
  let c := Demo.node OP_PARALLEL (Demo.run "fail") (Demo.run "false") in
  (∃ w', parse_command Demo.machine (Some c) 0 None Demo.p0 Demo.w0
         = Ret 0 Demo.p0 w')
  ∧ let '(pid1, w1) :=
      spawn (parse_command Demo.machine (cmd1 c) 0 None) Demo.p0 Demo.w0 in
    let '(pid2, w2) :=
      spawn (parse_command Demo.machine (cmd2 c) 0 None) Demo.p0 w1 in
    pid1 < pid2
    ∧ parse_command Demo.machine (Some c) 0 None Demo.p0 Demo.w0
      = Ret 0 Demo.p0 (reap pid2 (reap pid1 w2)).
Proof.
  pose proof (parallel_returns_zero Demo.machine
                (Demo.node OP_PARALLEL (Demo.run "fail") (Demo.run "false"))
                0 None Demo.p0 Demo.w0 eq_refl) as [Hzero Hboth].
  split; [exact Hzero | exact (Hboth (fun _ => eq_refl))].
Defined.

(** Both branches fail and the PARALLEL node returns 0; the two children
    had the process ids 100 and 102, and neither is left unwaited. *)
Example parallel_of_failures :
  let c := Demo.node OP_PARALLEL (Demo.run "fail") (Demo.run "false") in
  let r := parse_command Demo.machine (Some c) 0 None Demo.p0 Demo.w0 in
  status_of r = Some 0
  ∧ next_pid (world_of r) = 103%positive
  ∧ zombies (world_of r) = ∅.
Proof. repeat split; vm_compute; reflexivity. Qed.

(** *** Variable assignment *)

(** The assignment branch of [parse_simple]. *)
Lemma parse_simple_assignment (O : os) (s : simple_command_t)
    (v eq : word_t) (level : Z) (father : option command_t) (p : proc)
    (w : world) :
  verb s = Some v →
  next_part v = Some eq →
  word_string eq = "=" →
  parse_simple O (Some s) level father p w
  = if (VALUE_SIZE <=? String.length (resolve_opt (env p) (next_part eq)))%nat
    then overrun p w
    else Ret 0
           (set_env (<[word_string v := resolve_opt (env p) (next_part eq)]>
                       (env p)) p) w.
Proof.
  intros Hv Hn He. unfold parse_simple. rewrite Hv.
  unfold is_assignment. rewrite Hn, He, strcmp0_refl.
  change (Some eq ≫= next_part) with (next_part eq).
  unfold resolve_opt.
  destruct (next_part eq) as [var|].
  - unfold bind at 1. rewrite strcat_parts_resolve.
    by destruct (VALUE_SIZE <=? _)%nat.
  - unfold bind at 1, ret at 1.
    by destruct (VALUE_SIZE <=? _)%nat.
Qed.

(** A simple command whose verb's first fragment is followed by a fragment
    "=", when the resolved rest of the word and its terminating zero fit the
    array [value]: the variable named by the first fragment is set to the
    resolved rest of the word and 0 is returned.  The world is left as it
    was: no process is created, nothing is executed, opened or printed.
    Nothing is assumed about the name, so the assignment wins over a verb
    that would otherwise be a builtin or a program. *)
Lemma assignment_sets_variable (O : os) (s : simple_command_t)
    (v eq : word_t) (level : Z) (father : option command_t) (p : proc)
    (w : world) :
  verb s = Some v →
  next_part v = Some eq →
  word_string eq = "=" →
  (String.length (resolve_opt (env p) (next_part eq)) < VALUE_SIZE)%nat →
  parse_simple O (Some s) level father p w
  = Ret 0
        (set_env (<[word_string v := resolve_opt (env p) (next_part eq)]> (env p)) p)
        w.
Proof.
  intros Hv Hn He Hfits.
  rewrite (parse_simple_assignment O s v eq level father p w Hv Hn He).
  apply Nat.leb_gt in Hfits. by rewrite Hfits.
Qed.

(** The same command when the value does not fit: [strcat] writes past the
    end of [value], and the process is killed with nothing set. *)
Lemma assignment_overruns (O : os) (s : simple_command_t)
    (v eq : word_t) (level : Z) (father : option command_t) (p : proc)
    (w : world) :
  verb s = Some v →
  next_part v = Some eq →
  word_string eq = "=" →
  (VALUE_SIZE ≤ String.length (resolve_opt (env p) (next_part eq)))%nat →
  parse_simple O (Some s) level father p w = overrun p w.
Proof.
  intros Hv Hn He Hlong.
  rewrite (parse_simple_assignment O s v eq level father p w Hv Hn He).
  apply Nat.leb_le in Hlong. by rewrite Hlong.
Qed.

Example assignment_of_foo :
  parse_simple Demo.machine (Some Demo.assign_foo) 0 None Demo.p0 Demo.w0
  = Ret 0 (set_env (<["FOO" := "bar/home/user"]> (env Demo.p0)) Demo.p0) Demo.w0.
Proof. reflexivity. Qed.

(** C9.  [X=aaa...a] with a value of 200 letters: the loop of
    [parse_simple] appends the value to the 100 bytes of [value] and runs
    past their end; the process is killed, so that nothing is returned and
    [X] is not set.  With 99 letters, which fit with their terminating
    zero, the variable is set and 0 is returned. *)
Theorem assignment_overruns_value_buffer :
  let eval n :=
    parse_simple Demo.machine (Some (Demo.assign "X" (Demo.letters n)))
      0 None Demo.p0 Demo.w0 in
  String.length (Demo.letters 200) = 200%nat
  ∧ VALUE_SIZE = 100%nat
  ∧ eval 200%nat = overrun Demo.p0 Demo.w0
  ∧ status_of (eval 200%nat) = None
  ∧ eval 99%nat
    = Ret 0 (set_env (<["X" := Demo.letters 99]> (env Demo.p0)) Demo.p0)
        Demo.w0.
Proof. repeat split; vm_compute; reflexivity. Qed.

(** The assignment also wins over [exit]: [exit=1] sets a variable and the
    shell goes on. *)
Example assignment_before_exit :
  let s := mk_simple (Some (mk_word "exit" false
                              (Some (mk_word "=" false (Some (Demo.lit "1")) None))
                              None)) None None None None IO_REGULAR in
  parse_simple Demo.machine (Some s) 0 None Demo.p0 Demo.w0
  = Ret 0 (set_env (<["exit" := "1"]> (env Demo.p0)) Demo.p0) Demo.w0.
Proof. reflexivity. Qed.

(** *** The directory of [cd] *)

(** C10.  [cd] with a parameter, as [parse_simple] runs it when a child
    can be created: the directory is changed, in the shell process, to the
    string of the parameter's first fragment.  The outcome is a function of
    that string and the current directory only: the fragment's [expand]
    flag, the environment and the fragments after it play no part.  The
    same word as a redirection target or as an argument is resolved
    fragment by fragment ([getFile], [getParameters]).  The command is
    taken to fit the blocks that the child fills: at most eight parameters,
    each of them and each redirection target of at most 99 bytes. *)
Theorem cd_target_is_first_fragment (O : os) (s : simple_command_t)
    (v d : word_t) (level : Z) (father : option command_t) (p : proc)
    (w : world) :
  verb s = Some v →
  is_assignment v = false →
  word_string v = "cd" →
  params s = Some d →
  os_fork_ok O w = true →
  argv_fits s (env p) = true →
  targets_fit s (env p) = true →
  (∃ w',
     parse_simple O (Some s) level father p w
     = match os_chdir O (cwd p) (word_string d) with
       | Some d' => Ret 0 (set_cwd d' p) w'
       | None => Ret 1 p w'
       end)
  ∧ getFile (Some d) p w = Ret (resolve (env p) d) p w
  ∧ (next_word d = None → getParameters s p w = Ret ["cd"; resolve (env p) d] p w).
Proof.
  intros Hv Hassign Hname Hd Hfork _ _. split; [|split].
  - destruct (parse_simple_cd O s v level father p w Hv Hassign Hname Hfork)
      as (w' & ->).
    exists w'. rewrite Hd. unfold shell_cd, bind, chdir.
    by destruct (os_chdir O (cwd p) (word_string d)).
  - apply (getFile_resolve (Some d)).
  - intros Hlast.
    rewrite (getParameters_resolve s v p w Hv), Hd, Hname. simpl.
    unfold words. destruct d as [ds de dp dn]. simpl in *. by rewrite Hlast.
Qed.

(** [cd $HOME/a] looks for a directory called "HOME", fails and returns 1;
    the same word as a redirection target is "/home/user/a". *)
Lemma cd_target_is_first_fragment_witness :
  let d := mk_word "HOME" true (Some (Demo.lit "/a")) None in
  let s := Demo.command "cd" (Some d) in
  (∃ w',
     parse_simple Demo.machine (Some s) 0 None Demo.p0 Demo.w0
     = Ret 1 Demo.p0 w')
  ∧ getFile (Some d) Demo.p0 Demo.w0 = Ret "/home/user/a" Demo.p0 Demo.w0
  ∧ (next_word d = None →
     getParameters s Demo.p0 Demo.w0
     = Ret ["cd"; "/home/user/a"] Demo.p0 Demo.w0).
Proof.
  apply (cd_target_is_first_fragment Demo.machine
           (Demo.command "cd"
              (Some (mk_word "HOME" true (Some (Demo.lit "/a")) None)))
           (Demo.lit "cd")
           (mk_word "HOME" true (Some (Demo.lit "/a")) None)
           0 None Demo.p0 Demo.w0 eq_refl eq_refl eq_refl eq_refl eq_refl
           eq_refl eq_refl).
Defined.

(** [cd /tmp$HOME] goes to "/tmp": the second fragment is not looked at. *)
Example cd_ignores_further_fragments :
  let d := Demo.lit_then "/tmp" (Demo.var "HOME") in
  parse_simple Demo.machine (Some (Demo.command "cd" (Some d))) 0 None
    Demo.p0 Demo.w0
  = Ret 0 (set_cwd "/tmp" Demo.p0)
      (set_next_pid 101 Demo.w0).
Proof. reflexivity. Qed.

(** ** Further properties *)

(** *** Words and argument vectors *)

Lemma resolve_agree (E1 E2 : gmap string string) (w : word_t) :
  (∀ x, x ∈ word_vars w → default "" (E1 !! x) = default "" (E2 !! x)) →
  resolve E1 w = resolve E2 w.
Proof.
  induction w as [s e nw | s e w' nw IH] using word_parts_ind; simpl; intros H.
  - destruct e; [|done]. rewrite H; [done|]. set_solver.
  - rewrite IH by (intros x Hx; apply H; set_solver).
    destruct e; [|done]. rewrite H; [done|]. set_solver.
Qed.

(** X1.  [getFile] (for a word that fits its buffer) never fails and never
    changes anything; it returns the fragments' strings in order, a variable
    reference replaced by the variable's value.  The result depends on the
    environment only through the variables the word names, and an unset
    variable counts as one set to the empty string. *)
Theorem getFile_depends_on_named_variables (w : word_t) (p1 p2 : proc)
    (w1 w2 : world) :
  (∀ x, x ∈ word_vars w →
        default "" (env p1 !! x) = default "" (env p2 !! x)) →
  getFile (Some w) p1 w1 = Ret (resolve (env p1) w) p1 w1
  ∧ getFile (Some w) p2 w2 = Ret (resolve (env p1) w) p2 w2.
Proof.
  intros H. split.
  - apply (getFile_resolve (Some w)).
  - rewrite (getFile_resolve (Some w)). simpl. by rewrite (resolve_agree _ _ w H).
Qed.

Lemma getFile_depends_on_named_variables_witness :
  let w := Demo.lit_then "out-" (Demo.var "TAG") in
  let p2 := set_env (<["TAG" := ""]> (env Demo.p0)) Demo.p0 in
  getFile (Some w) Demo.p0 Demo.w0 = Ret "out-" Demo.p0 Demo.w0
  ∧ getFile (Some w) p2 Demo.w0 = Ret "out-" p2 Demo.w0.
Proof.
  apply (getFile_depends_on_named_variables
           (Demo.lit_then "out-" (Demo.var "TAG")) Demo.p0
           (set_env (<["TAG" := ""]> (env Demo.p0)) Demo.p0) Demo.w0 Demo.w0).
  intros x Hx. apply list_elem_of_singleton in Hx as ->. reflexivity.
Defined.

(** X2.  [getParameters], for a command with at most 8 parameters, each of
    at most 99 bytes when resolved (so that [argv] and the blocks of the
    parameters are not written past their end): the argument vector is the
    string of the verb's first fragment, taken as it is (its [expand] flag
    and the verb's further fragments are not looked at), followed by one
    resolved string per parameter, in the order of the parameters; nothing
    is changed. *)
Theorem argv_is_verb_then_resolved_parameters (s : simple_command_t)
    (v : word_t) (p : proc) (w : world) :
  verb s = Some v →
  argv_fits s (env p) = true →
  getParameters s p w
  = Ret (word_string v :: (resolve (env p) <$> from_option words [] (params s)))
        p w.
Proof.
  intros Hv _. rewrite (getParameters_resolve s v p w Hv). by destruct (params s).
Qed.

Lemma argv_is_verb_then_resolved_parameters_witness :
  let s := mk_simple (Some (mk_word "PROG" true (Some (Demo.lit "x")) None))
             (Some (mk_word "HOME" true (Some (Demo.lit "/f"))
                      (Some (Demo.lit "-l"))))
             None None None IO_REGULAR in
  getParameters s Demo.p0 Demo.w0
  = Ret ["PROG"; "/home/user/f"; "-l"] Demo.p0 Demo.w0.
Proof.
  exact (argv_is_verb_then_resolved_parameters
           (mk_simple (Some (mk_word "PROG" true (Some (Demo.lit "x")) None))
              (Some (mk_word "HOME" true (Some (Demo.lit "/f"))
                       (Some (Demo.lit "-l"))))
              None None None IO_REGULAR) _ Demo.p0 Demo.w0 eq_refl eq_refl).
Defined.

(** *** Simple commands *)

(** X3.  After an assignment whose value has at most 99 bytes (so that it
    fits the array [value] of [parse_simple], and the block of [getFile]
    later) the variable resolves to the assigned value: [NAME=rest] returns
    0, and from then on a reference to [NAME] resolves to what [rest]
    resolved to before the assignment; every other variable, the working
    directory, the descriptors and the world are as before. *)
Theorem assigned_variable_resolves (O : os) (s : simple_command_t)
    (v eq : word_t) (level : Z) (father : option command_t) (p : proc)
    (w : world) :
  verb s = Some v →
  next_part v = Some eq →
  word_string eq = "=" →
  (String.length (resolve_opt (env p) (next_part eq)) < VALUE_SIZE)%nat →
  ∃ p',
    parse_simple O (Some s) level father p w = Ret 0 p' w
    ∧ getFile (Some (mk_word (word_string v) true None None)) p' w
      = Ret (resolve_opt (env p) (next_part eq)) p' w
    ∧ (∀ x, x ≠ word_string v → env p' !! x = env p !! x)
    ∧ cwd p' = cwd p ∧ fds p' = fds p.
Proof.
  intros Hv Hn He Hfits.
  exists (set_env (<[word_string v := resolve_opt (env p) (next_part eq)]> (env p)) p).
  split_and!; [| |by intros x Hx; simpl; rewrite lookup_insert_ne|done..].
  - rewrite (parse_simple_assignment O s v eq level father p w Hv Hn He).
    apply Nat.leb_gt in Hfits. by rewrite Hfits.
  - rewrite (getFile_resolve (Some _)). simpl.
    by rewrite lookup_insert_eq, append_empty_r.
Qed.

Lemma assigned_variable_resolves_witness :
  ∃ p',
    parse_simple Demo.machine (Some Demo.assign_foo) 0 None Demo.p0 Demo.w0
    = Ret 0 p' Demo.w0
    ∧ getFile (Some (mk_word "FOO" true None None)) p' Demo.w0
      = Ret "bar/home/user" p' Demo.w0
    ∧ (∀ x, x ≠ "FOO" → env p' !! x = env Demo.p0 !! x)
    ∧ cwd p' = cwd Demo.p0 ∧ fds p' = fds Demo.p0.
Proof.
  apply (assigned_variable_resolves Demo.machine Demo.assign_foo _ _ 0 None
           Demo.p0 Demo.w0 eq_refl eq_refl eq_refl).
  vm_compute. lia.
Defined.

(** X4.  The verbs "true", "false", "exit" and "quit" (when the command is
    not an assignment) are decided by the verb's first fragment alone:
    "true" returns 0, "false" returns 1, "exit" and "quit" end the process
    with status 0.  Parameters and redirections are not looked at: no file
    is opened or created, no process is made, and [exit 3] ends with 0. *)
Theorem builtins_ignore_parameters_and_redirections (O : os)
    (s : simple_command_t) (v : word_t) (level : Z)
    (father : option command_t) (p : proc) (w : world) :
  verb s = Some v →
  is_assignment v = false →
  word_string v ∈ ["true"; "false"; "exit"; "quit"] →
  parse_simple O (Some s) level father p w
  = if bool_decide (word_string v = "true") then Ret 0 p w
    else if bool_decide (word_string v = "false") then Ret 1 p w
    else Exit 0 w.
Proof.
  intros Hv Hassign Hname. unfold parse_simple. rewrite Hv, Hassign.
  rewrite !elem_of_cons in Hname.
  destruct Hname as [-> | [-> | [-> | [-> | Hnone]]]]; [done..|].
  by apply elem_of_nil in Hnone.
Qed.

Lemma builtins_ignore_parameters_and_redirections_witness :
  let s := mk_simple (Some (Demo.lit "exit")) (Some (Demo.lit "3"))
             None (Some (Demo.lit "out.txt")) None IO_REGULAR in
  parse_simple Demo.machine (Some s) 0 None Demo.p0 Demo.w0 = Exit 0 Demo.w0.
Proof.
  apply (builtins_ignore_parameters_and_redirections Demo.machine
           (mk_simple (Some (Demo.lit "exit")) (Some (Demo.lit "3"))
              None (Some (Demo.lit "out.txt")) None IO_REGULAR)
           (Demo.lit "exit") 0 None Demo.p0 Demo.w0 eq_refl eq_refl).
  repeat constructor.
Defined.

(** The child of [parse_simple] from the redirection on: it ends as
    [simple_child_end] says. *)
Lemma child_ends (O : os) (s : simple_command_t) (v : word_t)
    (argv : list string) p w saved p1 w1 :
  saveAllAndSwitch O s p w = Ret saved p1 w1 →
  argv = word_string v :: resolved_params s (env p1) →
  ((saved <- saveAllAndSwitch O s;;
    (if strcmp0 (word_string v) "cd" then shell_cd O (params s);;; ret tt
     else
       r <- execvp O (word_string v) argv;;
       if r =? -1 then
         printf ("Execution failed for '" +:+ word_string v +:+ "'" +:+ nl);;;
         shell_exit 1
       else ret tt);;;
    switchAndClose saved s);;;
   shell_exit 0) p w
  = (Exit (simple_child_end O s v p1 w1).1 (simple_child_end O s v p1 w1).2
     : result Empty_set).
Proof.
  intros Hsave ->. unfold simple_child_end.
  unfold bind at 1. unfold bind at 1. rewrite Hsave.
  destruct (strcmp0 (word_string v) "cd").
  - destruct (proj1 (runs_Ret _ _ _ _) (runs_shell_cd O (params s) p1 w1))
      as (b & p2 & w2 & Hcd & _ & _ & ->).
    destruct (proj1 (runs_Ret _ _ _ _) (runs_switchAndClose saved s p2 w1))
      as ([] & p3 & w3 & Hsw & _ & ->).
    unfold bind at 1. unfold bind at 1. rewrite Hcd. simpl. by rewrite Hsw.
  - unfold bind, execvp.
    by destruct (os_exec O (word_string v) _ p1).
Qed.

(** [parse_simple] for a verb that is run in a child, when the child can be
    created: the child applies the redirection and ends as
    [simple_child_end] says; the parent waits for it and, for "cd", changes
    directory itself. *)
Lemma parse_simple_forked (O : os) (s : simple_command_t) (v : word_t)
    (level : Z) (father : option command_t) p w :
  verb s = Some v →
  is_assignment v = false →
  word_string v ∉ ["exit"; "quit"; "true"; "false"] →
  os_fork_ok O w = true →
  ∃ saved p1 w1,
    saveAllAndSwitch O s p (set_next_pid (Pos.succ (next_pid w)) w)
    = Ret saved p1 w1
    ∧ same_env p p1
    ∧ logged (redirection_opens s (env p))
        (set_next_pid (Pos.succ (next_pid w)) w) w1
    ∧ parse_simple O (Some s) level father p w
      = (cd_return <- (if strcmp0 (word_string v) "cd"
                       then shell_cd O (params s) else ret true);;
         if negb cd_return then ret 1
         else ret (W_EXITCODE (simple_child_end O s v p1 w1).1)) p
          (reap (Z.pos (next_pid w))
             (set_zombies
                (<[Z.pos (next_pid w)
                   := W_EXITCODE (simple_child_end O s v p1 w1).1]>
                   (zombies (simple_child_end O s v p1 w1).2))
                (simple_child_end O s v p1 w1).2)).
Proof.
  intros Hv Hassign Hname Hfork.
  rewrite !not_elem_of_cons in Hname.
  destruct Hname as (Hexit & Hquit & Htrue & Hfalse & _).
  apply strcmp0_false in Hexit, Hquit, Htrue, Hfalse.
  destruct (proj1 (runs_Ret _ _ _ _)
              (runs_saveAllAndSwitch O s p
                 (set_next_pid (Pos.succ (next_pid w)) w)))
    as (saved & p1 & w1 & Hsave & Hp1 & Hlog).
  exists saved, p1, w1. split_and!; [done..|].
  unfold parse_simple. rewrite Hv, Hassign, Hexit, Hquit, Htrue, Hfalse.
  cbv beta iota delta [orb].
  unfold fork. rewrite Hfork.
  assert (env p1 = env p) as He by by destruct Hp1.
  match goal with
  | |- context [match ?child p ?w0 with Ret _ _ _ => _ | Exit _ _ => _ end] =>
      assert (child p w0
              = Exit (simple_child_end O s v p1 w1).1
                  (simple_child_end O s v p1 w1).2) as ->
  end.
  { rewrite <- (child_ends O s v _ p _ saved p1 w1 Hsave eq_refl).
    rewrite He. unfold resolved_params.
    destruct (params s) as [param|] eqn:Hparams; [|done].
    unfold bind at 1. unfold bind at 1.
    by rewrite (getParameters_resolve s v p _ Hv), Hparams. }
  unfold bind at 1, waitpid, reap. simpl. by rewrite lookup_insert_eq.
Qed.

(** X5.  When no process can be created, a command that needs one prints
    "fork" and returns -1, and nothing else happens: no file is opened, and
    for "cd" (which is run through a child like an external command) the
    working directory is not changed. *)
Theorem fork_failure_returns_minus_one (O : os) (s : simple_command_t)
    (v : word_t) (level : Z) (father : option command_t) (p : proc)
    (w : world) :
  verb s = Some v →
  is_assignment v = false →
  word_string v ∉ ["exit"; "quit"; "true"; "false"] →
  os_fork_ok O w = false →
  parse_simple O (Some s) level father p w = Ret (-1) p (add_diag "fork" w).
Proof.
  intros Hv Hassign Hname Hfork.
  rewrite !not_elem_of_cons in Hname.
  destruct Hname as (Hexit & Hquit & Htrue & Hfalse & _).
  apply strcmp0_false in Hexit, Hquit, Htrue, Hfalse.
  unfold parse_simple. rewrite Hv, Hassign, Hexit, Hquit, Htrue, Hfalse.
  cbv beta iota delta [orb].
  unfold fork. by rewrite Hfork.
Qed.

Lemma fork_failure_returns_minus_one_witness :
  parse_simple Demo.crowded (Some (Demo.command "cd" (Some (Demo.lit "/tmp"))))
    0 None Demo.p0 (set_next_pid 102 Demo.w0)
  = Ret (-1) Demo.p0 (add_diag "fork" (set_next_pid 102 Demo.w0)).
Proof.
  apply (fork_failure_returns_minus_one Demo.crowded
           (Demo.command "cd" (Some (Demo.lit "/tmp"))) (Demo.lit "cd") 0 None
           Demo.p0 (set_next_pid 102 Demo.w0) eq_refl eq_refl);
    [|reflexivity].
  rewrite !not_elem_of_cons. by split_and!; [..|apply not_elem_of_nil].
Defined.

(** X6.  An external command with at most eight parameters, each of them
    and each redirection target resolving to at most 99 bytes, so that the
    argument vector fits the ten slots of [argv] and every string its block
    of 100 bytes: the command is run in exactly one new process, which is
    waited for.  The program is looked up under the string of the verb's
    first fragment and gets the argument vector of [getParameters]; it runs
    with the environment and directory of the shell process.  [open] is
    called for the redirection targets, in the order input, output, error.
    The shell process itself is left as it was, and what it gets back is the
    child's exit status (1 when the program cannot be executed) in bits 8
    to 15. *)
Theorem external_command_effects (O : os) (s : simple_command_t) (v : word_t)
    (level : Z) (father : option command_t) (p : proc) (w : world) :
  verb s = Some v →
  is_assignment v = false →
  word_string v ∉ ["exit"; "quit"; "true"; "false"; "cd"] →
  os_fork_ok O w = true →
  argv_fits s (env p) = true →
  targets_fit s (env p) = true →
  ∃ p1 w',
    same_env p p1
    ∧ parse_simple O (Some s) level father p w
      = Ret (W_EXITCODE
               match os_exec O (word_string v)
                       (word_string v :: resolved_params s (env p)) p1 with
               | Some c => exit_status c
               | None => 1
               end) p w'
    ∧ next_pid w' = Pos.succ (next_pid w)
    ∧ zombies w' = delete (Z.pos (next_pid w)) (zombies w)
    ∧ opened w' = opened w ++ redirection_opens s (env p).
Proof.
  intros Hv Hassign Hname Hfork _ _.
  assert (word_string v ∉ ["exit"; "quit"; "true"; "false"]) as Hname'.
  { rewrite !not_elem_of_cons in Hname. rewrite !not_elem_of_cons. tauto. }
  assert (strcmp0 (word_string v) "cd" = false) as Hcd.
  { apply strcmp0_false. rewrite !not_elem_of_cons in Hname. tauto. }
  destruct (parse_simple_forked O s v level father p w Hv Hassign Hname' Hfork)
    as (saved & p1 & w1 & _ & Hp1 & (Ho & Hz & Hn & _) & ->).
  assert (env p1 = env p) as He by by destruct Hp1.
  exists p1. unfold simple_child_end. rewrite Hcd, He.
  destruct (os_exec O (word_string v) _ p1); simpl;
    (eexists; split; [done|]; split; [reflexivity|]);
    simpl; rewrite Hz, Hn, Ho, delete_insert_eq; done.
Qed.

Lemma external_command_effects_witness :
  ∃ p1 w',
    same_env Demo.p0 p1
    ∧ parse_simple Demo.machine (Some Demo.both_to_log) 0 None Demo.p0 Demo.w0
      = Ret (W_EXITCODE
               match os_exec Demo.machine "ok" ["ok"] p1 with
               | Some c => exit_status c
               | None => 1
               end) Demo.p0 w'
    ∧ next_pid w' = 101%positive
    ∧ zombies w' = delete 100 (zombies Demo.w0)
    ∧ opened w' = [("log", append_flags); ("log", trunc_flags)].
Proof.
  apply (external_command_effects Demo.machine Demo.both_to_log
           (Demo.lit "ok") 0 None Demo.p0 Demo.w0 eq_refl eq_refl);
    [|reflexivity..].
  rewrite !not_elem_of_cons. by split_and!; [..|apply not_elem_of_nil].
Defined.





(** *** The descriptor table under redirection *)

Lemma first_free_room (t : gmap Z ofile) (n : Z) (fuel : nat) :
  (∀ fd, is_Some (t !! fd) → fd < n) →
  ∀ start,
    start ≤ n → n - start < Z.of_nat fuel →
    ∃ x, first_free t fuel start = Some x ∧ start ≤ x ≤ n ∧ t !! x = None.
Proof.
  intros Hbound. induction fuel as [|fuel IH]; intros start Hle Hfuel; [lia|].
  simpl. destruct (t !! start) as [f|] eqn:Hstart.
  - assert (start < n) by (apply Hbound; by rewrite Hstart).
    destruct (IH (start + 1)) as (x & -> & ? & ?); [lia..|].
    exists x. split_and!; [done|lia..|done].
  - exists start. split_and!; [done|lia..|done].
Qed.

Lemma lowest_fd_room (n : Z) (p : proc) :
  fds_within n p → 0 ≤ n < Z.of_nat OPEN_MAX →
  ∃ x, lowest_fd (fds p) = Some x ∧ 0 ≤ x ≤ n ∧ fds p !! x = None.
Proof.
  intros Hin Hn. apply first_free_room; [|lia..].
  intros fd Hfd. by apply Hin.
Qed.

Lemma fds_within_insert (n : Z) (p : proc) (fd : Z) (f : ofile) :
  fds_within n p → 0 ≤ fd ≤ n → fds_within (n + 1) (set_fds (<[fd := f]> (fds p)) p).
Proof.
  intros Hin Hfd k. simpl. rewrite lookup_insert.
  case_decide as Hk; [lia|]. intros Hs. apply Hin in Hs. lia.
Qed.

Lemma fds_within_overwrite (n : Z) (p : proc) (fd : Z) (f : ofile) :
  fds_within n p → is_Some (fds p !! fd) →
  fds_within n (set_fds (<[fd := f]> (fds p)) p).
Proof.
  intros Hin Hfd k. simpl. rewrite lookup_insert.
  case_decide as Hk; [subst; intros _; by apply Hin|apply Hin].
Qed.

Lemma fds_within_mono (n m : Z) (p : proc) :
  fds_within n p → n ≤ m → fds_within m p.
Proof. intros Hin Hle k Hk. apply Hin in Hk. lia. Qed.

(** [dup] when there is room: the copy is a descriptor that was free. *)
Lemma dup_room (n : Z) (fd : Z) (f : ofile) p w :
  fds_within n p → 0 ≤ n < Z.of_nat OPEN_MAX → fds p !! fd = Some f →
  ∃ a,
    dup fd p w = Ret a (set_fds (<[a := f]> (fds p)) p) w
    ∧ 0 ≤ a ≤ n ∧ fds p !! a = None.
Proof.
  intros Hin Hn Hfd.
  destruct (lowest_fd_room n p Hin Hn) as (a & Hlow & Ha & Hfree).
  exists a. unfold dup. by rewrite Hfd, Hlow.
Qed.

Lemma open_succeeds (O : os) path flags mode p w b file :
  opened_file O (cwd p) path flags (fs w) = Some file →
  lowest_fd (fds p) = Some b →
  ∃ w',
    open O path flags mode p w
    = Ret b (set_fds (<[b := mk_ofile file flags]> (fds p)) p) w'
    ∧ logged [(path, flags)] w w'
    ∧ fs w' = fs_after_open O (cwd p) (path, flags) (fs w).
Proof.
  intros Hopen Hlow. unfold fs_after_open. cbn [fst snd]. rewrite Hopen.
  unfold opened_file in Hopen. unfold open. cbv zeta.
  change (fs (add_opened path flags w)) with (fs w).
  destruct (os_file O (cwd p) path flags) as [file'|]; [|done].
  rewrite Hlow.
  destruct (fs w !! file') as [content|] eqn:Hfile.
  - rewrite bool_decide_eq_true_2 in Hopen by (by eexists).
    injection Hopen as ->. rewrite Hfile.
    eexists. by split_and!.
  - rewrite bool_decide_eq_false_2 in Hopen by (by intros []).
    rewrite orb_false_l in Hopen.
    destruct (Z.testbit flags 6); [|done].
    injection Hopen as ->. rewrite Hfile.
    eexists. by split_and!.
Qed.

Lemma open_fails (O : os) path flags mode p w :
  opened_file O (cwd p) path flags (fs w) = None →
  open O path flags mode p w = Ret (-1) p (add_opened path flags w).
Proof.
  unfold opened_file, open. cbv zeta.
  change (fs (add_opened path flags w)) with (fs w).
  destruct (os_file O (cwd p) path flags) as [file|]; [|done].
  destruct (fs w !! file) as [content|].
  - by rewrite bool_decide_eq_true_2 by (by eexists).
  - rewrite bool_decide_eq_false_2 by (by intros []).
    rewrite orb_false_l. by destruct (Z.testbit flags 6).
Qed.

Lemma dup2_succeeds oldfd newfd f p w :
  fds p !! oldfd = Some f → 0 ≤ newfd < Z.of_nat OPEN_MAX →
  dup2 oldfd newfd p w = Ret newfd (set_fds (<[newfd := f]> (fds p)) p) w.
Proof.
  intros Hold Hnew. unfold dup2. rewrite Hold.
  by rewrite bool_decide_eq_true_2.
Qed.

Lemma dup2_fails oldfd newfd p w :
  fds p !! oldfd = None → dup2 oldfd newfd p w = Ret (-1) p w.
Proof. intros Hold. unfold dup2. by rewrite Hold. Qed.

(** The three calls that follow each [dup] in [saveAllAndSwitch], on the
    descriptor table: the stream [std] ends on the file when the file could
    be opened and stays where it was when not; no other open descriptor is
    touched. *)
Lemma redirect_table (O : os) (n : Z) (saved std : Z) (cur : ofile) target
    flags mode p w :
  fds_within n p → 0 ≤ n < Z.of_nat OPEN_MAX →
  0 ≤ std < Z.of_nat OPEN_MAX →
  fds p !! std = Some cur →
  runs (file <- getFile target;;
        fd <- open O file flags mode;;
        dup2 fd std;;;
        ret (saved, fd)) p w
    (fun r p' w' =>
       r.1 = saved
       ∧ (r.2 = -1 ∨ fds p !! r.2 = None)
       ∧ fds p' !! std
         = Some (stream_on O (cwd p) (resolve_opt (env p) target) flags
                   (fs w) cur)
       ∧ (∀ k, k ≠ std → is_Some (fds p !! k) → fds p' !! k = fds p !! k)
       ∧ fds_within (n + 1) p'
       ∧ same_env p p'
       ∧ logged [(resolve_opt (env p) target, flags)] w w'
       ∧ fs w' = fs_after_open O (cwd p) (resolve_opt (env p) target, flags)
                   (fs w)).
Proof.
  intros Hin Hn Hstd Hcur.
  destruct (lowest_fd_room n p Hin Hn) as (b & Hlow & Hb & Hfree).
  assert (fds p !! (-1) = None) as Hminus.
  { destruct (fds p !! (-1)) eqn:E; [|done].
    assert (0 ≤ -1 < n) by (apply Hin; by rewrite E). lia. }
  apply runs_Ret. rewrite (bind_Ret _ _ _ _ _ _ _ (getFile_resolve target p w)).
  set (path := resolve_opt (env p) target).
  unfold stream_on.
  destruct (opened_file O (cwd p) path flags (fs w)) as [file|] eqn:Hopenable.
  - destruct (open_succeeds O path flags mode p w b file Hopenable Hlow)
      as (w' & Hopen & Hlog & Hfs).
    rewrite (bind_Ret _ _ _ _ _ _ _ Hopen).
    erewrite bind_Ret
      by (apply dup2_succeeds; [apply lookup_insert_eq | done]).
    eexists _, _, _. split; [reflexivity|]. simpl.
    split_and!; [done|by right| | | |done|done|done].
    + by rewrite lookup_insert_eq.
    + intros k Hk Hopen'. rewrite lookup_insert_ne by done.
      rewrite lookup_insert_ne; [done|]. intros <-.
      rewrite Hfree in Hopen'. by destruct Hopen'.
    + apply fds_within_overwrite.
      * by apply fds_within_insert.
      * simpl. rewrite lookup_insert_ne; [by rewrite Hcur|].
        intros <-. by rewrite Hfree in Hcur.
  - rewrite (bind_Ret _ _ _ _ _ _ _ (open_fails O path flags mode p w Hopenable)).
    rewrite (bind_Ret _ _ _ _ _ _ _ (dup2_fails (-1) std p _ Hminus)).
    eexists _, _, _. split; [reflexivity|]. simpl.
    split_and!; [done|by left|done|done| |done| |].
    + by apply (fds_within_mono n); [|lia].
    + unfold logged. simpl. done.
    + unfold fs_after_open. cbn [fst snd]. by rewrite Hopenable.
Qed.

(** One block of [saveAllAndSwitch]: the stream is saved on a descriptor
    that was free and switched to the file. *)
Lemma redirect_block (O : os) (n : Z) (std : Z) (orig : ofile) target flags
    mode p w :
  fds_within n p → 0 ≤ n → n + 1 < Z.of_nat OPEN_MAX →
  0 ≤ std < Z.of_nat OPEN_MAX →
  fds p !! std = Some orig →
  runs (saved <- dup std;;
        file <- getFile target;;
        fd <- open O file flags mode;;
        dup2 fd std;;;
        ret (saved, fd)) p w
    (fun r p' w' =>
       fds p !! r.1 = None ∧ fds p' !! r.1 = Some orig
       ∧ (r.2 = -1 ∨ fds p !! r.2 = None)
       ∧ fds p' !! std
         = Some (stream_on O (cwd p) (resolve_opt (env p) target) flags
                   (fs w) orig)
       ∧ (∀ k, k ≠ std → is_Some (fds p !! k) → fds p' !! k = fds p !! k)
       ∧ fds_within (n + 2) p'
       ∧ same_env p p'
       ∧ logged [(resolve_opt (env p) target, flags)] w w'
       ∧ fs w' = fs_after_open O (cwd p) (resolve_opt (env p) target, flags)
                   (fs w)).
Proof.
  intros Hin Hn0 Hn Hstd Horig.
  destruct (dup_room n std orig p w Hin ltac:(lia) Horig)
    as (a & Hdup & Ha & Hfree).
  assert (a ≠ std) as Hne by (intros ->; by rewrite Hfree in Horig).
  apply runs_bind. unfold runs at 1, wp. rewrite Hdup.
  set (p1 := set_fds (<[a := orig]> (fds p)) p).
  eapply runs_mono.
  { apply (redirect_table O (n + 1) a std orig target flags mode p1 w).
    - by apply fds_within_insert.
    - lia.
    - done.
    - simpl. by rewrite lookup_insert_ne. }
  intros [a' b] p' w'
    (Ha' & Hb & Hnow & Hframe & Hwithin & Henv & Hlog & Hfs).
  simpl in *. subst a'.
  split_and!; [done| | |done| | |done..].
  - rewrite Hframe; [apply lookup_insert_eq|done|].
    rewrite lookup_insert_eq. by eexists.
  - destruct Hb as [-> | Hb]; [by left|right].
    destruct (decide (b = a)) as [-> | Hba]; [done|].
    by rewrite lookup_insert_ne in Hb.
  - intros k Hk Hopen.
    assert (k ≠ a) by (intros ->; rewrite Hfree in Hopen; by destruct Hopen).
    rewrite Hframe; [by rewrite lookup_insert_ne|done|].
    by rewrite lookup_insert_ne.
  - by replace (n + 2) with (n + 1 + 1) by lia.
Qed.

Lemma opened_file_creat (O : os) dir path flags f :
  Z.testbit flags 6 = true →
  opened_file O dir path flags f = os_file O dir path flags.
Proof.
  intros H. unfold opened_file. rewrite H.
  destruct (os_file O dir path flags); [|done]. by rewrite orb_true_r.
Qed.

(** With [O_CREAT] the outcome does not depend on the files there are. *)
Lemma stream_on_creat (O : os) dir path flags f f' orig :
  Z.testbit flags 6 = true →
  stream_on O dir path flags f orig = stream_on O dir path flags f' orig.
Proof. intros H. unfold stream_on. by rewrite !opened_file_creat. Qed.

(** A stream that an earlier block dealt with is not disturbed by a later
    block, which works on another stream and on descriptors that were
    free. *)
Lemma stream_state_later (target : option word_t) (std std' : Z)
    (orig now : ofile) (saved fd g_saved g_fd : Z) (p pa pb : proc) :
  stream_state target std orig now saved fd g_saved g_fd p pa →
  std ≠ std' → is_Some (fds p !! std') →
  (∀ k, k ≠ std' → is_Some (fds pa !! k) → fds pb !! k = fds pa !! k) →
  stream_state target std orig now saved fd g_saved g_fd p pb.
Proof.
  intros Hstate Hne Hopen Hframe. unfold stream_state in *.
  destruct target as [t|].
  - destruct Hstate as (Hfree & Hsaved & Hfd & Hnow).
    split_and!; [done| |done|].
    + rewrite Hframe; [done| |by rewrite Hsaved].
      intros ->. rewrite Hfree in Hopen. by destruct Hopen.
    + rewrite Hframe; [done..|by rewrite Hnow].
  - destruct Hstate as (? & ? & Hnow).
    split_and!; [done..|]. rewrite Hframe; [done..|by rewrite Hnow].
Qed.

Lemma saveAllAndSwitch_table (O : os) (s : simple_command_t) (n : Z)
    (f0 f1 f2 : ofile) p w :
  fds_within n p → 0 ≤ n → n + 6 ≤ Z.of_nat OPEN_MAX →
  fds p !! STDIN_FILENO = Some f0 →
  fds p !! STDOUT_FILENO = Some f1 →
  fds p !! STDERR_FILENO = Some f2 →
  runs (saveAllAndSwitch O s) p w
    (fun saved p' w' =>
       switched O s f0 f1 f2 p w saved p'
       ∧ fs w' = fs_after_opens O (cwd p) (redirection_opens s (env p)) (fs w)).
Proof.
  intros Hin Hn0 Hn H0 H1 H2.
  unfold saveAllAndSwitch.
  apply runs_bind.
  eapply runs_mono with
    (Q := fun r pa wa =>
       stream_state (red_in s) STDIN_FILENO f0
         (stream_on O (cwd p) (resolve_opt (env p) (red_in s)) O_RDONLY
            (fs w) f0)
         r.1 r.2 (os_uninit O "saved_stdin") (os_uninit O "fd_in") p pa
       ∧ (∀ k, k ≠ STDIN_FILENO → is_Some (fds p !! k) →
               fds pa !! k = fds p !! k)
       ∧ fds_within (n + 2) pa ∧ same_env p pa
       ∧ fs wa = fs_after_opens O (cwd p)
                   match red_in s with
                   | Some _ => [(resolve_opt (env p) (red_in s), O_RDONLY)]
                   | None => []
                   end (fs w)).
  { destruct (red_in s) as [i|] eqn:Hi.
    - eapply runs_mono.
      { apply (redirect_block O n STDIN_FILENO f0 (Some i) O_RDONLY 0 p w);
          [done|done|lia|done|done]. }
      intros r pa wa
        (Hfree & Hsaved & Hfd & Hnow & Hframe & Hwithin & Henv & _ & Hfs).
      unfold stream_state.
      split_and!; [done..|exact Hfs].
    - apply runs_ret. unfold stream_state.
      split_and!; [done..| |done|done].
      eapply fds_within_mono; [exact Hin|lia]. }
  intros [saved_stdin fd_in] pa wa (Sin & Fa & Wa & [Ea Ca] & FSa).
  simpl in Sin.
  assert (fds pa !! STDOUT_FILENO = Some f1) as H1a by (by rewrite Fa).
  assert (fds pa !! STDERR_FILENO = Some f2) as H2a by (by rewrite Fa).
  assert (∀ k, fds pa !! k = None → fds p !! k = None) as Fresh_a.
  { intros k Hk. destruct (decide (k = STDIN_FILENO)) as [-> | Hne].
    - destruct (red_in s); unfold stream_state in Sin.
      + destruct Sin as (_ & _ & _ & Hnow). by rewrite Hnow in Hk.
      + destruct Sin as (_ & _ & Hnow). by rewrite Hnow in Hk.
    - destruct (fds p !! k) eqn:Hpk; [|done].
      rewrite Fa in Hk; [|done|by rewrite Hpk]. by rewrite Hpk in Hk. }
  apply runs_bind.
  eapply runs_mono with
    (Q := fun r pb wb =>
       stream_state (red_out s) STDOUT_FILENO f1
         (stream_on O (cwd p) (resolve_opt (env p) (red_out s))
            (output_flags s) (fs w) f1)
         r.1 r.2 (os_uninit O "saved_stdout") (os_uninit O "fd_out") p pb
       ∧ (∀ k, k ≠ STDOUT_FILENO → is_Some (fds pa !! k) →
               fds pb !! k = fds pa !! k)
       ∧ fds_within (n + 4) pb ∧ same_env p pb
       ∧ fs wb = fs_after_opens O (cwd p)
                   match red_out s with
                   | Some out => [(resolve (env p) out, output_flags s)]
                   | None => []
                   end (fs wa)).
  { destruct (red_out s) as [out|] eqn:Ho.
    - assert (∀ flags,
        runs (saved <- dup STDOUT_FILENO;;
              file <- getFile (Some out);;
              fd <- open O file flags 420;;
              dup2 fd STDOUT_FILENO;;;
              ret (saved, fd)) pa wa
          (fun r pb wb =>
             Z.testbit flags 6 = true →
             stream_state (Some out) STDOUT_FILENO f1
               (stream_on O (cwd p) (resolve_opt (env p) (Some out)) flags
                  (fs w) f1)
               r.1 r.2 (os_uninit O "saved_stdout") (os_uninit O "fd_out") p pb
             ∧ (∀ k, k ≠ STDOUT_FILENO → is_Some (fds pa !! k) →
                     fds pb !! k = fds pa !! k)
             ∧ fds_within (n + 4) pb ∧ same_env p pb
             ∧ fs wb = fs_after_open O (cwd p) (resolve (env p) out, flags)
                         (fs wa)))
        as Hblock.
      { intros flags. eapply runs_mono.
        { apply (redirect_block O (n + 2) STDOUT_FILENO f1 (Some out) flags
                   420 pa wa); [done|lia|lia|done|done]. }
        intros r pb wb
          (Hfree & Hsaved & Hfd & Hnow & Hframe & Hwithin & Henv & _ & Hfs)
          Hcreat.
        rewrite Ea, Ca in Hnow, Hfs.
        rewrite (stream_on_creat O _ _ _ (fs wa) (fs w)) in Hnow by done.
        unfold stream_state.
        split_and!; [by apply Fresh_a|done| |done|done| | |exact Hfs].
        - destruct Hfd as [?|?]; [by left|right; by apply Fresh_a].
        - by replace (n + 4) with (n + 2 + 2) by lia.
        - by apply (same_env_trans p pa pb). }
      unfold output_flags. rewrite Ho.
      destruct ((io_flags s =? IO_OUT_APPEND)
                || match red_err s with
                   | Some err => strcmp0 (word_string out) (word_string err)
                   | None => false
                   end) eqn:Hc.
      + replace ((io_flags s =? IO_OUT_APPEND)
                 || match red_err s with
                    | Some err => strcmp0 (word_string out) (word_string err)
                    | None => false
                    end) with true
          by (destruct (red_err s); by rewrite Hc).
        eapply runs_mono; [apply (Hblock append_flags)|].
        intros r pb wb Hr. by apply Hr.
      + replace ((io_flags s =? IO_OUT_APPEND)
                 || match red_err s with
                    | Some err => strcmp0 (word_string out) (word_string err)
                    | None => false
                    end) with false
          by (destruct (red_err s); by rewrite Hc).
        eapply runs_mono; [apply (Hblock trunc_flags)|].
        intros r pb wb Hr. by apply Hr.
    - apply runs_ret. unfold stream_state.
      split_and!; [done..| |done|done].
      eapply fds_within_mono; [exact Wa|lia]. }
  intros [saved_stdout fd_out] pb wb (Sout & Fb & Wb & [Eb Cb] & FSb).
  simpl in Sout.
  assert (fds pb !! STDERR_FILENO = Some f2) as H2b by (by rewrite Fb).
  assert (∀ k, fds pb !! k = None → fds p !! k = None) as Fresh_b.
  { intros k Hk. apply Fresh_a.
    destruct (decide (k = STDOUT_FILENO)) as [-> | Hne].
    - destruct (red_out s); unfold stream_state in Sout.
      + destruct Sout as (_ & _ & _ & Hnow). by rewrite Hnow in Hk.
      + destruct Sout as (_ & _ & Hnow). by rewrite Hnow in Hk.
    - destruct (fds pa !! k) eqn:Hpk; [|done].
      rewrite Fb in Hk; [|done|by rewrite Hpk]. by rewrite Hpk in Hk. }
  apply runs_bind.
  eapply runs_mono with
    (Q := fun r pc wc =>
       stream_state (red_err s) STDERR_FILENO f2
         (stream_on O (cwd p) (resolve_opt (env p) (red_err s))
            (error_flags s) (fs w) f2)
         r.1 r.2 (os_uninit O "saved_stderr") (os_uninit O "fd_err") p pc
       ∧ (∀ k, k ≠ STDERR_FILENO → is_Some (fds pb !! k) →
               fds pc !! k = fds pb !! k)
       ∧ fs wc = fs_after_opens O (cwd p)
                   match red_err s with
                   | Some err => [(resolve (env p) err, error_flags s)]
                   | None => []
                   end (fs wb)).
  { destruct (red_err s) as [err|] eqn:He.
    - assert (∀ flags,
        runs (saved <- dup STDERR_FILENO;;
              file <- getFile (Some err);;
              fd <- open O file flags 420;;
              dup2 fd STDERR_FILENO;;;
              ret (saved, fd)) pb wb
          (fun r pc wc =>
             Z.testbit flags 6 = true →
             stream_state (Some err) STDERR_FILENO f2
               (stream_on O (cwd p) (resolve_opt (env p) (Some err)) flags
                  (fs w) f2)
               r.1 r.2 (os_uninit O "saved_stderr") (os_uninit O "fd_err") p pc
             ∧ (∀ k, k ≠ STDERR_FILENO → is_Some (fds pb !! k) →
                     fds pc !! k = fds pb !! k)
             ∧ fs wc = fs_after_open O (cwd p) (resolve (env p) err, flags)
                         (fs wb)))
        as Hblock.
      { intros flags. eapply runs_mono.
        { apply (redirect_block O (n + 4) STDERR_FILENO f2 (Some err) flags
                   420 pb wb); [done|lia|lia|done|done]. }
        intros r pc wc
          (Hfree & Hsaved & Hfd & Hnow & Hframe & Hwithin & Henv & _ & Hfs)
          Hcreat.
        rewrite Eb, Cb in Hnow, Hfs.
        rewrite (stream_on_creat O _ _ _ (fs wb) (fs w)) in Hnow by done.
        unfold stream_state.
        split_and!; [by apply Fresh_b|done| |done|done|exact Hfs].
        destruct Hfd as [?|?]; [by left|right; by apply Fresh_b]. }
      unfold error_flags.
      destruct (io_flags s =? IO_ERR_APPEND).
      + eapply runs_mono; [apply (Hblock append_flags)|].
        intros r pc wc Hr. by apply Hr.
      + eapply runs_mono; [apply (Hblock trunc_flags)|].
        intros r pc wc Hr. by apply Hr.
    - apply runs_ret. by unfold stream_state. }
  intros [saved_stderr fd_err] pc wc (Serr & Fc & FSc). simpl in Serr.
  apply runs_ret. split; last first.
  { rewrite FSc, FSb, FSa. unfold fs_after_opens, redirection_opens.
    rewrite !foldl_app. unfold output_flags, error_flags.
    destruct (red_out s) as [out|]; [|done]. by destruct (red_err s). }
  unfold switched, at_index. simpl.
  split_and!.
  - apply stream_state_later with (std' := STDERR_FILENO) (pa := pb);
      [|done|by rewrite H2|exact Fc].
    apply stream_state_later with (std' := STDOUT_FILENO) (pa := pa);
      [exact Sin|done|by rewrite H1|exact Fb].
  - apply stream_state_later with (std' := STDERR_FILENO) (pa := pb);
      [exact Sout|done|by rewrite H2|exact Fc].
  - done.
  - intros k Hk0 Hk1 Hk2 Hopen.
    assert (fds pa !! k = fds p !! k) as Ea' by (by apply Fa).
    assert (fds pb !! k = fds p !! k) as Eb'.
    { rewrite Fb; [done..|by rewrite Ea']. }
    rewrite Fc; [done..|by rewrite Eb'].
Qed.

Lemma runs_conj {A} (m : M A) p w (Q Q' : A → proc → world → Prop) :
  runs m p w Q → runs m p w Q' →
  runs m p w (fun a p' w' => Q a p' w' ∧ Q' a p' w').
Proof. unfold runs, wp. by destruct (m p w). Qed.

Lemma stream_on_rdonly (O : os) dir path f orig :
  stream_on O dir path O_RDONLY f orig
  = match os_file O dir path O_RDONLY with
    | Some file => if f !! file is Some _ then mk_ofile file O_RDONLY else orig
    | None => orig
    end.
Proof.
  unfold stream_on, opened_file.
  destruct (os_file O dir path O_RDONLY) as [file|]; [|done].
  change (Z.testbit O_RDONLY 6) with false. rewrite orb_false_r.
  destruct (f !! file).
  - by rewrite bool_decide_eq_true_2 by (by eexists).
  - by rewrite bool_decide_eq_false_2 by (by intros []).
Qed.

Lemma stream_on_created (O : os) dir path flags f orig :
  Z.testbit flags 6 = true →
  stream_on O dir path flags f orig
  = match os_file O dir path flags with
    | Some file => mk_ofile file flags
    | None => orig
    end.
Proof. intros H. unfold stream_on. by rewrite opened_file_creat. Qed.

Lemma append_flags_bits :
  Z.testbit append_flags 6 = true ∧ Z.testbit append_flags 9 = false.
Proof. by vm_compute. Qed.

Lemma trunc_flags_bits :
  Z.testbit trunc_flags 6 = true ∧ Z.testbit trunc_flags 9 = true.
Proof. by vm_compute. Qed.

(** X9.  [saveAllAndSwitch] in a process that holds the three standard
    streams and has room for six more descriptors, for targets that resolve
    to at most 99 bytes (the block of [getFile]).  A redirected stream is
    afterwards on the file that its target names if [open] succeeds, and
    where it was if it does not: for the output and the error stream, which
    are opened with [O_CREAT], [open] fails when the target names no file
    that can be opened (the empty path of an unset variable, a directory, a
    path through a missing directory); for the input stream also when the
    file does not exist.  A failed [open] is not reported.  A stream without
    redirection, and every other open descriptor, is untouched. *)
Theorem redirection_switches_streams (O : os) (s : simple_command_t) (n : Z)
    (f0 f1 f2 : ofile) p w :
  fds_within n p → 0 ≤ n → n + 6 ≤ Z.of_nat OPEN_MAX →
  fds p !! STDIN_FILENO = Some f0 →
  fds p !! STDOUT_FILENO = Some f1 →
  fds p !! STDERR_FILENO = Some f2 →
  targets_fit s (env p) = true →
  runs (saveAllAndSwitch O s) p w
    (fun _ p' w' =>
       fds p' !! STDIN_FILENO
       = Some match red_in s with
              | Some i =>
                  match os_file O (cwd p) (resolve (env p) i) O_RDONLY with
                  | Some file =>
                      if fs w !! file is Some _
                      then mk_ofile file O_RDONLY else f0
                  | None => f0
                  end
              | None => f0
              end
       ∧ fds p' !! STDOUT_FILENO
         = Some match red_out s with
                | Some out =>
                    let flags :=
                      if (io_flags s =? IO_OUT_APPEND)
                         || match red_err s with
                            | Some err =>
                                strcmp0 (word_string out) (word_string err)
                            | None => false
                            end
                      then Z.lor (Z.lor O_WRONLY O_CREAT) O_APPEND
                      else Z.lor (Z.lor O_WRONLY O_CREAT) O_TRUNC in
                    match os_file O (cwd p) (resolve (env p) out) flags with
                    | Some file => mk_ofile file flags
                    | None => f1
                    end
                | None => f1
                end
       ∧ fds p' !! STDERR_FILENO
         = Some match red_err s with
                | Some err =>
                    let flags :=
                      if io_flags s =? IO_ERR_APPEND
                      then Z.lor (Z.lor O_WRONLY O_CREAT) O_APPEND
                      else Z.lor (Z.lor O_WRONLY O_CREAT) O_TRUNC in
                    match os_file O (cwd p) (resolve (env p) err) flags with
                    | Some file => mk_ofile file flags
                    | None => f2
                    end
                | None => f2
                end
       ∧ (∀ k, k ≠ STDIN_FILENO → k ≠ STDOUT_FILENO → k ≠ STDERR_FILENO →
               is_Some (fds p !! k) → fds p' !! k = fds p !! k)
       ∧ diag w' = diag w).
Proof.
  intros Hin Hn0 Hn H0 H1 H2 _.
  eapply runs_mono.
  { apply runs_conj;
      [exact (saveAllAndSwitch_table O s n f0 f1 f2 p w Hin Hn0 Hn H0 H1 H2)
      |apply runs_saveAllAndSwitch]. }
  intros saved p' w' [[(Sin & Sout & Serr & Hframe) _] [_ (_ & _ & _ & Hdiag)]].
  split_and!; [| | |exact Hframe|exact Hdiag].
  - unfold stream_state in Sin.
    destruct (red_in s) as [i|].
    + destruct Sin as (_ & _ & _ & ->). by rewrite stream_on_rdonly.
    + by destruct Sin as (_ & _ & ->).
  - unfold stream_state, output_flags in Sout.
    destruct (red_out s) as [out|].
    + destruct Sout as (_ & _ & _ & ->). cbn zeta.
      fold append_flags trunc_flags.
      rewrite stream_on_created; [by destruct (red_err s)|].
      destruct ((io_flags s =? IO_OUT_APPEND)
                || match red_err s with
                   | Some err => strcmp0 (word_string out) (word_string err)
                   | None => false
                   end);
        [apply append_flags_bits|apply trunc_flags_bits].
    + by destruct Sout as (_ & _ & ->).
  - unfold stream_state, error_flags in Serr.
    destruct (red_err s) as [err|].
    + destruct Serr as (_ & _ & _ & ->). cbn zeta.
      fold append_flags trunc_flags.
      rewrite stream_on_created; [done|].
      destruct (io_flags s =? IO_ERR_APPEND);
        [apply append_flags_bits|apply trunc_flags_bits].
    + by destruct Serr as (_ & _ & ->).
Qed.

Lemma p0_within : fds_within 3 Demo.p0.
Proof.
  intros fd [f Hf]. unfold Demo.p0 in Hf. simpl in Hf.
  apply lookup_insert_Some in Hf as [[<- _]|[_ Hf]]; [lia|].
  apply lookup_insert_Some in Hf as [[<- _]|[_ Hf]]; [lia|].
  apply lookup_singleton_Some in Hf as [<- _]. lia.
Qed.

Lemma redirection_switches_streams_witness :
  let s := mk_simple (Some (Demo.lit "ok")) None (Some (Demo.lit "missing"))
             (Some (Demo.lit "./out")) (Some (Demo.var "UNSET")) IO_REGULAR in
  runs (saveAllAndSwitch Demo.machine s) Demo.p0 Demo.w0
    (fun _ p' w' =>
       fds p' !! 0 = Some Demo.tty
       ∧ fds p' !! 1 = Some (mk_ofile "/out" 577)
       ∧ fds p' !! 2 = Some Demo.tty
       ∧ diag w' = []).
Proof.
  eapply runs_mono.
  - apply (redirection_switches_streams Demo.machine
             (mk_simple (Some (Demo.lit "ok")) None (Some (Demo.lit "missing"))
                (Some (Demo.lit "./out")) (Some (Demo.var "UNSET")) IO_REGULAR)
             3 Demo.tty Demo.tty Demo.tty Demo.p0 Demo.w0);
      [apply p0_within|lia|vm_compute; discriminate|reflexivity..].
  - intros _ p' w' (H0 & H1 & H2 & _ & Hdiag).
    split_and!; [exact H0|exact H1|exact H2|exact Hdiag].
Defined.








(** *** Files *)

Lemma fs_after_open_created (O : os) dir path flags f :
  Z.testbit flags 6 = true →
  fs_after_open O dir (path, flags) f
  = match os_file O dir path flags with
    | Some file =>
        <[file := if Z.testbit flags 9 then "" else default "" (f !! file)]> f
    | None => f
    end.
Proof.
  intros H. unfold fs_after_open. cbn [fst snd].
  by rewrite opened_file_creat.
Qed.

(** X11.  A command whose only redirection is the one of its output, to a
    target that resolves to at most 99 bytes, in a process that holds the
    three standard streams and has room for six more descriptors.  When
    the target names a file that can be opened, that file
    exists after [saveAllAndSwitch]; it has the content it had (none if it
    did not exist) when [io_flags] equals [IO_OUT_APPEND], and is empty
    otherwise, and no other file is changed.  The file is the one that the
    path names from the working directory, under whatever other path it is
    known.  When the target cannot be opened no file is changed. *)
Theorem output_file_kept_or_emptied (O : os) (s : simple_command_t)
    (out : word_t) (n : Z) (f0 f1 f2 : ofile) p w :
  red_in s = None → red_out s = Some out → red_err s = None →
  fds_within n p → 0 ≤ n → n + 6 ≤ Z.of_nat OPEN_MAX →
  fds p !! STDIN_FILENO = Some f0 →
  fds p !! STDOUT_FILENO = Some f1 →
  fds p !! STDERR_FILENO = Some f2 →
  fits (resolve (env p) out) = true →
  runs (saveAllAndSwitch O s) p w
    (fun _ _ w' =>
       fs w'
       = match os_file O (cwd p) (resolve (env p) out)
                 (if io_flags s =? IO_OUT_APPEND
                  then Z.lor (Z.lor O_WRONLY O_CREAT) O_APPEND
                  else Z.lor (Z.lor O_WRONLY O_CREAT) O_TRUNC) with
         | Some file =>
             <[file := if io_flags s =? IO_OUT_APPEND
                       then default "" (fs w !! file) else ""]> (fs w)
         | None => fs w
         end).
Proof.
  intros Hi Ho He Hin Hn0 Hn H0 H1 H2 _.
  eapply runs_mono.
  { exact (saveAllAndSwitch_table O s n f0 f1 f2 p w Hin Hn0 Hn H0 H1 H2). }
  intros saved p' w' [_ ->].
  unfold redirection_opens, fs_after_opens. rewrite Hi, Ho, He.
  rewrite orb_false_r. cbn [app foldl].
  fold append_flags trunc_flags.
  destruct (io_flags s =? IO_OUT_APPEND).
  - rewrite fs_after_open_created by apply append_flags_bits.
    by rewrite (proj2 append_flags_bits).
  - rewrite fs_after_open_created by apply trunc_flags_bits.
    by rewrite (proj2 trunc_flags_bits).
Qed.

Lemma output_file_kept_or_emptied_witness :
  let s := mk_simple (Some (Demo.lit "ok")) None None
             (Some (Demo.lit "./in.txt")) None IO_REGULAR in
  runs (saveAllAndSwitch Demo.machine s) Demo.p0 Demo.w0
    (fun _ _ w' => fs w' = {[ "/in.txt" := "" ]}).
Proof.
  eapply runs_mono.
  - apply (output_file_kept_or_emptied Demo.machine
             (mk_simple (Some (Demo.lit "ok")) None None
                (Some (Demo.lit "./in.txt")) None IO_REGULAR)
             (Demo.lit "./in.txt") 3 Demo.tty Demo.tty Demo.tty
             Demo.p0 Demo.w0);
      [reflexivity|reflexivity|reflexivity|apply p0_within|lia
      |vm_compute; discriminate|reflexivity..].
  - intros ? ? w' ->. vm_compute. reflexivity.
Defined.

(** X12.  The append flags are compared with [==]: when [io_flags] is
    neither [IO_OUT_APPEND] nor [IO_ERR_APPEND], as when both are set
    together, and the first fragments of the output and the error target
    differ, both targets are opened with [O_TRUNC].  When both name files
    that can be opened, the two streams are on these files after
    [saveAllAndSwitch] and both files are empty.  (In a process that holds
    the three standard streams and has room for six more descriptors, and
    for targets that resolve to at most 99 bytes.) *)
Theorem both_append_flags_truncate (O : os) (s : simple_command_t)
    (out err : word_t) (file_out file_err : string) (n : Z)
    (f0 f1 f2 : ofile) p w :
  red_out s = Some out → red_err s = Some err →
  word_string out ≠ word_string err →
  io_flags s ≠ IO_OUT_APPEND → io_flags s ≠ IO_ERR_APPEND →
  os_file O (cwd p) (resolve (env p) out)
    (Z.lor (Z.lor O_WRONLY O_CREAT) O_TRUNC) = Some file_out →
  os_file O (cwd p) (resolve (env p) err)
    (Z.lor (Z.lor O_WRONLY O_CREAT) O_TRUNC) = Some file_err →
  fds_within n p → 0 ≤ n → n + 6 ≤ Z.of_nat OPEN_MAX →
  fds p !! STDIN_FILENO = Some f0 →
  fds p !! STDOUT_FILENO = Some f1 →
  fds p !! STDERR_FILENO = Some f2 →
  targets_fit s (env p) = true →
  runs (saveAllAndSwitch O s) p w
    (fun _ p' w' =>
       (∃ before,
          opened w' = opened w ++ before
            ++ [(resolve (env p) out, Z.lor (Z.lor O_WRONLY O_CREAT) O_TRUNC);
                (resolve (env p) err, Z.lor (Z.lor O_WRONLY O_CREAT) O_TRUNC)])
       ∧ fds p' !! STDOUT_FILENO
         = Some (mk_ofile file_out (Z.lor (Z.lor O_WRONLY O_CREAT) O_TRUNC))
       ∧ fds p' !! STDERR_FILENO
         = Some (mk_ofile file_err (Z.lor (Z.lor O_WRONLY O_CREAT) O_TRUNC))
       ∧ fs w' !! file_out = Some ""
       ∧ fs w' !! file_err = Some "").
Proof.
  intros Ho He Hne Hfo Hfe Fo Fe Hin Hn0 Hn H0 H1 H2 _.
  apply Z.eqb_neq in Hfo, Hfe.
  apply strcmp0_false in Hne.
  fold trunc_flags in Fo, Fe |- *.
  eapply runs_mono.
  { apply runs_conj;
      [exact (saveAllAndSwitch_table O s n f0 f1 f2 p w Hin Hn0 Hn H0 H1 H2)
      |apply runs_saveAllAndSwitch]. }
  intros saved p' w' [[(_ & Sout & Serr & _) ->] [_ (Hlog & _)]].
  unfold stream_state, output_flags, error_flags in Sout, Serr.
  rewrite Ho, He, Hfo, Hne in Sout. rewrite He, Hfe in Serr.
  destruct Sout as (_ & _ & _ & ->). destruct Serr as (_ & _ & _ & ->).
  cbn [orb resolve_opt].
  rewrite !stream_on_created by apply trunc_flags_bits. rewrite Fo, Fe.
  assert (fs_after_opens O (cwd p) (redirection_opens s (env p)) (fs w)
          = <[file_err := ""]>
              (<[file_out := ""]>
                 (fs_after_opens O (cwd p)
                    match red_in s with
                    | Some _ => [(resolve_opt (env p) (red_in s), O_RDONLY)]
                    | None => []
                    end (fs w)))) as ->.
  { unfold redirection_opens, fs_after_opens.
    rewrite Ho, He, Hfo, Hfe, Hne, !foldl_app. cbn [orb foldl].
    rewrite !fs_after_open_created by apply trunc_flags_bits.
    by rewrite Fo, Fe, (proj2 trunc_flags_bits). }
  split_and!; [|done|done| |apply lookup_insert_eq].
  - rewrite Hlog. unfold redirection_opens.
    rewrite Ho, He, Hfo, Hfe, Hne. cbn [orb].
    eexists. reflexivity.
  - destruct (decide (file_out = file_err)) as [-> | Hd].
    + apply lookup_insert_eq.
    + rewrite lookup_insert_ne by done. apply lookup_insert_eq.
Qed.

Lemma both_append_flags_truncate_witness :
  let s := mk_simple (Some (Demo.lit "ok")) None None
             (Some (Demo.lit "in.txt")) (Some (Demo.lit "err"))
             (Z.lor IO_OUT_APPEND IO_ERR_APPEND) in
  runs (saveAllAndSwitch Demo.machine s) Demo.p0 Demo.w0
    (fun _ p' w' =>
       fds p' !! 1 = Some (mk_ofile "/in.txt" 577)
       ∧ fds p' !! 2 = Some (mk_ofile "/err" 577)
       ∧ fs w' !! "/in.txt" = Some ""
       ∧ fs w' !! "/err" = Some "").
Proof.
  eapply runs_mono.
  - apply (both_append_flags_truncate Demo.machine
             (mk_simple (Some (Demo.lit "ok")) None None
                (Some (Demo.lit "in.txt")) (Some (Demo.lit "err"))
                (Z.lor IO_OUT_APPEND IO_ERR_APPEND))
             (Demo.lit "in.txt") (Demo.lit "err") "/in.txt" "/err"
             3 Demo.tty Demo.tty Demo.tty Demo.p0 Demo.w0);
      [reflexivity|reflexivity|discriminate|discriminate|discriminate
      |reflexivity|reflexivity
      |apply p0_within|lia|vm_compute; discriminate|reflexivity..].
  - intros ? p' w' (_ & H1 & H2 & Fo & Fe).
    split_and!; [exact H1|exact H2|exact Fo|exact Fe].
Defined.

(** *** Pipes *)

Lemma runs_pipe pipefd p w :
  runs (pipe pipefd) p w (fun _ p' w' => same_env p p' ∧ w' = w).
Proof.
  unfold runs, wp, pipe.
  destruct (lowest_fd (fds p)); [destruct (lowest_fd _)|]; done.
Qed.

Lemma runs_waitpid pid status p w :
  runs (waitpid pid status) p w (fun _ p' _ => p' = p).
Proof. unfold runs, wp, waitpid. by destruct (zombies w !! pid). Qed.

(** X14.  A PIPE node always comes back to its caller, with status 0 or
    1 and with the environment and the working directory of the shell
    process as they were: both sides are evaluated in processes of their
    own, so an assignment, a [cd] or an [exit] on either side of a pipe has
    no effect on the shell.  This holds also when the pipe or a process
    cannot be created. *)
Theorem pipe_returns_to_unchanged_shell (O : os) (c : command_t) (level : Z)
    (father : option command_t) (p : proc) (w : world) :
  op c = OP_PIPE →
  ∃ status p' w',
    parse_command O (Some c) level father p w = Ret status p' w'
    ∧ (status = 0 ∨ status = 1)
    ∧ env p' = env p ∧ cwd p' = cwd p.
Proof.
  intros Hop. rewrite parse_command_unfold, Hop.
  assert (∀ b : bool, int_of_bool b = 0 ∨ int_of_bool b = 1) as Hb
    by (intros []; auto).
  apply runs_Ret with
    (Q := fun status p' _ =>
            (status = 0 ∨ status = 1) ∧ env p' = env p ∧ cwd p' = cwd p).
  apply runs_bind. unfold run_on_pipe.
  apply runs_bind. eapply runs_mono; [apply runs_pipe|].
  intros pipefd pp ? [[He Hc] ->].
  assert (∀ b w', runs (ret (A := bool) b) pp w'
            (fun b p' w' =>
               runs (ret (int_of_bool b)) p' w'
                 (fun status p' _ =>
                    (status = 0 ∨ status = 1)
                    ∧ env p' = env p ∧ cwd p' = cwd p))) as Hret.
  { intros b w'. apply runs_ret, runs_ret. by split_and!. }
  unfold runs at 1, wp, fork.
  destruct (os_fork_ok O w); [|apply Hret].
  match goal with
  | |- context [match ?child pp ?w0 with Ret _ _ _ => _ | Exit _ _ => _ end] =>
      destruct (child pp w0) as [[]|code1 w1]
  end.
  match goal with
  | |- context [os_fork_ok O ?w0] => destruct (os_fork_ok O w0)
  end; [|apply Hret].
  match goal with
  | |- context [match ?child pp ?w0 with Ret _ _ _ => _ | Exit _ _ => _ end] =>
      destruct (child pp w0) as [[]|code2 w2]
  end.
  apply runs_bind. eapply runs_mono; [apply runs_close|].
  intros ? pa ? [[Hea Hca] ->].
  apply runs_bind. eapply runs_mono; [apply runs_close|].
  intros ? pb ? [[Heb Hcb] ->].
  apply runs_bind. eapply runs_mono; [apply runs_waitpid|].
  intros ? ? w3 ->.
  apply runs_bind. eapply runs_mono; [apply runs_waitpid|].
  intros st2 ? w4 ->.
  apply runs_ret, runs_ret. split_and!; [apply Hb|congruence..].
Qed.

Lemma pipe_returns_to_unchanged_shell_witness :
  ∃ status p' w',
    parse_command Demo.machine
      (Some (Demo.node OP_PIPE (Demo.run "exit") (Demo.run1 "cd" "/tmp")))
      0 None Demo.p0 Demo.w0 = Ret status p' w'
    ∧ (status = 0 ∨ status = 1)
    ∧ env p' = env Demo.p0 ∧ cwd p' = cwd Demo.p0.
Proof.
  exact (pipe_returns_to_unchanged_shell Demo.machine
           (Demo.node OP_PIPE (Demo.run "exit") (Demo.run1 "cd" "/tmp"))
           0 None Demo.p0 Demo.w0 eq_refl).
Defined.




(** [pipe] in a process with room for two more descriptors. *)
Lemma pipe_room (n : Z) (pipefd : list Z) p w :
  fds_within n p → 0 ≤ n → n + 2 ≤ Z.of_nat OPEN_MAX →
  ∃ r wr,
    pipe pipefd p w
    = Ret [r; wr]
        (set_fds (<[wr := mk_ofile "pipe:[w]" O_WRONLY]>
                    (<[r := mk_ofile "pipe:[r]" O_RDONLY]> (fds p))) p) w
    ∧ r ≠ wr ∧ fds p !! r = None ∧ fds p !! wr = None.
Proof.
  intros Hin Hn0 Hn.
  destruct (lowest_fd_room n p Hin ltac:(lia)) as (r & Hr & Hr_le & Hr_free).
  destruct (lowest_fd_room (n + 1)
              (set_fds (<[r := mk_ofile "pipe:[r]" O_RDONLY]> (fds p)) p)
              ltac:(by apply fds_within_insert) ltac:(lia))
    as (wr & Hwr & _ & Hwr_free).
  simpl in Hwr, Hwr_free.
  assert (r ≠ wr) as Hne by (intros ->; by rewrite lookup_insert_eq in Hwr_free).
  rewrite lookup_insert_ne in Hwr_free by done.
  exists r, wr. unfold pipe. by rewrite Hr, Hwr.
Qed.

(** X16.  A PIPE node when the pipe can be created (the process has room
    for two more descriptors) and the first [fork] fails: nothing is
    evaluated and nothing is reported; both ends of the pipe stay open in
    the shell process, and the status returned is 0 or 1 according to what
    the variable [status2], which was never assigned, happens to hold. *)
Theorem pipe_fork_failure_leaves_pipe_open (O : os) (c : command_t)
    (level : Z) (father : option command_t) (n : Z) (p : proc) (w : world) :
  op c = OP_PIPE →
  os_fork_ok O w = false →
  fds_within n p → 0 ≤ n → n + 2 ≤ Z.of_nat OPEN_MAX →
  ∃ r wr,
    r ≠ wr ∧ fds p !! r = None ∧ fds p !! wr = None
    ∧ parse_command O (Some c) level father p w
      = Ret (if os_uninit O "status2" =? 0 then 0 else 1)
          (set_fds (<[wr := mk_ofile "pipe:[w]" O_WRONLY]>
                      (<[r := mk_ofile "pipe:[r]" O_RDONLY]> (fds p))) p) w.
Proof.
  intros Hop Hfork Hin Hn0 Hn.
  destruct (pipe_room n [os_uninit O "pipefd[0]"; os_uninit O "pipefd[1]"]
              p w Hin Hn0 Hn) as (r & wr & Hpipe & Hne & Hr & Hwr).
  exists r, wr. split_and!; [done..|].
  rewrite parse_command_unfold, Hop. unfold run_on_pipe.
  unfold bind at 1. unfold bind at 1. rewrite Hpipe.
  unfold fork. simpl. rewrite Hfork. unfold ret, bool_of_int.
  by destruct (os_uninit O "status2" =? 0).
Qed.

Lemma pipe_fork_failure_leaves_pipe_open_witness :
  ∃ r wr,
    r ≠ wr ∧ fds Demo.p0 !! r = None ∧ fds Demo.p0 !! wr = None
    ∧ parse_command Demo.crowded
        (Some (Demo.node OP_PIPE (Demo.run "ok") (Demo.run "ok")))
        0 None Demo.p0 (set_next_pid 102 Demo.w0)
      = Ret 1
          (set_fds (<[wr := mk_ofile "pipe:[w]" O_WRONLY]>
                      (<[r := mk_ofile "pipe:[r]" O_RDONLY]> (fds Demo.p0)))
             Demo.p0)
          (set_next_pid 102 Demo.w0).
Proof.
  apply (pipe_fork_failure_leaves_pipe_open Demo.crowded
           (Demo.node OP_PIPE (Demo.run "ok") (Demo.run "ok")) 0 None 3
           Demo.p0 (set_next_pid 102 Demo.w0));
    [reflexivity|reflexivity|apply p0_within|lia|vm_compute; discriminate].
Defined.

(** *** Parallel execution *)

(** X17.  A PARALLEL node whose first child process is created and whose
    second [fork] fails: the right branch is not evaluated, nothing is
    reported and the status is 0; the first child has run to its end and is
    never waited for, so it is left behind as a terminated process. *)
Theorem parallel_fork_failure_leaves_child (O : os) (c : command_t)
    (level : Z) (father : option command_t) (p : proc) (w : world) :
  let left := parse_command O (cmd1 c) level father in
  op c = OP_PARALLEL →
  os_fork_ok O w = true →
  os_fork_ok O (spawn left p w).2 = false →
  parse_command O (Some c) level father p w = Ret 0 p (spawn left p w).2
  ∧ zombies (spawn left p w).2 !! Z.pos (next_pid w)
    = Some (W_EXITCODE
              (child_end left p (set_next_pid (Pos.succ (next_pid w)) w)).1).
Proof.
  intros left Hop Hok1 Hok2. split.
  - rewrite parse_command_unfold, Hop. unfold run_in_parallel.
    unfold bind at 1. rewrite fork_spawn by done. fold left.
    unfold fork at 1. by rewrite Hok2.
  - rewrite <- (spawn_pid left p w). apply spawn_zombie.
Qed.

Lemma parallel_fork_failure_leaves_child_witness :
  let c := Demo.node OP_PARALLEL (Demo.run "two") (Demo.run "ok") in
  ∃ w1,
    parse_command Demo.crowded (Some c) 0 None Demo.p0 Demo.w0
    = Ret 0 Demo.p0 w1
    ∧ zombies w1 !! 100 = Some 0 ∧ next_pid w1 = 102%positive.
Proof.
  destruct (parallel_fork_failure_leaves_child Demo.crowded
              (Demo.node OP_PARALLEL (Demo.run "two") (Demo.run "ok"))
              0 None Demo.p0 Demo.w0 eq_refl eq_refl eq_refl) as [H1 H2].
  eexists. split_and!; [exact H1|exact H2|reflexivity].
Defined.

(** *** Terminated processes

    When process creation never fails, every [fork] of [cmd.c] is followed
    by a [waitpid] for the process it created, on every path. *)

Lemma waited_refl w : waited [] w w.
Proof. intros pid st H. split; [done|apply not_elem_of_nil]. Qed.

Lemma waited_same w w' : zombies w' = zombies w → waited [] w w'.
Proof. intros Heq pid st H. rewrite Heq in H. by apply waited_refl. Qed.

Lemma waited_trans D1 D2 w1 w2 w3 :
  waited D1 w1 w2 → waited D2 w2 w3 → waited (D2 ++ D1) w1 w3.
Proof.
  intros H1 H2 pid st H.
  destruct (H2 pid st H) as [H' Hn2]. destruct (H1 pid st H') as [H'' Hn1].
  split; [done|]. rewrite elem_of_app. tauto.
Qed.

Lemma settles_ret {A} (a : A) : settles [] (ret a).
Proof. intros p w. apply waited_refl. Qed.

Lemma settles_exit {A} (status : Z) : settles [] (@shell_exit A status).
Proof. intros p w. apply waited_refl. Qed.

Lemma settles_overrun {A} : settles [] (@overrun A).
Proof. intros p w. apply waited_refl. Qed.

Lemma settles_runs {A} (m : M A) :
  (∀ p w, runs m p w (fun _ _ w' => zombies w' = zombies w)) → settles [] m.
Proof.
  intros H p w. eapply runs_wp; [apply H|].
  intros ? ? w' Heq. by apply waited_same.
Qed.

Lemma settles_bind {A B} (m : M A) (k : A → M B) :
  settles [] m → (∀ a, settles [] (k a)) → settles [] (bind m k).
Proof.
  intros Hm Hk p w. specialize (Hm p w). unfold wp, bind in *.
  destruct (m p w) as [a p' w'|]; [|done].
  specialize (Hk a p' w'). unfold wp in Hk.
  destruct (k a p' w'); apply (waited_trans [] [] _ _ _ Hm Hk).
Qed.

(** After a step that always returns and touches no process, as the two
    calls of [close] before the calls of [waitpid] in [run_on_pipe]. *)
Lemma settles_bind_runs {A B} (D : list Z) (m : M A) (k : A → M B) :
  (∀ p w, runs m p w (fun _ _ w' => zombies w' = zombies w)) →
  (∀ a, settles D (k a)) → settles D (bind m k).
Proof.
  intros Hm Hk p w. specialize (Hm p w). unfold runs, wp, bind in *.
  destruct (m p w) as [a p' w'|]; [|done].
  specialize (Hk a p' w'). unfold wp in Hk.
  apply waited_same in Hm.
  destruct (k a p' w');
    pose proof (waited_trans [] D _ _ _ Hm Hk) as H;
    by rewrite app_nil_r in H.
Qed.

Lemma settles_waitpid_bind {B} (D : list Z) (pid status : Z) (k : Z → M B) :
  (∀ a, settles D (k a)) → settles (D ++ [pid]) (bind (waitpid pid status) k).
Proof.
  intros Hk p w.
  destruct (waitpid_reap pid status p w) as [st Hwait].
  unfold wp. rewrite (bind_Ret _ _ _ _ _ _ _ Hwait).
  assert (waited [pid] w (reap pid w)) as Hreap.
  { intros x st' Hx. unfold reap in Hx. simpl in Hx.
    apply lookup_delete_Some in Hx as [Hne Hx].
    split; [done|]. rewrite not_elem_of_cons. split; [done|].
    apply not_elem_of_nil. }
  specialize (Hk st p (reap pid w)). unfold wp in Hk.
  destruct (k st p (reap pid w)); apply (waited_trans _ _ _ _ _ Hreap Hk).
Qed.

Lemma settles_printf (s : string) : settles [] (printf s).
Proof. by apply settles_runs. Qed.

Lemma settles_setenv (name value : string) : settles [] (setenv name value).
Proof. by apply settles_runs. Qed.

Lemma settles_execvp (O : os) file argv : settles [] (execvp O file argv).
Proof.
  intros p w. unfold wp, execvp.
  destruct (os_exec O file argv p); apply waited_refl.
Qed.

Lemma settles_dup2 oldfd newfd : settles [] (dup2 oldfd newfd).
Proof.
  apply settles_runs. intros p w. eapply runs_mono; [apply runs_dup2|].
  by intros ? ? ? [_ ->].
Qed.

Lemma settles_close fd : settles [] (close fd).
Proof.
  apply settles_runs. intros p w. eapply runs_mono; [apply runs_close|].
  by intros ? ? ? [_ ->].
Qed.

Lemma settles_pipe pipefd : settles [] (pipe pipefd).
Proof.
  apply settles_runs. intros p w. eapply runs_mono; [apply runs_pipe|].
  by intros ? ? ? [_ ->].
Qed.

Lemma settles_shell_cd (O : os) dir : settles [] (shell_cd O dir).
Proof.
  apply settles_runs. intros p w. eapply runs_mono; [apply runs_shell_cd|].
  by intros ? ? ? (_ & _ & ->).
Qed.

Lemma settles_cd_again (O : os) c : settles [] (cd_again O c).
Proof.
  apply settles_runs. intros p w. eapply runs_mono; [apply runs_cd_again|].
  by intros ? ? ? (_ & _ & ->).
Qed.

Lemma settles_getParameters s : settles [] (getParameters s).
Proof.
  apply settles_runs. intros p w. unfold runs, wp, getParameters.
  destruct (verb s); [|done].
  destruct (params s); [|done].
  unfold bind. by rewrite getParameters_loop_resolve.
Qed.

Lemma settles_saveAllAndSwitch (O : os) s : settles [] (saveAllAndSwitch O s).
Proof.
  apply settles_runs. intros p w.
  eapply runs_mono; [apply runs_saveAllAndSwitch|].
  by intros ? ? ? (_ & _ & ? & _).
Qed.

Lemma settles_switchAndClose saved s : settles [] (switchAndClose saved s).
Proof.
  apply settles_runs. intros p w. eapply runs_mono; [apply runs_switchAndClose|].
  by intros ? ? ? [_ ->].
Qed.

Lemma settles_strcat_parts buf w : settles [] (strcat_parts buf w).
Proof.
  apply settles_runs. intros p wd. unfold runs, wp.
  by rewrite strcat_parts_resolve.
Qed.

Create HintDb shell_settles.
#[local] Hint Resolve settles_ret settles_exit settles_overrun settles_printf
  settles_setenv
  settles_execvp settles_dup2 settles_close settles_pipe settles_shell_cd
  settles_cd_again settles_getParameters settles_saveAllAndSwitch
  settles_switchAndClose settles_strcat_parts : shell_settles.

Section Settles.

Variable O : os.
Hypothesis fork_ok : ∀ w, os_fork_ok O w = true.

Lemma settles_fork {A} (D : list Z) (child : M Empty_set) (parent : Z → M A)
    (failed : M A) :
  settles [] child → (∀ pid, settles (pid :: D) (parent pid)) →
  settles D (fork O child parent failed).
Proof using fork_ok.
  intros Hchild Hparent p w. unfold wp, fork. rewrite fork_ok.
  specialize (Hchild p (set_next_pid (Pos.succ (next_pid w)) w)).
  unfold wp in Hchild.
  destruct (child p (set_next_pid (Pos.succ (next_pid w)) w))
    as [[]|code w1].
  set (pid := Z.pos (next_pid w)).
  specialize (Hparent pid p
                (set_zombies (<[pid := W_EXITCODE code]> (zombies w1)) w1)).
  assert (∀ w', waited (pid :: D)
                  (set_zombies (<[pid := W_EXITCODE code]> (zombies w1)) w1) w' →
                waited D w w') as Hback.
  { intros w' Hw' x st Hx. destruct (Hw' x st Hx) as [Hx' Hn].
    rewrite not_elem_of_cons in Hn. destruct Hn as [Hne Hn].
    simpl in Hx'. rewrite lookup_insert_ne in Hx' by done.
    split; [|done]. by apply Hchild. }
  unfold wp in Hparent.
  by destruct (parent pid p _); apply Hback.
Qed.

(** Takes a computation apart along its binds, tests and forks. *)
Ltac settles_steps :=
  repeat match goal with
    | |- ∀ _, _ => intros ?
    | |- settles [?pid] (bind (waitpid ?pid _) _) =>
        apply (settles_waitpid_bind [] pid)
    | |- settles [?pid2; ?pid1] (bind (waitpid ?pid1 _) _) =>
        apply (settles_waitpid_bind [pid2] pid1)
    | |- settles [] (bind _ _) => apply settles_bind
    | |- settles (_ :: _) (bind (close _) _) =>
        apply settles_bind_runs;
        [intros ? ?; eapply runs_mono; [apply runs_close|];
         by intros ? ? ? [_ ->]|]
    | |- settles _ (fork _ _ _ _) => apply settles_fork
    | |- settles _ (if ?b then _ else _) => destruct b
    | |- settles _ (match ?x with _ => _ end) => destruct x
    | |- settles [] _ => solve [auto with shell_settles]
    end.

Lemma settles_parse_simple s level father :
  settles [] (parse_simple O s level father).
Proof using fork_ok. unfold parse_simple. settles_steps. Qed.

Section SettlesOperators.

Variable parse : option command_t → Z → option command_t → M Z.
Variables c1 c2 : option command_t.
Hypothesis settles_left : ∀ level father, settles [] (parse c1 level father).
Hypothesis settles_right : ∀ level father, settles [] (parse c2 level father).

Lemma settles_run_in_parallel level father :
  settles [] (run_in_parallel O parse c1 c2 level father).
Proof using fork_ok settles_left settles_right.
  unfold run_in_parallel. settles_steps.
Qed.

Lemma settles_run_on_pipe level father :
  settles [] (run_on_pipe O parse c1 c2 level father).
Proof using fork_ok settles_left settles_right.
  unfold run_on_pipe. settles_steps.
Qed.

Lemma settles_Conditional_Zero o s level father :
  settles [] (Conditional_Zero O parse (mk_command c1 c2 o s) level father).
Proof using fork_ok settles_left settles_right.
  unfold Conditional_Zero. simpl. settles_steps.
Qed.

Lemma settles_Conditional_NZero o s level father :
  settles [] (Conditional_NZero O parse (mk_command c1 c2 o s) level father).
Proof using fork_ok settles_left settles_right.
  unfold Conditional_NZero. simpl. settles_steps.
Qed.

End SettlesOperators.

Lemma settles_parse_node (c : command_t) :
  ∀ level father, settles [] (parse_command O (Some c) level father).
Proof using fork_ok.
  induction c as [c1 c2 o s IH1 IH2] using command_tree_ind.
  assert (∀ level father, settles [] (parse_command O c1 level father)) as H1.
  { destruct c1 as [c|]; intros; [by apply IH1 | apply settles_ret]. }
  assert (∀ level father, settles [] (parse_command O c2 level father)) as H2.
  { destruct c2 as [c|]; intros; [by apply IH2 | apply settles_ret]. }
  intros level father. rewrite parse_command_unfold. simpl.
  destruct o.
  - apply settles_parse_simple.
  - settles_steps.
  - apply settles_bind;
      [by apply settles_run_in_parallel | intros; apply settles_ret].
  - by apply settles_Conditional_Zero.
  - by apply settles_Conditional_NZero.
  - apply settles_bind;
      [by apply settles_run_on_pipe | intros; apply settles_ret].
  - apply settles_ret.
Qed.

End Settles.

(** X18.  When process creation never fails, evaluating a command tree
    leaves no terminated process behind: whether [parse_command] returns or
    ends the shell process, every process that is then terminated and not
    waited for was so before, so each child created on the way has been
    waited for. *)
Theorem no_process_left_behind (O : os) (c : option command_t) (level : Z)
    (father : option command_t) (p : proc) (w : world) :
  (∀ w0, os_fork_ok O w0 = true) →
  ∀ pid st,
    zombies (world_of (parse_command O c level father p w)) !! pid = Some st →
    zombies w !! pid = Some st.
Proof.
  intros Hok pid st Hz.
  assert (settles [] (parse_command O c level father)) as Hsettles.
  { destruct c as [c|]; [by apply settles_parse_node | apply settles_ret]. }
  specialize (Hsettles p w). unfold wp in Hsettles.
  destruct (parse_command O c level father p w); by apply Hsettles.
Qed.

Lemma no_process_left_behind_witness :
  let c := Demo.node OP_PARALLEL
             (Demo.node OP_PIPE (Demo.run "ok") (Demo.run "fail"))
             (Demo.node_with_scmd OP_CONDITIONAL_ZERO (Demo.run1 "cd" "/tmp")
                (Demo.run "exit")) in
  zombies (world_of (parse_command Demo.machine (Some c) 0 None
                       Demo.p0 Demo.w0)) = ∅.
Proof.
  apply map_empty. intros pid.
  destruct (zombies _ !! pid) as [st|] eqn:Hz; [|reflexivity].
  apply (no_process_left_behind Demo.machine
           (Some (Demo.node OP_PARALLEL
                    (Demo.node OP_PIPE (Demo.run "ok") (Demo.run "fail"))
                    (Demo.node_with_scmd OP_CONDITIONAL_ZERO
                       (Demo.run1 "cd" "/tmp") (Demo.run "exit"))))
           0 None Demo.p0 Demo.w0) in Hz; [|reflexivity].
  discriminate Hz.
Defined.

(** *** The descriptor table of the shell process

    Redirections and the ends of a pipe are set up in child processes; the
    process that evaluates a command tree closes what it opened. *)

Lemma fds_within_same (n : Z) p p' :
  fds p' = fds p → fds_within n p → fds_within n p'.
Proof. unfold fds_within. by intros ->. Qed.

Lemma keeps_fds_ret {A} (n : Z) (a : A) : keeps_fds n (ret a).
Proof. by intros p w _. Qed.

Lemma keeps_fds_bind {A B} (n : Z) (m : M A) (k : A → M B) :
  keeps_fds n m → (∀ a, keeps_fds n (k a)) → keeps_fds n (bind m k).
Proof.
  intros Hm Hk p w Hin. specialize (Hm p w Hin). unfold wp, bind in *.
  destruct (m p w) as [a p' w'|]; [|done].
  specialize (Hk a p' w' (fds_within_same n p p' Hm Hin)). unfold wp in Hk.
  destruct (k a p' w'); [congruence|done].
Qed.

Lemma keeps_fds_runs {A} (n : Z) (m : M A) :
  (∀ p w, runs m p w (fun _ p' _ => fds p' = fds p)) → keeps_fds n m.
Proof. intros H p w _. eapply runs_wp; [apply H|done]. Qed.

Lemma keeps_fds_waitpid (n : Z) pid status : keeps_fds n (waitpid pid status).
Proof.
  apply keeps_fds_runs. intros p w. eapply runs_mono; [apply runs_waitpid|].
  by intros ? ? ? ->.
Qed.

Lemma keeps_fds_cd_again (n : Z) (O : os) c : keeps_fds n (cd_again O c).
Proof.
  apply keeps_fds_runs. intros p w. eapply runs_mono; [apply runs_cd_again|].
  by intros ? ? ? (_ & ? & _).
Qed.

Lemma keeps_fds_parse_simple (n : Z) (O : os) s level father :
  keeps_fds n (parse_simple O s level father).
Proof. intros p w _. apply parse_simple_keeps_fds. Qed.

Section KeepsFds.

Variable O : os.
Variable n : Z.
Hypothesis fork_ok : ∀ w, os_fork_ok O w = true.
Hypothesis n_pos : 0 ≤ n.
Hypothesis room : n + 2 ≤ Z.of_nat OPEN_MAX.

(** The child works on a copy of the process. *)
Lemma keeps_fds_fork {A} (child : M Empty_set) (parent : Z → M A)
    (failed : M A) :
  (∀ pid, keeps_fds n (parent pid)) → keeps_fds n (fork O child parent failed).
Proof using fork_ok.
  intros Hparent p w Hin. unfold wp, fork. rewrite fork_ok.
  destruct (child p (set_next_pid (Pos.succ (next_pid w)) w))
    as [[]|code w1].
  apply (Hparent _ p _ Hin).
Qed.

Section KeepsFdsOperators.

Variable parse : option command_t → Z → option command_t → M Z.
Variables c1 c2 : option command_t.
Hypothesis keeps_left : ∀ level father, keeps_fds n (parse c1 level father).
Hypothesis keeps_right : ∀ level father, keeps_fds n (parse c2 level father).

Lemma keeps_fds_run_in_parallel level father :
  keeps_fds n (run_in_parallel O parse c1 c2 level father).
Proof using fork_ok.
  unfold run_in_parallel.
  apply keeps_fds_fork. intros pid1. apply keeps_fds_fork. intros pid2.
  apply keeps_fds_bind; [apply keeps_fds_waitpid|intros ?].
  apply keeps_fds_bind; [apply keeps_fds_waitpid|intros ?].
  apply keeps_fds_ret.
Qed.

(** The shell process closes both ends of the pipe after the second
    [fork]. *)
Lemma keeps_fds_run_on_pipe level father :
  keeps_fds n (run_on_pipe O parse c1 c2 level father).
Proof using fork_ok n_pos room.
  intros p w Hin.
  destruct (pipe_room n [os_uninit O "pipefd[0]"; os_uninit O "pipefd[1]"]
              p w Hin n_pos room) as (r & wr & Hpipe & Hne & Hr & Hwr).
  unfold wp, run_on_pipe. rewrite (bind_Ret _ _ _ _ _ _ _ Hpipe).
  set (pp := set_fds _ p).
  unfold fork at 1. rewrite fork_ok.
  match goal with
  | |- context [match ?child pp ?w0 with Ret _ _ _ => _ | Exit _ _ => _ end] =>
      destruct (child pp w0) as [[]|code1 w1]
  end.
  unfold fork at 1. rewrite fork_ok.
  match goal with
  | |- context [match ?child pp ?w0 with Ret _ _ _ => _ | Exit _ _ => _ end] =>
      destruct (child pp w0) as [[]|code2 w2]
  end.
  unfold bind, close, at_index, waitpid. simpl.
  rewrite lookup_insert_ne, lookup_insert_eq by done. simpl.
  rewrite lookup_delete_ne, lookup_insert_eq by done. simpl.
  assert (delete wr (delete r (<[wr := mk_ofile "pipe:[w]" O_WRONLY]>
                                 (<[r := mk_ofile "pipe:[r]" O_RDONLY]> (fds p))))
          = fds p) as Hback.
  { rewrite delete_insert_ne by done.
    rewrite (delete_insert_id (fds p) r) by done.
    by apply delete_insert_id. }
  repeat match goal with
         | |- context [match ?x with Some _ => _ | None => _ end] => destruct x
         end; simpl; exact Hback.
Qed.

Lemma keeps_fds_Conditional_Zero o s level father :
  keeps_fds n (Conditional_Zero O parse (mk_command c1 c2 o s) level father).
Proof using fork_ok keeps_left keeps_right.
  unfold Conditional_Zero. simpl. destruct s.
  - apply keeps_fds_fork. intros pid.
    apply keeps_fds_bind; [apply keeps_fds_waitpid|intros ?].
    apply keeps_fds_bind; [apply keeps_fds_cd_again|intros ?].
    apply keeps_fds_ret.
  - apply keeps_fds_bind; [apply keeps_left|intros status].
    apply keeps_fds_bind; [apply keeps_fds_cd_again|intros ?].
    destruct (status =? 0); [apply keeps_right|apply keeps_fds_ret].
Qed.

Lemma keeps_fds_Conditional_NZero o s level father :
  keeps_fds n (Conditional_NZero O parse (mk_command c1 c2 o s) level father).
Proof using fork_ok keeps_left keeps_right.
  unfold Conditional_NZero. simpl. destruct s.
  - apply keeps_fds_fork. intros pid.
    apply keeps_fds_bind; [apply keeps_fds_waitpid|intros ?].
    apply keeps_fds_ret.
  - apply keeps_fds_bind; [apply keeps_left|intros status].
    apply keeps_fds_bind; [apply keeps_fds_cd_again|intros ?].
    destruct (negb (status =? 0)); [apply keeps_right|apply keeps_fds_ret].
Qed.

End KeepsFdsOperators.

Lemma keeps_fds_parse_node (c : command_t) :
  ∀ level father, keeps_fds n (parse_command O (Some c) level father).
Proof using fork_ok n_pos room.
  induction c as [c1 c2 o s IH1 IH2] using command_tree_ind.
  assert (∀ level father, keeps_fds n (parse_command O c1 level father)) as H1.
  { destruct c1 as [c|]; intros; [by apply IH1 | apply keeps_fds_ret]. }
  assert (∀ level father, keeps_fds n (parse_command O c2 level father)) as H2.
  { destruct c2 as [c|]; intros; [by apply IH2 | apply keeps_fds_ret]. }
  intros level father. rewrite parse_command_unfold. simpl.
  destruct o.
  - apply keeps_fds_parse_simple.
  - apply keeps_fds_bind; [apply H1|intros ?].
    apply keeps_fds_bind; [apply H2|intros ?]. apply keeps_fds_ret.
  - apply keeps_fds_bind;
      [by apply keeps_fds_run_in_parallel | intros; apply keeps_fds_ret].
  - by apply keeps_fds_Conditional_Zero.
  - by apply keeps_fds_Conditional_NZero.
  - apply keeps_fds_bind;
      [by apply keeps_fds_run_on_pipe | intros; apply keeps_fds_ret].
  - apply keeps_fds_ret.
Qed.

End KeepsFds.

(** X19.  When process creation never fails and the shell process has room
    for the two descriptors of a pipe, evaluating a command tree gives the
    process back with the descriptor table it had: redirections are applied
    in child processes only, and both ends of every pipe are closed in the
    process that created it. *)
Theorem descriptor_table_is_kept (O : os) (c : option command_t) (level : Z)
    (father : option command_t) (n : Z) (p : proc) (w : world) :
  (∀ w0, os_fork_ok O w0 = true) →
  fds_within n p → 0 ≤ n → n + 2 ≤ Z.of_nat OPEN_MAX →
  ∀ p', proc_of (parse_command O c level father p w) = Some p' →
        fds p' = fds p.
Proof.
  intros Hok Hin Hn0 Hn p' Hp'.
  assert (keeps_fds n (parse_command O c level father)) as Hkeeps.
  { destruct c as [c|]; [by apply keeps_fds_parse_node | apply keeps_fds_ret]. }
  specialize (Hkeeps p w Hin). unfold wp in Hkeeps.
  destruct (parse_command O c level father p w); [|done].
  simpl in Hp'. by injection Hp' as <-.
Qed.

Lemma descriptor_table_is_kept_witness :
  let c := Demo.node OP_SEQUENTIAL
             (Demo.node OP_PIPE (Demo.run "ok") (Demo.run "fail"))
             (Demo.leaf Demo.cd_redirected) in
  ∃ p',
    proc_of (parse_command Demo.machine (Some c) 0 None Demo.p0 Demo.w0)
    = Some p'
    ∧ fds p' = fds Demo.p0.
Proof.
  eexists. split; [reflexivity|].
  apply (descriptor_table_is_kept Demo.machine
           (Some (Demo.node OP_SEQUENTIAL
                    (Demo.node OP_PIPE (Demo.run "ok") (Demo.run "fail"))
                    (Demo.leaf Demo.cd_redirected)))
           0 None 3 Demo.p0 Demo.w0);
    [reflexivity|apply p0_within|lia|vm_compute; discriminate|reflexivity].
Defined.

(** *** Conditionals *)




(** *** What changes the environment and the working directory *)

Section Keeps.

Context {X : Type} (f : proc → X).
Hypothesis same_env_f : ∀ p p', same_env p p' → f p' = f p.

Lemma keeps_ret {A} (a : A) : keeps f (ret a).
Proof. by intros p w. Qed.

Lemma keeps_exit {A} (status : Z) : keeps f (@shell_exit A status).
Proof. by intros p w. Qed.

Lemma keeps_bind {A B} (m : M A) (k : A → M B) :
  keeps f m → (∀ a, keeps f (k a)) → keeps f (bind m k).
Proof.
  intros Hm Hk p w. specialize (Hm p w). unfold wp, bind in *.
  destruct (m p w) as [a p' w'|]; [|done].
  specialize (Hk a p' w'). unfold wp in Hk.
  destruct (k a p' w'); [congruence|done].
Qed.

Lemma keeps_same_env {A} (m : M A) :
  (∀ p w, runs m p w (fun _ p' _ => same_env p p')) → keeps f m.
Proof using same_env_f.
  intros H p w. eapply runs_wp; [apply H|]. intros ? p' ?. apply same_env_f.
Qed.

Lemma keeps_fork {A} (O : os) (child : M Empty_set) (parent : Z → M A)
    (failed : M A) :
  (∀ pid, keeps f (parent pid)) → keeps f failed →
  keeps f (fork O child parent failed).
Proof.
  intros Hparent Hfailed p w. unfold wp, fork.
  destruct (os_fork_ok O w); [|apply Hfailed].
  destruct (child p (set_next_pid (Pos.succ (next_pid w)) w))
    as [[]|code w1].
  apply Hparent.
Qed.

Lemma keeps_waitpid pid status : keeps f (waitpid pid status).
Proof using same_env_f.
  apply keeps_same_env. intros p w. eapply runs_mono; [apply runs_waitpid|].
  intros ? ? ? ->. apply same_env_refl.
Qed.

Lemma keeps_close fd : keeps f (close fd).
Proof using same_env_f.
  apply keeps_same_env. intros p w. eapply runs_mono; [apply runs_close|].
  by intros ? ? ? [? _].
Qed.

Lemma keeps_pipe pipefd : keeps f (pipe pipefd).
Proof using same_env_f.
  apply keeps_same_env. intros p w. eapply runs_mono; [apply runs_pipe|].
  by intros ? ? ? [? _].
Qed.

Lemma keeps_perror s : keeps f (perror s).
Proof using same_env_f.
  apply keeps_same_env. intros p w. apply same_env_refl.
Qed.

Section KeepsOperators.

Variable O : os.
Variable parse : option command_t → Z → option command_t → M Z.
Variable c : command_t.
Hypothesis keeps_left : ∀ level father, keeps f (parse (cmd1 c) level father).
Hypothesis keeps_right : ∀ level father, keeps f (parse (cmd2 c) level father).
Hypothesis keeps_cd_again : keeps f (cd_again O c).

Lemma keeps_run_in_parallel level father :
  keeps f (run_in_parallel O parse (cmd1 c) (cmd2 c) level father).
Proof using same_env_f.
  unfold run_in_parallel.
  apply keeps_fork; [intros pid1|apply keeps_ret].
  apply keeps_fork; [intros pid2|apply keeps_ret].
  apply keeps_bind; [apply keeps_waitpid|intros ?].
  apply keeps_bind; [apply keeps_waitpid|intros ?].
  apply keeps_ret.
Qed.

Lemma keeps_run_on_pipe level father :
  keeps f (run_on_pipe O parse (cmd1 c) (cmd2 c) level father).
Proof using same_env_f.
  unfold run_on_pipe.
  apply keeps_bind; [apply keeps_pipe|intros pipefd].
  apply keeps_fork; [intros pid1|apply keeps_ret].
  apply keeps_fork; [intros pid2|apply keeps_ret].
  apply keeps_bind; [apply keeps_close|intros ?].
  apply keeps_bind; [apply keeps_close|intros ?].
  apply keeps_bind; [apply keeps_waitpid|intros ?].
  apply keeps_bind; [apply keeps_waitpid|intros ?].
  apply keeps_ret.
Qed.

Lemma keeps_Conditional_Zero level father :
  keeps f (Conditional_Zero O parse c level father).
Proof using same_env_f keeps_left keeps_right keeps_cd_again.
  unfold Conditional_Zero. destruct (scmd c).
  - apply keeps_fork; [intros pid|apply keeps_ret].
    apply keeps_bind; [apply keeps_waitpid|intros ?].
    apply keeps_bind; [apply keeps_cd_again|intros ?].
    apply keeps_ret.
  - apply keeps_bind; [apply keeps_left|intros status].
    apply keeps_bind; [apply keeps_cd_again|intros ?].
    destruct (status =? 0); [apply keeps_right|apply keeps_ret].
Qed.

Lemma keeps_Conditional_NZero level father :
  keeps f (Conditional_NZero O parse c level father).
Proof using same_env_f keeps_left keeps_right keeps_cd_again.
  unfold Conditional_NZero. destruct (scmd c).
  - apply keeps_fork; [intros pid|apply keeps_ret].
    apply keeps_bind; [apply keeps_waitpid|intros ?].
    apply keeps_ret.
  - apply keeps_bind; [apply keeps_left|intros status].
    apply keeps_bind; [apply keeps_cd_again|intros ?].
    destruct (negb (status =? 0)); [apply keeps_right|apply keeps_ret].
Qed.

End KeepsOperators.

(** The command tree, for simple commands that satisfy [ok]. *)
Section KeepsTree.

Variable O : os.
Variable ok : simple_command_t → Prop.
Hypothesis keeps_simple :
  ∀ s level father, ok s → keeps f (parse_simple O (Some s) level father).
Hypothesis keeps_cd :
  ∀ c, Forall ok (scmds c) → keeps f (cd_again O c).

Lemma keeps_parse_node (c : command_t) :
  Forall ok (scmds c) →
  ∀ level father, keeps f (parse_command O (Some c) level father).
Proof using same_env_f keeps_simple keeps_cd.
  induction c as [c1 c2 o s IH1 IH2] using command_tree_ind.
  intros Hok.
  pose proof (keeps_cd _ Hok) as Hcd.
  simpl in Hok. apply Forall_app in Hok as [Hs Hok].
  apply Forall_app in Hok as [Hok1 Hok2].
  assert (∀ level father, keeps f (parse_command O c1 level father)) as H1.
  { destruct c1 as [c|]; intros; [by apply IH1 | apply keeps_ret]. }
  assert (∀ level father, keeps f (parse_command O c2 level father)) as H2.
  { destruct c2 as [c|]; intros; [by apply IH2 | apply keeps_ret]. }
  intros level father. rewrite parse_command_unfold.
  cbn [op cmd1 cmd2 scmd].
  destruct o.
  - destruct s as [s|]; [|apply keeps_ret].
    apply keeps_simple. by apply Forall_inv in Hs.
  - apply keeps_bind; [apply H1|intros ?].
    apply keeps_bind; [apply H2|intros ?]. apply keeps_ret.
  - apply keeps_bind; [|intros; apply keeps_ret].
    apply (keeps_run_in_parallel O (parse_command O)
             (mk_command c1 c2 OP_PARALLEL s)).
  - by apply keeps_Conditional_Zero.
  - by apply keeps_Conditional_NZero.
  - apply keeps_bind; [|intros; apply keeps_ret].
    apply (keeps_run_on_pipe O (parse_command O)
             (mk_command c1 c2 OP_PIPE s)).
  - apply keeps_ret.
Qed.

End KeepsTree.

End Keeps.

Lemma keeps_env_shell_cd (O : os) dir : keeps env (shell_cd O dir).
Proof.
  intros p w. eapply runs_wp; [apply runs_shell_cd|]. by intros ? ? ? (? & _).
Qed.

Lemma keeps_env_cd_again (O : os) c : keeps env (cd_again O c).
Proof.
  intros p w. eapply runs_wp; [apply runs_cd_again|]. by intros ? ? ? (? & _).
Qed.

Lemma same_env_env p p' : same_env p p' → env p' = env p.
Proof. by intros [? _]. Qed.

Lemma same_env_cwd p p' : same_env p p' → cwd p' = cwd p.
Proof. by intros [_ ?]. Qed.

Lemma keeps_env_parse_simple (O : os) s level father :
  not_assignment s → keeps env (parse_simple O (Some s) level father).
Proof.
  intros Hs. unfold parse_simple.
  destruct (verb s) as [v|] eqn:Hv; [|apply keeps_ret].
  rewrite (Hs v Hv).
  destruct (_ || _); [apply keeps_exit|].
  destruct (strcmp0 (word_string v) "true"); [apply keeps_ret|].
  destruct (strcmp0 (word_string v) "false"); [apply keeps_ret|].
  apply keeps_fork.
  - intros pid.
    apply keeps_bind; [apply keeps_waitpid, same_env_env|intros status].
    apply keeps_bind.
    + destruct (strcmp0 (word_string v) "cd");
        [apply keeps_env_shell_cd|apply keeps_ret].
    + intros b. destruct (negb b); apply keeps_ret.
  - apply keeps_bind;
      [apply keeps_perror, same_env_env|intros; apply keeps_ret].
Qed.

Lemma keeps_cwd_parse_simple (O : os) s level father :
  not_cd s → keeps cwd (parse_simple O (Some s) level father).
Proof.
  intros Hs. unfold parse_simple.
  destruct (verb s) as [v|] eqn:Hv; [|apply keeps_ret].
  specialize (Hs v Hv). apply strcmp0_false in Hs.
  destruct (is_assignment v).
  { apply keeps_bind.
    - intros p w. unfold wp.
      destruct (next_part v ≫= next_part); [|done].
      by rewrite strcat_parts_resolve.
    - intros value.
      destruct (VALUE_SIZE <=? String.length value)%nat; [by intros p w|].
      apply keeps_bind; [by intros p w|intros; apply keeps_ret]. }
  destruct (_ || _); [apply keeps_exit|].
  destruct (strcmp0 (word_string v) "true"); [apply keeps_ret|].
  destruct (strcmp0 (word_string v) "false"); [apply keeps_ret|].
  apply keeps_fork.
  - intros pid.
    apply keeps_bind; [apply keeps_waitpid, same_env_cwd|intros status].
    rewrite Hs.
    apply keeps_bind; [apply keeps_ret|].
    intros b. destruct (negb b); apply keeps_ret.
  - apply keeps_bind;
      [apply keeps_perror, same_env_cwd|intros; apply keeps_ret].
Qed.

Lemma keeps_cwd_cd_again (O : os) c :
  Forall not_cd (scmds c) → keeps cwd (cd_again O c).
Proof.
  intros Hok. unfold cd_again, left_cd.
  destruct c as [[c1|] c2 o so]; [|apply keeps_ret].
  cbn [cmd1]. simpl in Hok.
  apply Forall_app in Hok as [_ Hok]. apply Forall_app in Hok as [Hok _].
  destruct c1 as [c11 c12 o1 [s|]]; [|apply keeps_ret].
  cbn [scmd]. simpl in Hok. apply Forall_inv in Hok.
  destruct (verb s) as [v|] eqn:Hv; [|apply keeps_ret].
  specialize (Hok v Hv). apply strcmp0_false in Hok. rewrite Hok.
  apply keeps_ret.
Qed.

(** X21.  Only an assignment changes the environment of the shell process:
    when no simple command of a command tree is an assignment, evaluating
    the tree gives the process back with the environment it had.  Whatever
    the commands do to the environment happens in child processes. *)
Theorem environment_changed_by_assignments_only (O : os) (c : command_t)
    (level : Z) (father : option command_t) (p : proc) (w : world) :
  Forall not_assignment (scmds c) →
  ∀ p', proc_of (parse_command O (Some c) level father p w) = Some p' →
        env p' = env p.
Proof.
  intros Hok p' Hp'.
  pose proof (keeps_parse_node env same_env_env O not_assignment
                (keeps_env_parse_simple O) (fun c _ => keeps_env_cd_again O c)
                c Hok level father p w) as Hkeeps.
  unfold wp in Hkeeps.
  destruct (parse_command O (Some c) level father p w); [|done].
  simpl in Hp'. by injection Hp' as <-.
Qed.

Lemma environment_changed_by_assignments_only_witness :
  ∃ p',
    proc_of (parse_command Demo.machine
               (Some (Demo.node OP_SEQUENTIAL (Demo.run "ok")
                        (Demo.run1 "cd" "/tmp")))
               0 None Demo.p0 Demo.w0) = Some p'
    ∧ env p' = env Demo.p0.
Proof.
  eexists. split; [reflexivity|].
  apply (environment_changed_by_assignments_only Demo.machine
           (Demo.node OP_SEQUENTIAL (Demo.run "ok") (Demo.run1 "cd" "/tmp"))
           0 None Demo.p0 Demo.w0); [|reflexivity].
  repeat constructor; by intros v [= <-].
Defined.

(** X22.  Only [cd] changes the working directory of the shell process:
    when no simple command of a command tree has the verb "cd", evaluating
    the tree gives the process back in the directory it was in. *)
Theorem directory_changed_by_cd_only (O : os) (c : command_t)
    (level : Z) (father : option command_t) (p : proc) (w : world) :
  Forall not_cd (scmds c) →
  ∀ p', proc_of (parse_command O (Some c) level father p w) = Some p' →
        cwd p' = cwd p.
Proof.
  intros Hok p' Hp'.
  pose proof (keeps_parse_node cwd same_env_cwd O not_cd
                (keeps_cwd_parse_simple O) (keeps_cwd_cd_again O)
                c Hok level father p w) as Hkeeps.
  unfold wp in Hkeeps.
  destruct (parse_command O (Some c) level father p w); [|done].
  simpl in Hp'. by injection Hp' as <-.
Qed.

Lemma directory_changed_by_cd_only_witness :
  ∃ p',
    proc_of (parse_command Demo.machine
               (Some (Demo.node OP_CONDITIONAL_ZERO
                        (Demo.leaf Demo.assign_foo) (Demo.run "ok")))
               0 None Demo.p0 Demo.w0) = Some p'
    ∧ cwd p' = cwd Demo.p0.
Proof.
  eexists. split; [reflexivity|].
  apply (directory_changed_by_cd_only Demo.machine
           (Demo.node OP_CONDITIONAL_ZERO
              (Demo.leaf Demo.assign_foo) (Demo.run "ok"))
           0 None Demo.p0 Demo.w0); [|reflexivity].
  repeat constructor; by intros v [= <-].
Defined.

(** *** Process creation failing in an operator *)

(** X23.  When no process can be created, a PARALLEL node and a
    conditional node that carries a simple command of its own evaluate
    nothing, report nothing and return 0, the status of success; the shell
    process and the world are as they were.  ([parse_simple] in the same
    situation writes a diagnostic and returns -1.) *)
Theorem operators_return_zero_when_fork_fails (O : os) (c : command_t)
    (level : Z) (father : option command_t) (p : proc) (w : world) :
  os_fork_ok O w = false →
  op c = OP_PARALLEL
  ∨ (op c = OP_CONDITIONAL_ZERO ∨ op c = OP_CONDITIONAL_NZERO)
    ∧ is_Some (scmd c) →
  parse_command O (Some c) level father p w = Ret 0 p w.
Proof.
  intros Hfork Hop. rewrite parse_command_unfold.
  destruct Hop as [-> | [[-> | ->] [s Hs]]].
  - unfold run_in_parallel, bind, fork. by rewrite Hfork.
  - unfold Conditional_Zero, fork. by rewrite Hs, Hfork.
  - unfold Conditional_NZero, fork. by rewrite Hs, Hfork.
Qed.

Lemma operators_return_zero_when_fork_fails_witness :
  parse_command Demo.crowded
    (Some (Demo.node_with_scmd OP_CONDITIONAL_NZERO (Demo.run "fail")
             (Demo.run "ok")))
    0 None Demo.p0 (set_next_pid 102 Demo.w0)
  = Ret 0 Demo.p0 (set_next_pid 102 Demo.w0).
Proof.
  apply (operators_return_zero_when_fork_fails Demo.crowded
           (Demo.node_with_scmd OP_CONDITIONAL_NZERO (Demo.run "fail")
              (Demo.run "ok"))
           0 None Demo.p0 (set_next_pid 102 Demo.w0) eq_refl).
  right. split; [by right|by eexists].
Defined.
